(** * ViolinIntonation: the pitch-tracking and reference-tone engine

    A shallow embedding of the audio worklet ([docs/processor.js], which
    holds the YIN variant followed by the FFT variant of the processor) and
    of the pitch helpers ([src/audio/pitch-utils.ts]).

    Conventions of the embedding.
    - A JavaScript number that is always an integer in the code (an index,
      a counter, a MIDI note after [Math.round]) is a [Z]; the remainder
      operator [%] is [Z.rem] (it truncates towards zero, as in JavaScript).
    - Any other number is a real [R]: arithmetic is exact, the rounding of
      IEEE doubles is not modelled.  Where the code can produce [NaN] or an
      infinity (the YIN detector on a silent window, a division by zero) the
      numbers are [jsnum]s, which carry those values explicitly.
    - The typed arrays of the ring buffer and of its callers are lists
      held in a heap of arrays and named by their location, so that two
      names of one array alias as they do in the code; the arrays private
      to the detector are lists. *)

From Stdlib Require Import ZArith Reals Lra Lia.
From stdpp Require Import base list gmap strings pretty sorting.

Local Open Scope Z_scope.

(** ** Typed arrays on a heap *)

Definition loc := nat.

Section Arrays.
Context {A : Type}.

(** [zero] fills a new typed array; [nan] is what storing the [undefined]
    of an out-of-range read leaves in a typed array. *)
Variables (zero nan : A).

Definition arr_contents (h : gmap loc (list A)) (a : loc) : list A :=
  default [] (h !! a).

Definition arr_length (h : gmap loc (list A)) (a : loc) : Z :=
  Z.of_nat (length (arr_contents h a)).

(** [a[i]]: [undefined] outside the array. *)
Definition arr_get (h : gmap loc (list A)) (a : loc) (i : Z) : A :=
  if 0 <=? i then default nan (arr_contents h a !! Z.to_nat i) else nan.

(** [a[i] = x]: ignored outside the array. *)
Definition arr_set (h : gmap loc (list A)) (a : loc) (i : Z) (x : A)
  : gmap loc (list A) :=
  if 0 <=? i then alter (fun l => <[Z.to_nat i := x]> l) a h else h.

(** [new Float32Array(size)] *)
Definition arr_new (h : gmap loc (list A)) (size : Z)
  : gmap loc (list A) * loc :=
  let a := fresh (dom h) in
  (<[a := replicate (Z.to_nat size) zero]> h, a).

(** ** RingBuffer (processor.js, both variants) *)

Record RingBuffer := mkRingBuffer {
  buffer : loc;
  writeIndex : Z;
  available : Z
}.

(** The methods run on the heap and on [this]. *)
Definition rb_state : Type := gmap loc (list A) * RingBuffer.

(** [constructor(size)] *)
Definition RingBuffer_new (h : gmap loc (list A)) (size : Z) : rb_state :=
  let '(h1, a) := arr_new h size in
  (h1, {| buffer := a; writeIndex := 0; available := 0 |}).

(** One turn of the loop of [write]. *)
Definition write_sample (s : rb_state) (x : A) : rb_state :=
  let '(h, rb) := s in
  let h1 := arr_set h (buffer rb) (writeIndex rb) x in
  let len := arr_length h1 (buffer rb) in
  (h1, {| buffer := buffer rb;
          writeIndex := Z.rem (writeIndex rb + 1) len;
          available := if available rb <? len
                       then available rb + 1 else available rb |}).

(** [write(data)], [data] given by its samples. *)
Definition write (s : rb_state) (data : list A) : rb_state :=
  fold_left write_sample data s.

(** One turn of the loop of [read], at index [i]. *)
Definition read_sample (rb : RingBuffer) (output : loc)
    (h : gmap loc (list A)) (i : Z) : gmap loc (list A) :=
  let idx := Z.rem (writeIndex rb - arr_length h output + i
                    + arr_length h (buffer rb))
                   (arr_length h (buffer rb)) in
  arr_set h output i (arr_get h (buffer rb) idx).

(** The state after a sequence of calls of [write]. *)
Definition writes_from (s : rb_state) (writes : list (list A)) : rb_state :=
  fold_left write writes s.

(** [read(output)]: the returned boolean and the state it leaves. *)
Definition read (s : rb_state) (output : loc) : bool * rb_state :=
  let '(h, rb) := s in
  if available rb <? arr_length h output then (false, (h, rb))
  else
    (true,
     (fold_left (read_sample rb output)
                (map Z.of_nat (seq 0 (length (arr_contents h output)))) h,
      rb)).

Definition getAvailable (s : rb_state) : Z := available (snd s).

(** The samples the loop of [read] copies into an output of length [m],
    in the order of the output. *)
Definition read_data (h : gmap loc (list A)) (rb : RingBuffer) (m : nat)
  : list A :=
  map (fun i =>
         arr_get h (buffer rb)
           (Z.rem (writeIndex rb - Z.of_nat m + i + arr_length h (buffer rb))
                  (arr_length h (buffer rb))))
      (map Z.of_nat (seq 0 m)).

(** The last [n] elements of a list. *)
Definition lastn (n : nat) (l : list A) : list A :=
  drop (length l - n) l.

(** What the ring buffer holds after the samples [hist] were written:
    the cursor and the counter follow the number of samples, and every
    sample young enough to be kept sits at its index modulo the
    capacity. *)
Definition rb_repr (s : rb_state) (hist : list A) : Prop :=
  exists l,
    fst s !! buffer (snd s) = Some l /\
    (0 < length l)%nat /\
    writeIndex (snd s) = Z.of_nat (length hist) mod Z.of_nat (length l) /\
    available (snd s) = Z.min (Z.of_nat (length hist)) (Z.of_nat (length l)) /\
    forall k : nat,
      (length hist <= k + length l)%nat -> (k < length hist)%nat ->
      l !! Z.to_nat (Z.of_nat k mod Z.of_nat (length l)) = hist !! k.

Definition capacity (s : rb_state) : nat :=
  length (arr_contents (fst s) (buffer (snd s))).

End Arrays.

Arguments RingBuffer : clear implicits.
Arguments rb_state : clear implicits.

(** ** JavaScript numbers with [NaN] and the infinities

    Signed zeros and overflow are not modelled: a finite result is the
    exact real. *)

Inductive jsnum : Type :=
| Fin (r : R)
| PInf
| NInf
| NaN.

Definition rlt (a b : R) : bool := if Rlt_dec a b then true else false.
Definition rle (a b : R) : bool := if Rle_dec a b then true else false.
Definition req (a b : R) : bool := if Req_dec_T a b then true else false.

Module Js.

Definition of_Z (z : Z) : jsnum := Fin (IZR z).

Definition neg (a : jsnum) : jsnum :=
  match a with
  | Fin x => Fin (- x)
  | PInf => NInf
  | NInf => PInf
  | NaN => NaN
  end.

Definition add (a b : jsnum) : jsnum :=
  match a, b with
  | NaN, _ | _, NaN => NaN
  | Fin x, Fin y => Fin (x + y)
  | PInf, NInf | NInf, PInf => NaN
  | PInf, _ | _, PInf => PInf
  | NInf, _ | _, NInf => NInf
  end.

Definition sub (a b : jsnum) : jsnum := add a (neg b).

(** The infinity whose sign is that of [x], flipped when [positive] is
    false; [0 * Infinity] and [0 / 0] are [NaN]. *)
Definition signed_inf (x : R) (positive : bool) : jsnum :=
  if req x 0 then NaN
  else if Bool.eqb (rlt 0 x) positive then PInf else NInf.

Definition mul (a b : jsnum) : jsnum :=
  match a, b with
  | NaN, _ | _, NaN => NaN
  | Fin x, Fin y => Fin (x * y)
  | Fin x, PInf | PInf, Fin x => signed_inf x true
  | Fin x, NInf | NInf, Fin x => signed_inf x false
  | PInf, PInf | NInf, NInf => PInf
  | PInf, NInf | NInf, PInf => NInf
  end.

Definition div (a b : jsnum) : jsnum :=
  match a, b with
  | NaN, _ | _, NaN => NaN
  | Fin x, Fin y => if req y 0 then signed_inf x true else Fin (x / y)
  | Fin _, _ => Fin 0
  | PInf, Fin y => if rlt y 0 then NInf else PInf
  | NInf, Fin y => if rlt y 0 then PInf else NInf
  | _, _ => NaN
  end.

(** [a < b]: false as soon as one side is [NaN]. *)
Definition lt (a b : jsnum) : bool :=
  match a, b with
  | NaN, _ | _, NaN => false
  | Fin x, Fin y => rlt x y
  | NInf, NInf | PInf, _ => false
  | NInf, _ => true
  | Fin _, PInf => true
  | Fin _, NInf => false
  end.

Definition gt (a b : jsnum) : bool := lt b a.

Definition abs (a : jsnum) : jsnum :=
  match a with
  | Fin x => Fin (Rabs x)
  | PInf | NInf => PInf
  | NaN => NaN
  end.

(** [Math.min] and [Math.max] return [NaN] when an argument is. *)
Definition min (a b : jsnum) : jsnum :=
  match a, b with
  | NaN, _ | _, NaN => NaN
  | _, _ => if lt b a then b else a
  end.

Definition max (a b : jsnum) : jsnum :=
  match a, b with
  | NaN, _ | _, NaN => NaN
  | _, _ => if lt a b then b else a
  end.

Definition isFinite (a : jsnum) : bool :=
  match a with Fin _ => true | _ => false end.

(** [a === b] on numbers. *)
Definition eq (a b : jsnum) : bool :=
  match a, b with
  | Fin x, Fin y => req x y
  | PInf, PInf | NInf, NInf => true
  | _, _ => false
  end.

(** [Math.log2] *)
Definition log2 (a : jsnum) : jsnum :=
  match a with
  | Fin x =>
      if rlt 0 x then Fin (ln x / ln 2)
      else if req x 0 then NInf else NaN
  | PInf => PInf
  | NInf | NaN => NaN
  end.

(** Element [i] of a typed array held by value. *)
Definition get (a : list jsnum) (i : Z) : jsnum :=
  if 0 <=? i then default NaN (a !! Z.to_nat i) else NaN.

End Js.

(** The indices [from], [from + 1], ... below [to]: the values a counting
    [for] loop gives its variable. *)
Definition range (from to : Z) : list Z :=
  map (fun i => from + Z.of_nat i) (seq 0 (Z.to_nat (to - from))).

(** ** [Math] on finite numbers *)

(** [Math.round]: the nearest integer, halves upwards. *)
Definition Math_round (x : R) : Z := Zfloor (x + 0.5).

(** [Math.log2] at a positive argument. *)
Definition Math_log2 (x : R) : R := (ln x / ln 2)%R.

(** [Math.pow(2, y)] *)
Definition Math_pow2 (y : R) : R := Rpower 2 y.

(** ** src/audio/pitch-utils.ts *)

Module PitchUtils.

(** The arguments of the three conversions are positive finite numbers
    wherever the program calls them. *)
Definition frequencyToMidi (frequency a4 : R) : R :=
  (69 + 12 * Math_log2 (frequency / a4))%R.

Definition midiToFrequency (midi a4 : R) : R :=
  (a4 * Math_pow2 ((midi - 69) / 12))%R.

Definition frequencyToCents (frequency referenceFrequency : R) : R :=
  (1200 * Math_log2 (frequency / referenceFrequency))%R.

Definition nearestTemperedFrequency (frequency a4 : R) : R :=
  let midi := frequencyToMidi frequency a4 in
  let nearestMidi := Math_round midi in
  midiToFrequency (IZR nearestMidi) a4.

(** [((midi % 12) - scaleRoot + 12) % 12] *)
Definition noteClassOf (midi scaleRoot : Z) : Z :=
  Z.rem (Z.rem midi 12 - scaleRoot + 12) 12.

(** [Array.prototype.includes] *)
Definition includes (l : list Z) (x : Z) : bool :=
  existsb (Z.eqb x) l.

Definition isInScale (frequency : R) (scaleRoot : Z)
    (scaleIntervals : list Z) (a4 : R) : bool :=
  let midi := Math_round (frequencyToMidi frequency a4) in
  includes scaleIntervals (noteClassOf midi scaleRoot).

(** [Math.min(Math.abs(noteClass - interval),
              12 - Math.abs(noteClass - interval))] *)
Definition circularDistance (noteClass interval : Z) : Z :=
  Z.min (Z.abs (noteClass - interval)) (12 - Z.abs (noteClass - interval)).

(** One turn of the search loop; [minDistance] starts at [Infinity],
    which is [None]. *)
Definition nearestStep (noteClass : Z) (st : option Z * Z) (interval : Z)
  : option Z * Z :=
  let '(minDistance, nearestInterval) := st in
  let distance := circularDistance noteClass interval in
  match minDistance with
  | None => (Some distance, interval)
  | Some m =>
      if distance <? m then (Some distance, interval)
      else (minDistance, nearestInterval)
  end.

Definition nearestScaleInterval (noteClass : Z) (scaleIntervals : list Z)
  : Z :=
  snd (fold_left (nearestStep noteClass) scaleIntervals (None, 0)).

(** The note number [snapToScale] converts back to a frequency. *)
Definition snapMidi (roundedMidi scaleRoot : Z) (scaleIntervals : list Z)
  : Z :=
  let noteClass := noteClassOf roundedMidi scaleRoot in
  if includes scaleIntervals noteClass then roundedMidi
  else
    let nearestInterval := nearestScaleInterval noteClass scaleIntervals in
    let octave := roundedMidi / 12 in
    octave * 12 + scaleRoot + nearestInterval.

Definition snapToScale (frequency : R) (scaleRoot : Z)
    (scaleIntervals : list Z) (a4 : R) : R :=
  let midi := frequencyToMidi frequency a4 in
  let roundedMidi := Math_round midi in
  midiToFrequency (IZR (snapMidi roundedMidi scaleRoot scaleIntervals)) a4.

(** Peak refinement over a magnitude array. *)
Definition parabolicInterpolation (magnitudes : list jsnum) (peakBin : Z)
  : jsnum :=
  if (peakBin <=? 0) || (Z.of_nat (length magnitudes) - 1 <=? peakBin)
  then Js.of_Z peakBin
  else
    let alpha := Js.get magnitudes (peakBin - 1) in
    let beta := Js.get magnitudes peakBin in
    let gamma := Js.get magnitudes (peakBin + 1) in
    let denominator :=
      Js.add (Js.sub alpha (Js.mul (Fin 2) beta)) gamma in
    if Js.lt (Js.abs denominator) (Fin 1e-10) then Js.of_Z peakBin
    else
      let p := Js.div (Js.mul (Fin 0.5) (Js.sub alpha gamma)) denominator in
      Js.add (Js.of_Z peakBin) p.

End PitchUtils.

(** ** docs/processor.js, first processor: the YIN variant *)

Module Yin.

Definition BUFFER_SIZE : Z := 1024.
Definition HOP_SIZE : Z := 128.
Definition MIN_FREQUENCY : R := 150.
Definition MAX_FREQUENCY : R := 2000.
Definition YIN_THRESHOLD : R := 0.15.

(** *** YINDetector *)

Record YINDetector := mkYINDetector {
  bufferSize : Z;
  halfBuffer : Z;
  sampleRate : R;
  minPeriod : Z;
  maxPeriod : Z
}.

(** [constructor(bufferSize, sr)]; [yinBuffer] and [probability] are the
    results of the methods below. *)
Definition YINDetector_new (bufferSize : Z) (sr : R) : YINDetector :=
  let halfBuffer := bufferSize / 2 in
  {| bufferSize := bufferSize;
     halfBuffer := halfBuffer;
     sampleRate := sr;
     minPeriod := Zfloor (sr / MAX_FREQUENCY);
     maxPeriod := Z.min (Zfloor (sr / MIN_FREQUENCY)) (halfBuffer - 1) |}.

(** The difference function at lag [tau]. *)
Definition difference (d : YINDetector) (buffer : list jsnum) (tau : Z)
  : jsnum :=
  fold_left
    (fun acc i =>
       let delta := Js.sub (Js.get buffer i) (Js.get buffer (i + tau)) in
       Js.add acc (Js.mul delta delta))
    (range 0 (halfBuffer d)) (Fin 0).

(** The second loop of [computeDifference], over the lags from [tau]. *)
Fixpoint normalize (diffs : list jsnum) (tau : Z) (runningSum : jsnum)
  : list jsnum :=
  match diffs with
  | [] => []
  | y :: rest =>
      let runningSum' := Js.add runningSum y in
      Js.mul y (Js.div (Js.of_Z tau) runningSum')
        :: normalize rest (tau + 1) runningSum'
  end.

(** [computeDifference(buffer)]: the [yinBuffer] it leaves. *)
Definition computeDifference (d : YINDetector) (buffer : list jsnum)
  : list jsnum :=
  match map (difference d buffer) (range 0 (halfBuffer d)) with
  | [] => []
  | _ :: rest => Fin 1 :: normalize rest 1 (Fin 0)
  end.

(** The inner [while] of [absoluteThreshold]: it runs while
    [tau + 1 < maxPeriod], so [fuel] turns from [tau] are enough when
    [fuel] is [maxPeriod - tau]. *)
Fixpoint descend (d : YINDetector) (yinBuffer : list jsnum) (fuel : nat)
    (tau : Z) : Z :=
  match fuel with
  | O => tau
  | S fuel' =>
      if (tau + 1 <? maxPeriod d)
         && Js.lt (Js.get yinBuffer (tau + 1)) (Js.get yinBuffer tau)
      then descend d yinBuffer fuel' (tau + 1)
      else tau
  end.

(** The first loop of [absoluteThreshold], from [tau]: the lag and the
    probability when a value under the threshold is met. *)
Fixpoint firstBelow (d : YINDetector) (yinBuffer : list jsnum) (fuel : nat)
    (tau : Z) : option (Z * jsnum) :=
  match fuel with
  | O => None
  | S fuel' =>
      if Js.lt (Js.get yinBuffer tau) (Fin YIN_THRESHOLD)
      then
        let tau' := descend d yinBuffer fuel tau in
        Some (tau', Js.sub (Fin 1) (Js.get yinBuffer tau'))
      else firstBelow d yinBuffer fuel' (tau + 1)
  end.

(** The fallback loop: the global minimum. *)
Definition globalMinimum (d : YINDetector) (yinBuffer : list jsnum)
  : Z * jsnum :=
  fold_left
    (fun '(minTau, minVal) tau =>
       if Js.lt (Js.get yinBuffer tau) minVal
       then (tau, Js.get yinBuffer tau)
       else (minTau, minVal))
    (range (minPeriod d + 1) (maxPeriod d))
    (minPeriod d, Js.get yinBuffer (minPeriod d)).

(** [absoluteThreshold()]: the returned lag and [this.probability]. *)
Definition absoluteThreshold (d : YINDetector) (yinBuffer : list jsnum)
  : Z * jsnum :=
  match firstBelow d yinBuffer (Z.to_nat (maxPeriod d - minPeriod d))
                   (minPeriod d) with
  | Some r => r
  | None =>
      let '(minTau, minVal) := globalMinimum d yinBuffer in
      (minTau, Js.sub (Fin 1) minVal)
  end.

(** [parabolicInterpolation(tauEstimate)] *)
Definition parabolicInterpolation (d : YINDetector)
    (yinBuffer : list jsnum) (tauEstimate : Z) : jsnum :=
  if (tauEstimate <? 1) || (halfBuffer d - 1 <=? tauEstimate)
  then Js.of_Z tauEstimate
  else
    let s0 := Js.get yinBuffer (tauEstimate - 1) in
    let s1 := Js.get yinBuffer tauEstimate in
    let s2 := Js.get yinBuffer (tauEstimate + 1) in
    let denom := Js.sub (Js.sub (Js.mul (Fin 2) s1) s2) s0 in
    if Js.lt (Js.abs denom) (Fin 1e-10) then Js.of_Z tauEstimate
    else
      let adjustment := Js.div (Js.sub s2 s0) (Js.mul (Fin 2) denom) in
      if Js.lt (Js.abs adjustment) (Fin 1)
      then Js.add (Js.of_Z tauEstimate) adjustment
      else Js.of_Z tauEstimate.

Record Estimate := mkEstimate {
  frequency : jsnum;
  confidence : jsnum
}.

(** The sanity check of [detect]:
    [frequency < MIN_FREQUENCY || frequency > MAX_FREQUENCY
     || !isFinite(frequency)] *)
Definition outOfBand (frequency : jsnum) : bool :=
  Js.lt frequency (Fin MIN_FREQUENCY)
  || Js.gt frequency (Fin MAX_FREQUENCY)
  || negb (Js.isFinite frequency).

(** [Math.max(0, Math.min(1, x))] *)
Definition clamp01 (x : jsnum) : jsnum := Js.max (Fin 0) (Js.min (Fin 1) x).

Definition noDetection : Estimate :=
  {| frequency := Fin 0; confidence := Fin 0 |}.

(** [detect(buffer)] *)
Definition detect (d : YINDetector) (buffer : list jsnum) : Estimate :=
  let yinBuffer := computeDifference d buffer in
  let '(tauEstimate, probability) := absoluteThreshold d yinBuffer in
  let refinedTau := parabolicInterpolation d yinBuffer tauEstimate in
  let frequency := Js.div (Fin (sampleRate d)) refinedTau in
  if outOfBand frequency then noDetection
  else {| frequency := frequency; confidence := clamp01 probability |}.



(** A confidence is a number between 0 and 1, or [NaN] (which the clamp
    lets through). *)
Definition unitOrNaN (x : jsnum) : Prop :=
  x = NaN \/ exists c, x = Fin c /\ (0 <= c <= 1)%R.

(** A reported frequency is 0 or a finite number in the band. *)
Definition zeroOrInBand (x : jsnum) : Prop :=
  x = Fin 0
  \/ exists f, x = Fin f /\ (MIN_FREQUENCY <= f <= MAX_FREQUENCY)%R.

End Yin.

(** ** Oscillator

    The two processors of docs/processor.js each declare an [Oscillator];
    the fields and the setters are the same, [process] differs. *)

Module Osc.

(** [unknown] stands for any other string: the [default] branch. *)
Inductive Waveform : Type := sine | triangle | sawtooth | unknown.

Record Oscillator := mkOscillator {
  phase : R;
  frequency : R;
  targetFrequency : R;
  amplitude : R;
  targetAmplitude : R;
  waveform : Waveform;
  oscSampleRate : R;
  freqSmoothCoef : R;
  ampSmoothCoef : R
}.

Definition setFrequency (o : Oscillator) (freq : R) : Oscillator :=
  {| phase := phase o;
     frequency := if req (frequency o) 0 then freq else frequency o;
     targetFrequency := freq;
     amplitude := amplitude o;
     targetAmplitude := targetAmplitude o;
     waveform := waveform o;
     oscSampleRate := oscSampleRate o;
     freqSmoothCoef := freqSmoothCoef o;
     ampSmoothCoef := ampSmoothCoef o |}.

Definition setAmplitude (o : Oscillator) (amp : R) : Oscillator :=
  {| phase := phase o;
     frequency := frequency o;
     targetFrequency := targetFrequency o;
     amplitude := amplitude o;
     targetAmplitude := amp;
     waveform := waveform o;
     oscSampleRate := oscSampleRate o;
     freqSmoothCoef := freqSmoothCoef o;
     ampSmoothCoef := ampSmoothCoef o |}.

Definition setWaveform (o : Oscillator) (w : Waveform) : Oscillator :=
  {| phase := phase o;
     frequency := frequency o;
     targetFrequency := targetFrequency o;
     amplitude := amplitude o;
     targetAmplitude := targetAmplitude o;
     waveform := w;
     oscSampleRate := oscSampleRate o;
     freqSmoothCoef := freqSmoothCoef o;
     ampSmoothCoef := ampSmoothCoef o |}.

(** The head of [process]: frequency and amplitude move to their
    targets. *)
Definition smooth (o : Oscillator) : Oscillator :=
  {| phase := phase o;
     frequency := (frequency o * freqSmoothCoef o
                   + targetFrequency o * (1 - freqSmoothCoef o))%R;
     targetFrequency := targetFrequency o;
     amplitude := (amplitude o * ampSmoothCoef o
                   + targetAmplitude o * (1 - ampSmoothCoef o))%R;
     targetAmplitude := targetAmplitude o;
     waveform := waveform o;
     oscSampleRate := oscSampleRate o;
     freqSmoothCoef := freqSmoothCoef o;
     ampSmoothCoef := ampSmoothCoef o |}.

(** The tail of [process]: the phase advances and wraps once. *)
Definition advance (o : Oscillator) : Oscillator :=
  let phase' := (phase o + frequency o / oscSampleRate o)%R in
  {| phase := if rle 1 phase' then (phase' - 1)%R else phase';
     frequency := frequency o;
     targetFrequency := targetFrequency o;
     amplitude := amplitude o;
     targetAmplitude := targetAmplitude o;
     waveform := waveform o;
     oscSampleRate := oscSampleRate o;
     freqSmoothCoef := freqSmoothCoef o;
     ampSmoothCoef := ampSmoothCoef o |}.

(** [Math.sin(2 * Math.PI * n * this.phase)] *)
Definition partial (o : Oscillator) (n : Z) : R :=
  sin (2 * PI * IZR n * phase o)%R.

(** The frequency of the sinusoid of harmonic number [n]. *)
Definition harmonicFrequency (o : Oscillator) (n : Z) : R :=
  (IZR n * frequency o)%R.

Definition nyquist (o : Oscillator) : R := (oscSampleRate o / 2)%R.

End Osc.

Module YinOsc.
Import Osc.

(** [constructor(sr)] *)
Definition Oscillator_new (sr : R) : Oscillator :=
  {| phase := 0; frequency := 0; targetFrequency := 0;
     amplitude := 0; targetAmplitude := 0; waveform := sine;
     oscSampleRate := sr;
     freqSmoothCoef := 0.995; ampSmoothCoef := 0.95 |}.

(** [Math.floor(this.oscSampleRate / (2 * this.frequency))], computed
    where the frequency is positive. *)
Definition maxHarmonic (o : Oscillator) : Z :=
  Zfloor (oscSampleRate o / (2 * frequency o)).

(** The values of [k] in the triangle loop. *)
Definition triangleTerms (o : Oscillator) : list Z :=
  range 0 (Z.min (maxHarmonic o) 10).

(** The values of [k] in the sawtooth loop. *)
Definition sawtoothTerms (o : Oscillator) : list Z :=
  range 1 (Z.min (maxHarmonic o) 12 + 1).

Definition triangleSample (o : Oscillator) : R :=
  (fold_left
     (fun (sample : R) (k : Z) =>
        let n := (2 * k + 1)%Z in
        let sign := if (Z.rem k 2 =? 0)%Z then 1%Z else (-1)%Z in
        sample + IZR sign * partial o n / (IZR n * IZR n))
     (triangleTerms o) 0
   * (8 / (PI * PI)))%R.

Definition sawtoothSample (o : Oscillator) : R :=
  (fold_left (fun (sample : R) (k : Z) => sample + partial o k / IZR k)
             (sawtoothTerms o) 0
   * (2 / PI))%R.

(** The harmonic numbers of the sinusoids summed for the waveform. *)
Definition harmonics (o : Oscillator) : list Z :=
  match waveform o with
  | triangle => map (fun k => 2 * k + 1) (triangleTerms o)
  | sawtooth => sawtoothTerms o
  | sine | unknown => [1]
  end.

(** [process()]: the sample and the oscillator it leaves. *)
Definition process (o : Oscillator) : R * Oscillator :=
  let o1 := smooth o in
  if rle (frequency o1) 0 || rlt (amplitude o1) 0.0001 then (0%R, o1)
  else
    let sample :=
      match waveform o1 with
      | triangle => triangleSample o1
      | sawtooth => sawtoothSample o1
      | sine | unknown => partial o1 1
      end in
    ((sample * amplitude o1)%R, advance o1).

End YinOsc.

(** The oscillator of the second processor (the FFT variant). *)
Module FftOsc.
Import Osc.

Definition Oscillator_new (sr : R) : Oscillator :=
  {| phase := 0; frequency := 0; targetFrequency := 0;
     amplitude := 0; targetAmplitude := 0; waveform := sine;
     oscSampleRate := sr;
     freqSmoothCoef := 0.99; ampSmoothCoef := 0.95 |}.

(** The values of [k] in the sawtooth loop: always 1 to 8. *)
Definition sawtoothTerms : list Z := range 1 9.

(** The triangle is computed from the phase, not summed. *)
Definition triangleSample (o : Oscillator) : R :=
  (4 * Rabs (phase o - 0.5) - 1)%R.

Definition sawtoothSample (o : Oscillator) : R :=
  (fold_left (fun (sample : R) (k : Z) => sample + partial o k / IZR k)
             sawtoothTerms 0
   * 0.5)%R.

Definition process (o : Oscillator) : R * Oscillator :=
  let o1 := smooth o in
  if rle (frequency o1) 0 || rlt (amplitude o1) 0.0001 then (0%R, o1)
  else
    let sample :=
      match waveform o1 with
      | triangle => triangleSample o1
      | sawtooth => sawtoothSample o1
      | sine | unknown => partial o1 1
      end in
    ((sample * amplitude o1)%R, advance o1).

End FftOsc.

(** ** IntonationMirrorProcessor

    [frequencyToPitchInfo] and [getSynthFrequency] have the same text in
    the two processors; the smoothing block of [process] differs in one
    line. *)

Module Processor.

Inductive ReferenceMode : Type := mirror | quantize | scale | otherMode.

Record ScaleConfig := mkScaleConfig {
  root : Z;
  intervals : list Z
}.

Record Config := mkConfig {
  referenceMode : ReferenceMode;
  a4Tuning : R;
  waveformType : Osc.Waveform;
  pitchCount : Z;
  outputLevel : R;
  stabilitySmoothing : R;
  inputThreshold : R;
  confidenceThreshold : R;
  attackTime : R;
  releaseTime : R;
  scaleConfig : option ScaleConfig;
  enableMicMonitoring : bool
}.

(** The pitch report; [noteName], a string for display, is left out. *)
Record PitchInfo := mkPitchInfo {
  frequency : R;
  confidence : R;
  midiNote : R;
  cents : R;
  referenceFrequency : R
}.

(** The per-voice arrays of the processor, three entries each. *)
Record Voices := mkVoices {
  smoothedPitches : list jsnum;
  smoothedConfidences : list jsnum;
  noteHysteresis : list Z;
  lastQuantizedMidi : list Z
}.

(** The arrays as the constructor leaves them. *)
Definition Voices_new : Voices :=
  {| smoothedPitches := [Fin 0; Fin 0; Fin 0];
     smoothedConfidences := [Fin 0; Fin 0; Fin 0];
     noteHysteresis := [0; 0; 0];
     lastQuantizedMidi := [0; 0; 0] |}.

(** [frequencyToPitchInfo(freq, confidence)], called with a positive
    [freq]. *)
Definition frequencyToPitchInfo (cfg : Config) (freq conf : R)
  : PitchInfo :=
  let a4 := a4Tuning cfg in
  let midiFloat := (69 + 12 * Math_log2 (freq / a4))%R in
  let midiRounded := Math_round midiFloat in
  let referenceFreq := (a4 * Math_pow2 ((IZR midiRounded - 69) / 12))%R in
  {| frequency := freq;
     confidence := conf;
     midiNote := midiFloat;
     cents := (1200 * Math_log2 (freq / referenceFreq))%R;
     referenceFrequency := referenceFreq |}.

(** The [quantize] case of [getSynthFrequency] on the two arrays: the
    index is that of a voice, below three. *)
Definition quantizeStep (v : Voices) (targetMidi : Z) (index : nat)
  : Voices :=
  let last := default 0 (lastQuantizedMidi v !! index) in
  if negb (targetMidi =? last) then
    let count := default 0 (noteHysteresis v !! index) + 1 in
    if 3 <=? count then
      {| smoothedPitches := smoothedPitches v;
         smoothedConfidences := smoothedConfidences v;
         noteHysteresis := <[index := 0]> (noteHysteresis v);
         lastQuantizedMidi := <[index := targetMidi]> (lastQuantizedMidi v) |}
    else
      {| smoothedPitches := smoothedPitches v;
         smoothedConfidences := smoothedConfidences v;
         noteHysteresis := <[index := count]> (noteHysteresis v);
         lastQuantizedMidi := lastQuantizedMidi v |}
  else
    {| smoothedPitches := smoothedPitches v;
       smoothedConfidences := smoothedConfidences v;
       noteHysteresis := <[index := 0]> (noteHysteresis v);
       lastQuantizedMidi := lastQuantizedMidi v |}.

(** One turn of the search loop of the [scale] case; [minDist] starts
    at 12. *)
Definition nearestStep (noteClass : Z) (st : Z * Z) (interval : Z)
  : Z * Z :=
  let '(minDist, nearestInterval) := st in
  let dist := PitchUtils.circularDistance noteClass interval in
  if dist <? minDist then (dist, interval) else (minDist, nearestInterval).

Definition nearestScaleInterval (noteClass : Z) (scaleIntervals : list Z)
  : Z :=
  snd (fold_left (nearestStep noteClass) scaleIntervals (12, 0)).

(** The note number the [scale] case converts to a frequency. *)
Definition scaleMidi (sc : ScaleConfig) (midi : Z) : Z :=
  let noteClass := PitchUtils.noteClassOf midi (root sc) in
  if PitchUtils.includes (intervals sc) noteClass then midi
  else
    let nearestInterval := nearestScaleInterval noteClass (intervals sc) in
    let octave := midi / 12 in
    octave * 12 + root sc + nearestInterval.

(** [a4 * Math.pow(2, (midi - 69) / 12)] *)
Definition tempered (a4 : R) (midi : Z) : R :=
  (a4 * Math_pow2 ((IZR midi - 69) / 12))%R.

(** [getSynthFrequency(pitch, index)]: the frequency and the arrays it
    leaves. *)
Definition getSynthFrequency (cfg : Config) (v : Voices)
    (pitch : PitchInfo) (index : nat) : R * Voices :=
  if rle (frequency pitch) 0 then (0%R, v)
  else
    let a4 := a4Tuning cfg in
    match referenceMode cfg with
    | mirror => (frequency pitch, v)
    | quantize =>
        let targetMidi := Math_round (midiNote pitch) in
        let v' := quantizeStep v targetMidi index in
        (tempered a4 (default 0 (lastQuantizedMidi v' !! index)), v')
    | scale =>
        match scaleConfig cfg with
        | None => (referenceFrequency pitch, v)
        | Some sc =>
            (tempered a4 (scaleMidi sc (Math_round (midiNote pitch))), v)
        end
    | otherMode => (referenceFrequency pitch, v)
    end.

(** The committed note of a voice. *)
Definition committed (v : Voices) (index : nat) : Z :=
  default 0 (lastQuantizedMidi v !! index).

Definition hysteresis (v : Voices) (index : nat) : Z :=
  default 0 (noteHysteresis v !! index).

(** Feeding [getSynthFrequency] a run of pitches on one voice; the
    result lists, hop by hop, the frequency returned and the note
    committed after the hop. *)
Fixpoint runSynth (cfg : Config) (v : Voices) (index : nat)
    (pitches : list PitchInfo) : list (R * Z) * Voices :=
  match pitches with
  | [] => ([], v)
  | p :: rest =>
      let '(f, v1) := getSynthFrequency cfg v p index in
      let '(out, v2) := runSynth cfg v1 index rest in
      ((f, committed v1 index) :: out, v2)
  end.

(** The notes committed while the rounded proposals [targets] arrive. *)
Fixpoint runQuantize (v : Voices) (index : nat) (targets : list Z)
  : list Z :=
  match targets with
  | [] => []
  | t :: rest =>
      let v1 := quantizeStep v t index in
      committed v1 index :: runQuantize v1 index rest
  end.

(** The voice [index] has its entries in the two arrays. *)
Definition voiceIn (v : Voices) (index : nat) : Prop :=
  (index < length (noteHysteresis v))%nat
  /\ (index < length (lastQuantizedMidi v))%nat.

(** The [quantize] case seen from one voice: the committed note and the
    counter, before and after a proposal [targetMidi]. *)
Definition quantizeNote (st : Z * Z) (targetMidi : Z) : Z * Z :=
  let '(last, count) := st in
  if negb (targetMidi =? last) then
    if 3 <=? count + 1 then (targetMidi, 0) else (last, count + 1)
  else (last, 0).

(** The note and the counter after a run of proposals. *)
Definition noteAfter (st : Z * Z) (targets : list Z) : Z * Z :=
  fold_left quantizeNote targets st.

(** The notes committed hop by hop. *)
Fixpoint noteRun (st : Z * Z) (targets : list Z) : list Z :=
  match targets with
  | [] => []
  | t :: rest =>
      let st' := quantizeNote st t in
      fst st' :: noteRun st' rest
  end.

(** The rounded note a pitch proposes. *)
Definition proposal (pitch : PitchInfo) : Z := Math_round (midiNote pitch).

(** The reading of claim C1 in which the note committed by a change was
    itself proposed at the hop of the change and at the two hops before
    it. *)
Definition commitsOnlyRepeatedNote (st : Z * Z) (targets : list Z) : Prop :=
  forall k : nat,
    (k < length targets)%nat ->
    fst (noteAfter st (take (S k) targets))
      <> fst (noteAfter st (take k targets)) ->
    (2 <= k)%nat
    /\ forall j : nat, (k - 2 <= j <= k)%nat ->
         targets !! j = Some (fst (noteAfter st (take (S k) targets))).

(** What the code asks of a change: the proposals of the hop and of the
    two hops before it all differ from the note committed until then,
    and the note committed is the proposal of the hop. *)
Definition commitsAfterThreeDisagreements (st : Z * Z) (targets : list Z)
  : Prop :=
  forall k : nat,
    (k < length targets)%nat ->
    fst (noteAfter st (take (S k) targets))
      <> fst (noteAfter st (take k targets)) ->
    (2 <= k)%nat
    /\ targets !! k = Some (fst (noteAfter st (take (S k) targets)))
    /\ forall j : nat, (k - 2 <= j <= k)%nat ->
         exists t, targets !! j = Some t
                   /\ t <> fst (noteAfter st (take k targets)).

(** *** The smoothing block of [process] *)

Definition pitch0 (v : Voices) : jsnum :=
  default NaN (smoothedPitches v !! 0%nat).

Definition confidence0 (v : Voices) : jsnum :=
  default NaN (smoothedConfidences v !! 0%nat).

Definition setSmoothed (v : Voices) (pitch conf : jsnum) : Voices :=
  {| smoothedPitches := <[0%nat := pitch]> (smoothedPitches v);
     smoothedConfidences := <[0%nat := conf]> (smoothedConfidences v);
     noteHysteresis := noteHysteresis v;
     lastQuantizedMidi := lastQuantizedMidi v |}.

(** [frequency > 0 && confidence > this.config.confidenceThreshold * 0.5] *)
Definition accepted (cfg : Config) (freq conf : jsnum) : bool :=
  Js.gt freq (Fin 0)
  && Js.gt conf (Fin (confidenceThreshold cfg * 0.5)).

(** The [else] branch: decay when there is no valid detection. *)
Definition decay (v : Voices) : Voices :=
  let conf := Js.mul (confidence0 v) (Fin 0.9) in
  setSmoothed v
    (if Js.lt conf (Fin 0.05) then Fin 0 else pitch0 v)
    conf.

(** [prevFreq === 0 || Math.abs(Math.log2(frequency / prevFreq)) < 0.5] *)
Definition nearPrevious (freq prevFreq : jsnum) : bool :=
  Js.eq prevFreq (Fin 0)
  || Js.lt (Js.abs (Js.log2 (Js.div freq prevFreq))) (Fin 0.5).

Definition blend (alpha : R) (prev new : jsnum) : jsnum :=
  Js.add (Js.mul prev (Fin alpha)) (Js.mul new (Fin (1 - alpha))).

(** The block in the first processor (YIN). *)
Definition smoothingYin (cfg : Config) (v : Voices) (freq conf : jsnum)
  : Voices :=
  let alpha := stabilitySmoothing cfg in
  if accepted cfg freq conf then
    let prevFreq := pitch0 v in
    if nearPrevious freq prevFreq then
      setSmoothed v
        (if Js.eq prevFreq (Fin 0) then freq else blend alpha prevFreq freq)
        (blend alpha (confidence0 v) conf)
    else setSmoothed v freq (Js.mul conf (Fin 0.5))
  else decay v.

(** The block in the second processor (FFT). *)
Definition smoothingFft (cfg : Config) (v : Voices) (freq conf : jsnum)
  : Voices :=
  let alpha := stabilitySmoothing cfg in
  if accepted cfg freq conf then
    let prevFreq := pitch0 v in
    if nearPrevious freq prevFreq then
      setSmoothed v
        (blend alpha (pitch0 v) freq)
        (blend alpha (confidence0 v) conf)
    else setSmoothed v freq (Js.mul conf (Fin 0.5))
  else decay v.

(** [n] hops in a row whose estimates are all rejected. *)
Fixpoint rejectedHops (n : nat) (v : Voices) : Voices :=
  match n with
  | O => v
  | S n' => rejectedHops n' (decay v)
  end.

(** A run of hops with the estimates [ests] (YIN processor). *)
Definition hops (cfg : Config) (v : Voices) (ests : list (jsnum * jsnum))
  : Voices :=
  fold_left (fun v e => smoothingYin cfg v (fst e) (snd e)) ests v.

End Processor.

(** ** Inputs of the examples *)

(** An oscillator of the first processor that has settled on 2000 Hz,
    the highest frequency the detector reports, at 48 kHz. *)
Definition settledTriangle : Osc.Oscillator :=
  {| Osc.phase := 0; Osc.frequency := 2000; Osc.targetFrequency := 2000;
     Osc.amplitude := 0.5; Osc.targetAmplitude := 0.5;
     Osc.waveform := Osc.triangle; Osc.oscSampleRate := 48000;
     Osc.freqSmoothCoef := 0.995; Osc.ampSmoothCoef := 0.95 |}.

(** A magnitude array whose middle bin is not a peak. *)
Definition slopeMagnitudes : list jsnum := [Fin 3; Fin 2; Fin 0].

(** The three voices with the note 60 committed on voice 0 and the
    counters at 0. *)
Definition committed60 : Processor.Voices :=
  {| Processor.smoothedPitches := [Fin 0; Fin 0; Fin 0];
     Processor.smoothedConfidences := [Fin 0; Fin 0; Fin 0];
     Processor.noteHysteresis := [0; 0; 0];
     Processor.lastQuantizedMidi := [60; 0; 0] |}.

Definition majorIntervals : list Z := [0; 2; 4; 5; 7; 9; 11].

(** The major scale on G. *)
Definition gMajor : Processor.ScaleConfig :=
  {| Processor.root := 7; Processor.intervals := majorIntervals |}.

(** The major scale on C. *)
Definition cMajor : Processor.ScaleConfig :=
  {| Processor.root := 0; Processor.intervals := majorIntervals |}.

(** An oscillator of the second processor settled on 4000 Hz, the top of
    its detection band, at 48 kHz. *)
Definition settledSawtoothFft : Osc.Oscillator :=
  {| Osc.phase := 0; Osc.frequency := 4000; Osc.targetFrequency := 4000;
     Osc.amplitude := 0.5; Osc.targetAmplitude := 0.5;
     Osc.waveform := Osc.sawtooth; Osc.oscSampleRate := 48000;
     Osc.freqSmoothCoef := 0.99; Osc.ampSmoothCoef := 0.95 |}.

(** The configuration the constructor of the first processor sets. *)
Definition defaultConfig : Processor.Config :=
  {| Processor.referenceMode := Processor.quantize;
     Processor.a4Tuning := 440;
     Processor.waveformType := Osc.sine;
     Processor.pitchCount := 1;
     Processor.outputLevel := 0.5;
     Processor.stabilitySmoothing := 0.8;
     Processor.inputThreshold := -60;
     Processor.confidenceThreshold := 0.15;
     Processor.attackTime := 10;
     Processor.releaseTime := 80;
     Processor.scaleConfig := None;
     Processor.enableMicMonitoring := false |}.

(** A voice at 440 Hz whose confidence has come down to 0.05. *)
Definition fadingVoice : Processor.Voices :=
  {| Processor.smoothedPitches := [Fin 440; Fin 0; Fin 0];
     Processor.smoothedConfidences := [Fin 0.05; Fin 0; Fin 0];
     Processor.noteHysteresis := [0; 0; 0];
     Processor.lastQuantizedMidi := [0; 0; 0] |}.

(** The detector the first processor builds, at 48 kHz. *)
Definition detector48k : Yin.YINDetector :=
  Yin.YINDetector_new Yin.BUFFER_SIZE 48000.

(** An analysis window of digital silence. *)
Definition silentWindow : list jsnum :=
  replicate (Z.to_nat Yin.BUFFER_SIZE) (Fin 0).

(** The report of a pitch played exactly on the tempered note [n]. *)
Definition notePitch (cfg : Processor.Config) (n : Z) : Processor.PitchInfo :=
  Processor.frequencyToPitchInfo cfg
    (Processor.tempered (Processor.a4Tuning cfg) n) 1.

(** ** Envelope (the same class in the two processors) *)

Module Envelope.

Record Envelope := mkEnvelope {
  value : R;
  attackCoef : R;
  releaseCoef : R;
  envSampleRate : R
}.

(** [constructor(sr)] *)
Definition Envelope_new (sr : R) : Envelope :=
  {| value := 0; attackCoef := 0.1; releaseCoef := 0.01;
     envSampleRate := sr |}.

(** The coefficient [setAttack] and [setRelease] compute from a time in
    milliseconds: [samples > 0 ? 1 - Math.exp(-1 / samples) : 1]. *)
Definition coefficient (e : Envelope) (ms : R) : R :=
  let samples := (ms / 1000 * envSampleRate e)%R in
  if rlt 0 samples then (1 - exp (-1 / samples))%R else 1%R.

Definition setAttack (e : Envelope) (ms : R) : Envelope :=
  {| value := value e; attackCoef := coefficient e ms;
     releaseCoef := releaseCoef e; envSampleRate := envSampleRate e |}.

Definition setRelease (e : Envelope) (ms : R) : Envelope :=
  {| value := value e; attackCoef := attackCoef e;
     releaseCoef := coefficient e ms; envSampleRate := envSampleRate e |}.

(** [process(gateOpen)]: the value returned and the envelope it leaves. *)
Definition process (e : Envelope) (gateOpen : bool) : R * Envelope :=
  let target := if gateOpen then 1%R else 0%R in
  let coef := if gateOpen then attackCoef e else releaseCoef e in
  let v := (value e + coef * (target - value e))%R in
  (v, {| value := v; attackCoef := attackCoef e;
         releaseCoef := releaseCoef e; envSampleRate := envSampleRate e |}).

Definition getValue (e : Envelope) : R := value e.

(** [n] calls of [process] in a row with the same gate. *)
Fixpoint hold (n : nat) (gateOpen : bool) (e : Envelope) : Envelope :=
  match n with
  | O => e
  | S n' => hold n' gateOpen (snd (process e gateOpen))
  end.

End Envelope.

(** ** Levels: src/audio/pitch-utils.ts *)

(** [Math.log10] at a positive argument. *)
Definition Math_log10 (x : R) : R := (ln x / ln 10)%R.

(** [Math.pow(10, y)] *)
Definition Math_pow10 (y : R) : R := Rpower 10 y.

Module Levels.

(** [calculateRms(buffer)], the same in pitch-utils.ts and in the two
    processors: on an empty buffer the quotient is [0 / 0]. *)
Definition calculateRms (buffer : list R) : jsnum :=
  let sum := fold_left (fun (s x : R) => (s + x * x)%R) buffer 0%R in
  match buffer with
  | [] => NaN
  | _ :: _ => Fin (sqrt (sum / INR (length buffer)))
  end.

(** [20 * Math.log10(Math.max(linear, 1e-10))] *)
Definition linearToDb (linear : R) : R :=
  (20 * Math_log10 (Rmax linear 1e-10))%R.

Definition dbToLinear (db : R) : R := Math_pow10 (db / 20).

Definition ema (current previous alpha : R) : R :=
  (alpha * current + (1 - alpha) * previous)%R.

End Levels.

(** ** Note names *)

Module NoteNames.

Definition NOTE_NAMES : list string :=
  ["C"; "C#"; "D"; "D#"; "E"; "F"; "F#"; "G"; "G#"; "A"; "A#"; "B"]%string.

(** [`${NOTE_NAMES[i]}`]: an index outside the array reads [undefined]. *)
Definition nameAt (i : Z) : string :=
  if i <? 0 then "undefined"%string
  else default "undefined"%string (NOTE_NAMES !! Z.to_nat i).

(** [midiToNoteName(midi)] of pitch-utils.ts *)
Definition midiToNoteName (midi : R) : string :=
  let noteIndex := Z.rem (Math_round midi) 12 in
  let octave := Math_round midi / 12 - 1 in
  String.append
    (nameAt (if noteIndex <? 0 then noteIndex + 12 else noteIndex))
    (pretty octave).

(** The [noteName] that [frequencyToPitchInfo] of the processors builds
    from the rounded note. *)
Definition noteName (midiRounded : Z) : string :=
  let noteIndex := Z.rem (Z.rem midiRounded 12 + 12) 12 in
  let octave := midiRounded / 12 - 1 in
  String.append (nameAt noteIndex) (pretty octave).

End NoteNames.

(** ** The Hann window *)

Module Hann.

(** [0.5 * (1 - Math.cos((2 * Math.PI * i) / (N - 1)))]; for [N = 1] the
    quotient is [0 / 0]. *)
Definition multiplier (N i : nat) : jsnum :=
  if (N =? 1)%nat then NaN
  else Fin (0.5 * (1 - cos (2 * PI * INR i / (INR N - 1)))).

(** [applyHannWindow(buffer)] of pitch-utils.ts *)
Definition applyHannWindow (buffer : list R) : list jsnum :=
  imap (fun i x => Js.mul (Fin x) (multiplier (length buffer) i)) buffer.

End Hann.

(** ** The hop counter, the level and the gate in [process] *)

Module Orchestrator.

(** [this.rmsSmoothed = this.rmsSmoothed * 0.9 + currentRms * 0.1] *)
Definition updateRms (rmsSmoothed : jsnum) (inputChannel : list R) : jsnum :=
  Js.add (Js.mul rmsSmoothed (Fin 0.9))
         (Js.mul (Levels.calculateRms inputChannel) (Fin 0.1)).

(** [Math.log10] *)
Definition log10 (a : jsnum) : jsnum :=
  match a with
  | Fin x =>
      if rlt 0 x then Fin (ln x / ln 10)
      else if req x 0 then NInf else NaN
  | PInf => PInf
  | NInf | NaN => NaN
  end.

(** [20 * Math.log10(Math.max(this.rmsSmoothed, 1e-10))] *)
Definition rmsDb (rmsSmoothed : jsnum) : jsnum :=
  Js.mul (Fin 20) (log10 (Js.max rmsSmoothed (Fin 1e-10))).

(** [rmsDb > this.config.inputThreshold &&
     this.smoothedConfidences[0] > this.config.confidenceThreshold] *)
Definition gateOpen (cfg : Processor.Config) (rmsSmoothed : jsnum)
    (v : Processor.Voices) : bool :=
  Js.gt (rmsDb rmsSmoothed) (Fin (Processor.inputThreshold cfg))
  && Js.gt (Processor.confidence0 v) (Fin (Processor.confidenceThreshold cfg)).

(** The level after a run of input blocks. *)
Definition levelAfter (rmsSmoothed : jsnum) (blocks : list (list R)) : jsnum :=
  fold_left updateRms blocks rmsSmoothed.

Record Cadence := mkCadence {
  samplesSinceLastAnalysis : Z;
  hopCount : Z
}.

(** The counters over one block of [blockLength] samples: at most one hop
    is taken, whatever the length ([if], not [while]); the boolean tells
    whether the analysis runs. *)
Definition countBlock (HOP_SIZE : Z) (c : Cadence) (blockLength : Z)
  : Cadence * bool :=
  let since := samplesSinceLastAnalysis c + blockLength in
  if HOP_SIZE <=? since
  then ({| samplesSinceLastAnalysis := since - HOP_SIZE;
           hopCount := hopCount c + 1 |}, true)
  else ({| samplesSinceLastAnalysis := since; hopCount := hopCount c |},
        false).

Definition countBlocks (HOP_SIZE : Z) (c : Cadence) (blockLengths : list Z)
  : Cadence :=
  fold_left (fun c n => fst (countBlock HOP_SIZE c n)) blockLengths c.

(** The sum of the block lengths. *)
Definition totalLength (blockLengths : list Z) : Z :=
  fold_right Z.add 0 blockLengths.

End Orchestrator.

(** ** Running an oscillator *)

Module OscRun.

(** [n] calls of [process] of the first processor's oscillator. *)
Fixpoint run (n : nat) (o : Osc.Oscillator) : Osc.Oscillator :=
  match n with
  | O => o
  | S n' => run n' (snd (YinOsc.process o))
  end.

End OscRun.

(** ** Runs of the envelope and of the smoothing *)

Module Runs.

(** The envelope over a run of samples, one gate state per sample. *)
Definition envelope (gates : list bool) (e : Envelope.Envelope)
  : Envelope.Envelope :=
  fold_left (fun e g => snd (Envelope.process e g)) gates e.

End Runs.

(** An input block of digital silence: some samples, all 0. *)
Definition silentBlock (block : list R) : Prop :=
  block <> [] /\ Forall (fun x => x = 0%R) block.

(** ** Arrays of JavaScript: [slice] and [sort] *)

(** The index [slice] starts or stops at: a negative argument counts
    from the end, and both are cut to the array. *)
Definition sliceIndex (len i : Z) : Z :=
  if i <? 0 then Z.max (len + i) 0 else Z.min i len.

(** [l.slice(from, to)] *)
Definition slice {A : Type} (l : list A) (from to : Z) : list A :=
  let len := Z.of_nat (length l) in
  let k := sliceIndex len from in
  let final := sliceIndex len to in
  take (Z.to_nat (final - k)) (drop (Z.to_nat k) l).

(** [l.slice(from)] *)
Definition sliceFrom {A : Type} (l : list A) (from : Z) : list A :=
  drop (Z.to_nat (sliceIndex (Z.of_nat (length l)) from)) l.

Section Sort.
Context {A : Type}.

(** The comparison function of [sort]: a positive result puts its first
    argument after its second. *)
Variable compare : A -> A -> R.

Fixpoint insertSorted (x : A) (l : list A) : list A :=
  match l with
  | [] => [x]
  | y :: l' =>
      if rlt 0 (compare x y) then y :: insertSorted x l' else x :: y :: l'
  end.

(** [l.sort(compare)] on finite numbers: the stable sort, elements that
    compare equal keeping their order. *)
Definition sort (l : list A) : list A := foldr insertSorted [] l.

End Sort.

(** ** Pitch detection of the second processor (FFT peaks) *)

Module Fft.

Definition FFT_SIZE : Z := 4096.
Definition MIN_FREQUENCY : R := 80.
Definition MAX_FREQUENCY : R := 4000.

Record Peak := mkPeak {
  bin : Z;
  mag : R
}.

(** [this.magnitudes[i]]: [undefined] outside the array. *)
Definition magAt (magnitudes : list R) (i : Z) : option R :=
  if 0 <=? i then magnitudes !! Z.to_nat i else None.

(** [a > b], false when a side is [undefined]. *)
Definition above (a b : option R) : bool :=
  match a, b with
  | Some x, Some y => rlt y x
  | _, _ => false
  end.

(** [sampleRate / FFT_SIZE], for the positive sample rate of the audio
    context. *)
Definition binWidth (sampleRate : R) : R := (sampleRate / IZR FFT_SIZE)%R.

Definition minBin (sampleRate : R) : Z :=
  Zceil (MIN_FREQUENCY / binWidth sampleRate).

Definition maxBin (sampleRate : R) (magnitudes : list R) : Z :=
  Z.min (Zfloor (MAX_FREQUENCY / binWidth sampleRate))
        (Z.of_nat (length magnitudes) - 1).

(** The median of the band, [1e-10] when it is 0 or missing:
    [sortedMags[Math.floor(sortedMags.length * 0.5)] || 1e-10]. *)
Definition noiseFloor (magnitudes : list R) (lo hi : Z) : R :=
  let sortedMags :=
    sort (fun a b : R => (a - b)%R) (slice magnitudes lo hi) in
  match sortedMags !! Z.to_nat (Z.of_nat (length sortedMags) / 2) with
  | Some x => if req x 0 then 1e-10%R else x
  | None => 1e-10%R
  end.

(** The test of the peak loop at bin [i]. *)
Definition peakAt (magnitudes : list R) (noise : R) (i : Z) : option Peak :=
  match magAt magnitudes i with
  | Some m =>
      if above (Some m) (magAt magnitudes (i - 1))
         && above (Some m) (magAt magnitudes (i + 1))
         && rlt (noise * 3) m
      then Some {| bin := i; mag := m |}
      else None
  | None => None
  end.

(** The peaks, in the order of their bins. *)
Definition findPeaks (magnitudes : list R) (lo hi : Z) (noise : R)
  : list Peak :=
  omap (peakAt magnitudes noise) (range (lo + 1) (hi - 1)).

(** [peaks.sort((a, b) => b.mag - a.mag)] *)
Definition strongestFirst (peaks : list Peak) : list Peak :=
  sort (fun a b : Peak => (mag b - mag a)%R) peaks.

(** The parabolic refinement of [bestBin]. *)
Definition refinedBin (magnitudes : list R) (bestBin : Z) : R :=
  if (0 <? bestBin) && (bestBin <? Z.of_nat (length magnitudes) - 1) then
    match magAt magnitudes (bestBin - 1), magAt magnitudes bestBin,
          magAt magnitudes (bestBin + 1) with
    | Some alpha, Some beta, Some gamma =>
        let denom := (alpha - 2 * beta + gamma)%R in
        if rlt 1e-10 (Rabs denom) then
          let p := (0.5 * (alpha - gamma) / denom)%R in
          if rlt (Rabs p) 0.5 then (IZR bestBin + p)%R else IZR bestBin
        else IZR bestBin
    | _, _, _ => IZR bestBin
    end
  else IZR bestBin.

(** [Math.min(1, Math.max(0, (snr - 3) / 20))] *)
Definition confidenceOf (bestMag noise : R) : R :=
  Rmin 1 (Rmax 0 ((bestMag / noise - 3) / 20)).

(** [detectPitch()]: the pair of [frequency] and [confidence], for the
    magnitudes [computeFFT] left. *)
Definition detectPitch (sampleRate : R) (magnitudes : list R) : R * R :=
  let lo := minBin sampleRate in
  let hi := maxBin sampleRate magnitudes in
  if hi <=? lo then (0%R, 0%R)
  else
    let noise := noiseFloor magnitudes lo hi in
    let peaks := findPeaks magnitudes lo hi noise in
    match strongestFirst peaks with
    | [] => (0%R, 0%R)
    | best :: _ =>
        let frequency :=
          (refinedBin magnitudes (bin best) * binWidth sampleRate)%R in
        if rlt frequency MIN_FREQUENCY || rlt MAX_FREQUENCY frequency
        then (0%R, 0%R)
        else (frequency, confidenceOf (mag best) noise)
    end.

End Fft.

(** A spectrum of 12 bins with one peak, at bin 9. *)
Definition peakSpectrum : list R :=
  [1; 1; 1; 1; 1; 1; 1; 1; 1; 100; 1; 1]%R.

(** ** The user interface: src/audio/hooks.ts and src/ui/components *)

Module History.

(** The updater [usePitchHistory] passes to [setHistory], for an integer
    [maxLength]. *)
Definition appendPoint {A : Type} (maxLength : Z) (prev : list A) (point : A)
  : list A :=
  let newHistory := prev ++ [point] in
  if maxLength <? Z.of_nat (length newHistory)
  then sliceFrom newHistory (- maxLength)
  else newHistory.

(** The history after the points of a run of analysis results. *)
Definition collect {A : Type} (maxLength : Z) (points : list A) : list A :=
  fold_left (appendPoint maxLength) points [].

End History.

Module CentMeter.

(** The needle of CentMeter.tsx, in percent of the track. *)
Definition position (range cents : R) : R :=
  let clampedCents := Rmax (- range) (Rmin range cents) in
  (50 + clampedCents / range * 50)%R.

End CentMeter.

Module LevelMeter.

Definition minDb : R := (-60)%R.
Definition maxDb : R := 0%R.

(** The width of the fill of LevelMeter.tsx, in percent. *)
Definition percentage (rmsDb : R) : R :=
  Rmax 0 (Rmin 100 ((rmsDb - minDb) / (maxDb - minDb) * 100)).

(** The place of the threshold marker, in percent. *)
Definition thresholdPosition (threshold : R) : R :=
  ((threshold - minDb) / (maxDb - minDb) * 100)%R.

End LevelMeter.

(** * Properties *)

(** ** RingBuffer *)

Section RingBufferFacts.
Context {A : Type}.
Variables (zero nan : A).

Implicit Types (h : gmap loc (list A)) (rb : RingBuffer) (l hist : list A).

Lemma arr_set_same h a i x l :
  h !! a = Some l -> 0 <= i ->
  arr_set h a i x = <[a := <[Z.to_nat i := x]> l]> h.
Proof.
  intros Hl Hi. unfold arr_set.
  destruct (Z.leb_spec 0 i); [|lia].
  apply map_eq. intros b. destruct (decide (a = b)) as [->|Hne].
  - rewrite lookup_alter_eq, lookup_insert_eq, Hl. reflexivity.
  - rewrite lookup_alter_ne, lookup_insert_ne by done. reflexivity.
Qed.

Lemma arr_length_lookup h a l :
  h !! a = Some l -> arr_length h a = Z.of_nat (length l).
Proof. intros Hl. unfold arr_length, arr_contents. rewrite Hl. reflexivity. Qed.

Lemma mod_shift_distinct (k n c : Z) :
  0 < c -> k < n -> n < k + c -> k mod c <> n mod c.
Proof.
  intros Hc Hk Hn Heq.
  assert (H0 : (n - k) mod c = 0).
  { rewrite Zminus_mod, Heq, Z.sub_diag. apply Z.mod_0_l. lia. }
  rewrite Z.mod_small in H0 by lia. lia.
Qed.

(** Writing one sample keeps the representation, with the sample added
    to the history. *)
Lemma write_sample_repr (s : rb_state A) hist x :
  rb_repr s hist -> rb_repr (write_sample s x) (hist ++ [x]).
Proof.
  destruct s as [h rb]. intros (l & Hl & Hpos & Hwi & Hav & Hk).
  simpl in *.
  assert (Hc : 0 < Z.of_nat (length l)) by lia.
  assert (Hwr : 0 <= writeIndex rb < Z.of_nat (length l)).
  { rewrite Hwi. apply Z.mod_pos_bound. lia. }
  unfold write_sample.
  rewrite (arr_set_same h (buffer rb) (writeIndex rb) x l) by (done || lia).
  erewrite arr_length_lookup by apply lookup_insert_eq.
  rewrite length_insert.
  exists (<[Z.to_nat (writeIndex rb) := x]> l). simpl.
  rewrite length_insert, length_app. simpl.
  split; [apply lookup_insert_eq|].
  split; [done|].
  split.
  { rewrite Z.rem_mod_nonneg by lia. rewrite Hwi.
    rewrite Zplus_mod_idemp_l. f_equal. lia. }
  split.
  { rewrite Hav. destruct (Z.ltb_spec (Z.min (Z.of_nat (length hist))
                             (Z.of_nat (length l))) (Z.of_nat (length l))); lia. }
  intros k Hlo Hhi.
  destruct (decide (k = length hist)) as [->|Hne].
  - rewrite <- Hwi. rewrite list_lookup_insert_eq by lia.
    rewrite lookup_app_r by lia. rewrite Nat.sub_diag. reflexivity.
  - rewrite list_lookup_insert_ne.
    + rewrite lookup_app_l by lia. apply Hk; lia.
    + rewrite Hwi. intros Heq. apply Z2Nat.inj in Heq.
      * symmetry in Heq. revert Heq.
        apply mod_shift_distinct; lia.
      * apply Z.mod_pos_bound; lia.
      * apply Z.mod_pos_bound; lia.
Qed.

Lemma write_repr (s : rb_state A) hist data :
  rb_repr s hist -> rb_repr (write s data) (hist ++ data).
Proof.
  revert s hist. induction data as [|x data IH]; intros s hist Hs.
  - rewrite app_nil_r. exact Hs.
  - simpl. replace (hist ++ x :: data) with ((hist ++ [x]) ++ data)
      by (rewrite <- app_assoc; reflexivity).
    apply IH. apply write_sample_repr. exact Hs.
Qed.

(** A new ring buffer holds nothing, in a new array of the size
    asked for. *)
Lemma RingBuffer_new_repr h size :
  0 < size -> rb_repr (RingBuffer_new zero h size) [].
Proof.
  intros Hs. unfold RingBuffer_new, arr_new. simpl.
  exists (replicate (Z.to_nat size) zero). simpl.
  rewrite length_replicate.
  split; [apply lookup_insert_eq|].
  split; [lia|].
  split; [rewrite Z.mod_0_l by lia; reflexivity|].
  split; [lia|].
  intros k H1 H2. simpl in H2. lia.
Qed.

Lemma RingBuffer_new_fresh h size :
  fst (RingBuffer_new zero h size) !! buffer (snd (RingBuffer_new zero h size))
    = Some (replicate (Z.to_nat size) zero)
  /\ h !! buffer (snd (RingBuffer_new zero h size)) = None.
Proof.
  unfold RingBuffer_new, arr_new. simpl. split.
  - apply lookup_insert_eq.
  - apply not_elem_of_dom. apply is_fresh.
Qed.

Lemma write_sample_frame (s : rb_state A) x :
  buffer (snd (write_sample s x)) = buffer (snd s)
  /\ forall a, a <> buffer (snd s) ->
       fst (write_sample s x) !! a = fst s !! a.
Proof.
  destruct s as [h rb]. simpl. split; [reflexivity|].
  intros a Ha. unfold arr_set.
  destruct (0 <=? writeIndex rb); [|reflexivity].
  apply lookup_alter_ne. congruence.
Qed.

(** [write] touches no array but the ring's own. *)
Lemma write_frame (s : rb_state A) data :
  buffer (snd (write s data)) = buffer (snd s)
  /\ forall a, a <> buffer (snd s) -> fst (write s data) !! a = fst s !! a.
Proof.
  revert s. induction data as [|x data IH]; intros s; simpl.
  - split; reflexivity.
  - destruct (IH (write_sample s x)) as [Hb Hf].
    destruct (write_sample_frame s x) as [Hb1 Hf1].
    unfold write in *. split.
    + rewrite Hb. exact Hb1.
    + intros a Ha. rewrite Hf by congruence. apply Hf1. exact Ha.
Qed.

Lemma lastn_length n hist :
  (n <= length hist)%nat -> length (lastn n hist) = n.
Proof. intros Hn. unfold lastn. rewrite length_drop. lia. Qed.

Lemma lastn_lookup n hist i :
  (n <= length hist)%nat ->
  lastn n hist !! i = hist !! (length hist - n + i)%nat.
Proof. intros Hn. unfold lastn. apply lookup_drop. Qed.

Lemma insert_take_drop (new lo : list A) k v :
  new !! k = Some v -> (k < length lo)%nat ->
  <[k := v]> (take k new ++ drop k lo)
  = take (S k) new ++ drop (S k) lo.
Proof.
  intros Hv Hk.
  assert (Hlen : length (take k new) = k).
  { rewrite length_take. apply lookup_lt_Some in Hv. lia. }
  rewrite insert_app_r_alt by lia.
  rewrite Hlen, Nat.sub_diag.
  destruct (lookup_lt_is_Some_2 lo k Hk) as [y Hy].
  rewrite (drop_S lo y k Hy). simpl.
  rewrite (take_S_r new k v Hv), <- app_assoc. reflexivity.
Qed.

(** The index computed by [read] is that of the sample of the history
    it is after. *)
Lemma read_index (len cap m i : Z) :
  0 < cap -> 0 <= i < m -> m <= cap -> m <= len ->
  Z.rem (len mod cap - m + i + cap) cap = (len - m + i) mod cap.
Proof.
  intros Hc Hi Hm Hl.
  pose proof (Z.mod_pos_bound len cap Hc) as Hb.
  rewrite Z.rem_mod_nonneg by lia.
  replace (len mod cap - m + i + cap) with (len mod cap + (cap - m + i)) by lia.
  rewrite Zplus_mod_idemp_l.
  replace (len + (cap - m + i)) with (len - m + i + 1 * cap) by lia.
  apply Z_mod_plus_full.
Qed.

(** The loop of [read] after [k] turns: the first [k] places of the
    output hold the oldest [k] of the last [length lo] samples. *)
Lemma read_loop h rb hist output lo k :
  rb_repr (h, rb) hist ->
  output <> buffer rb ->
  h !! output = Some lo ->
  (length lo <= capacity (h, rb))%nat ->
  (length lo <= length hist)%nat ->
  (k <= length lo)%nat ->
  fold_left (read_sample nan rb output) (map Z.of_nat (seq 0 k)) h
  = <[output := take k (lastn (length lo) hist) ++ drop k lo]> h.
Proof.
  intros (l & Hl & Hpos & Hwi & Hav & Hk) Hne Hlo Hcap Hhist.
  simpl in *. unfold capacity, arr_contents in Hcap. simpl in Hcap.
  rewrite Hl in Hcap. simpl in Hcap.
  induction k as [|k IH]; intros Hle.
  - simpl. rewrite drop_0. symmetry. apply insert_id. exact Hlo.
  - rewrite seq_S, map_app, fold_left_app, IH by lia. simpl.
    set (new := lastn (length lo) hist).
    set (hk := <[output := take k new ++ drop k lo]> h).
    assert (Hnew : length new = length lo) by (apply lastn_length; lia).
    assert (Hout : hk !! output = Some (take k new ++ drop k lo))
      by apply lookup_insert_eq.
    assert (Hbuf : hk !! buffer rb = Some l)
      by (unfold hk; rewrite lookup_insert_ne by done; exact Hl).
    assert (Hlen : length (take k new ++ drop k lo) = length lo).
    { rewrite length_app, length_take, length_drop. lia. }
    unfold read_sample.
    rewrite (arr_length_lookup hk output _ Hout), Hlen.
    rewrite (arr_length_lookup hk (buffer rb) _ Hbuf).
    rewrite Hwi, read_index by lia.
    destruct (lookup_lt_is_Some_2 new k ltac:(lia)) as [v Hv].
    assert (Hget : arr_get nan hk (buffer rb)
              ((Z.of_nat (length hist) - Z.of_nat (length lo) + Z.of_nat k)
                 mod Z.of_nat (length l)) = v).
    { unfold arr_get, arr_contents. rewrite Hbuf. simpl.
      pose proof (Z.mod_pos_bound
        (Z.of_nat (length hist) - Z.of_nat (length lo) + Z.of_nat k)
        (Z.of_nat (length l)) ltac:(lia)) as Hb.
      destruct (Z.leb_spec 0 ((Z.of_nat (length hist) - Z.of_nat (length lo)
                   + Z.of_nat k) mod Z.of_nat (length l))); [|lia].
      replace (Z.of_nat (length hist) - Z.of_nat (length lo) + Z.of_nat k)
        with (Z.of_nat (length hist - length lo + k)) by lia.
      rewrite Hk by lia.
      unfold new in Hv. rewrite lastn_lookup in Hv by lia.
      rewrite Hv. reflexivity. }
    rewrite Hget.
    rewrite (arr_set_same hk output (Z.of_nat k) v _ Hout) by lia.
    rewrite Nat2Z.id. unfold hk. rewrite insert_insert_eq.
    rewrite insert_take_drop by (done || lia). reflexivity.
Qed.

(** What [read] does on a ring buffer that has received [hist], for an
    output array that is not the ring's own and is no longer than it. *)
Lemma read_repr h rb hist output lo :
  rb_repr (h, rb) hist ->
  output <> buffer rb ->
  h !! output = Some lo ->
  (length lo <= capacity (h, rb))%nat ->
  read nan (h, rb) output
  = if decide (length lo <= length hist)%nat
    then (true, (<[output := lastn (length lo) hist]> h, rb))
    else (false, (h, rb)).
Proof.
  intros Hrepr Hne Hlo Hcap.
  pose proof Hrepr as (l & Hl & Hpos & Hwi & Hav & Hk). simpl in *.
  unfold read. rewrite (arr_length_lookup h output lo Hlo), Hav.
  assert (Hc : capacity (h, rb) = length l).
  { unfold capacity, arr_contents. simpl. rewrite Hl. reflexivity. }
  rewrite Hc in Hcap.
  destruct (decide (length lo <= length hist)%nat) as [Hle|Hgt].
  - destruct (Z.ltb_spec (Z.min (Z.of_nat (length hist)) (Z.of_nat (length l)))
                         (Z.of_nat (length lo))); [lia|].
    unfold arr_contents at 1. rewrite Hlo. simpl.
    rewrite (read_loop h rb hist output lo (length lo)); try done.
    + rewrite drop_all, app_nil_r, firstn_all2; [reflexivity|].
      rewrite lastn_length; lia.
    + rewrite Hc. exact Hcap.
  - destruct (Z.ltb_spec (Z.min (Z.of_nat (length hist)) (Z.of_nat (length l)))
                         (Z.of_nat (length lo))); [reflexivity|lia].
Qed.

Lemma read_data_length h rb m : length (read_data nan h rb m) = m.
Proof. unfold read_data. rewrite !length_map, length_seq. reflexivity. Qed.

Lemma read_data_lookup h rb m k :
  (k < m)%nat ->
  read_data nan h rb m !! k
  = Some (arr_get nan h (buffer rb)
            (Z.rem (writeIndex rb - Z.of_nat m + Z.of_nat k
                    + arr_length h (buffer rb))
                   (arr_length h (buffer rb)))).
Proof.
  intros Hk. unfold read_data.
  rewrite !list_lookup_fmap, lookup_seq_lt by lia. reflexivity.
Qed.

(** The samples copied depend on the ring's array only. *)
Lemma read_data_ext h h' rb m :
  h' !! buffer rb = h !! buffer rb ->
  read_data nan h' rb m = read_data nan h rb m.
Proof.
  intros Heq. unfold read_data, arr_get, arr_length, arr_contents.
  rewrite Heq. reflexivity.
Qed.

(** The loop of [read] on any state, for an output that is not the
    ring's own array. *)
Lemma read_loop_data h rb output lo k :
  output <> buffer rb ->
  h !! output = Some lo ->
  (k <= length lo)%nat ->
  fold_left (read_sample nan rb output) (map Z.of_nat (seq 0 k)) h
  = <[output := take k (read_data nan h rb (length lo)) ++ drop k lo]> h.
Proof.
  intros Hne Hlo.
  induction k as [|k IH]; intros Hle.
  - simpl. rewrite drop_0. symmetry. apply insert_id. exact Hlo.
  - rewrite seq_S, map_app, fold_left_app, IH by lia. simpl.
    set (new := read_data nan h rb (length lo)).
    set (hk := <[output := take k new ++ drop k lo]> h).
    assert (Hnew : length new = length lo) by apply read_data_length.
    assert (Hout : hk !! output = Some (take k new ++ drop k lo))
      by apply lookup_insert_eq.
    assert (Hbuf : hk !! buffer rb = h !! buffer rb)
      by (unfold hk; rewrite lookup_insert_ne by done; reflexivity).
    assert (Hlen : length (take k new ++ drop k lo) = length lo).
    { rewrite length_app, length_take, length_drop. lia. }
    unfold read_sample.
    rewrite (arr_length_lookup hk output _ Hout), Hlen.
    assert (Hv : new !! k
      = Some (arr_get nan hk (buffer rb)
                (Z.rem (writeIndex rb - Z.of_nat (length lo) + Z.of_nat k
                        + arr_length hk (buffer rb))
                       (arr_length hk (buffer rb))))).
    { unfold new. rewrite read_data_lookup by lia.
      unfold arr_get, arr_length, arr_contents. rewrite Hbuf. reflexivity. }
    rewrite (arr_set_same hk output (Z.of_nat k) _ _ Hout) by lia.
    rewrite Nat2Z.id.
    rewrite (insert_take_drop new lo k _ Hv) by lia.
    unfold hk. rewrite insert_insert_eq. reflexivity.
Qed.

(** A successful [read] stores [read_data] in the output, changes
    nothing else and leaves [this] as it was. *)
Lemma read_success h rb output lo :
  output <> buffer rb ->
  h !! output = Some lo ->
  (available rb <? Z.of_nat (length lo)) = false ->
  read nan (h, rb) output
  = (true, (<[output := read_data nan h rb (length lo)]> h, rb)).
Proof.
  intros Hne Hlo Hav. unfold read.
  rewrite (arr_length_lookup h output lo Hlo), Hav.
  unfold arr_contents at 1. rewrite Hlo. simpl.
  rewrite (read_loop_data h rb output lo (length lo)) by (done || lia).
  rewrite drop_all, app_nil_r, firstn_all2; [reflexivity|].
  rewrite read_data_length. lia.
Qed.

Lemma write_sample_capacity (s : rb_state A) x :
  capacity (write_sample s x) = capacity s.
Proof.
  destruct s as [h rb]. unfold capacity. simpl.
  unfold arr_contents, arr_set.
  destruct (0 <=? writeIndex rb); [|reflexivity].
  rewrite lookup_alter_eq. destruct (h !! buffer rb); simpl; [|reflexivity].
  apply length_insert.
Qed.

Lemma write_capacity (s : rb_state A) data :
  capacity (write s data) = capacity s.
Proof.
  revert s. induction data as [|x data IH]; intros s; [reflexivity|].
  change (write s (x :: data)) with (write (write_sample s x) data).
  rewrite IH. apply write_sample_capacity.
Qed.

Lemma writes_repr (s : rb_state A) hist writes :
  rb_repr s hist -> rb_repr (writes_from s writes) (hist ++ concat writes).
Proof.
  revert s hist. induction writes as [|d ws IH]; intros s hist Hs; simpl.
  - rewrite app_nil_r. exact Hs.
  - rewrite app_assoc. apply IH. apply write_repr. exact Hs.
Qed.

Lemma writes_capacity (s : rb_state A) writes :
  capacity (writes_from s writes) = capacity s.
Proof.
  revert s. induction writes as [|d ws IH]; intros s; [reflexivity|].
  change (writes_from s (d :: ws)) with (writes_from (write s d) ws).
  rewrite IH. apply write_capacity.
Qed.

Lemma RingBuffer_new_capacity h size :
  capacity (RingBuffer_new zero h size) = Z.to_nat size.
Proof.
  unfold capacity, arr_contents.
  destruct (RingBuffer_new_fresh h size) as [-> _]. simpl.
  apply length_replicate.
Qed.

(** Claim C4.  A ring buffer of capacity [size] receives any sequence of
    calls of [write]; [output] is an array of [M] samples, [M] at most
    the capacity, other than the ring's own.  When at least [M] samples
    have been written in all, [read] returns [true] and leaves in
    [output] the last [M] samples written, oldest first, touching
    nothing else; when fewer were written it returns [false] and leaves
    the whole state, [output] included, as it was. *)
Theorem read_most_recent_samples
    h0 (size : Z) (writes : list (list A)) (output : loc) lo :
  0 < size ->
  fst (writes_from (RingBuffer_new zero h0 size) writes) !! output
    = Some lo ->
  output <> buffer (snd (writes_from (RingBuffer_new zero h0 size) writes)) ->
  Z.of_nat (length lo) <= size ->
  read nan (writes_from (RingBuffer_new zero h0 size) writes) output
  = if decide (length lo <= length (concat writes))%nat
    then (true,
          (<[output := lastn (length lo) (concat writes)]>
             (fst (writes_from (RingBuffer_new zero h0 size) writes)),
           snd (writes_from (RingBuffer_new zero h0 size) writes)))
    else (false, writes_from (RingBuffer_new zero h0 size) writes).
Proof.
  intros Hsize Hlo Hne Hm.
  pose proof (writes_repr _ [] writes (RingBuffer_new_repr h0 size Hsize))
    as Hrepr.
  pose proof (writes_capacity (RingBuffer_new zero h0 size) writes) as Hcap.
  rewrite RingBuffer_new_capacity in Hcap.
  destruct (writes_from (RingBuffer_new zero h0 size) writes) as [h rb].
  cbn [fst snd] in *.
  rewrite (read_repr h rb (concat writes) output lo); try done.
  rewrite Hcap. lia.
Qed.

(** Claim C10.  A successful [read] into an array other than the ring's
    own leaves [writeIndex] and [available] as they were, leaves the
    stored samples as they were and changes no array but the output; a
    second [read] of the same length, with no [write] in between,
    succeeds and returns the same samples. *)
Theorem read_non_destructive h rb output lo s1 :
  output <> buffer rb ->
  h !! output = Some lo ->
  read nan (h, rb) output = (true, s1) ->
  snd s1 = rb
  /\ fst s1 !! buffer rb = h !! buffer rb
  /\ (forall a, a <> output -> fst s1 !! a = h !! a)
  /\ forall output2 lo2,
       output2 <> buffer rb ->
       fst s1 !! output2 = Some lo2 ->
       length lo2 = length lo ->
       exists s2,
         read nan s1 output2 = (true, s2)
         /\ fst s2 !! output2 = fst s1 !! output
         /\ snd s2 = rb
         /\ fst s2 !! buffer rb = h !! buffer rb.
Proof.
  intros Hne Hlo Hread.
  assert (Hav : (available rb <? Z.of_nat (length lo)) = false).
  { unfold read in Hread. rewrite (arr_length_lookup h output lo Hlo) in Hread.
    destruct (available rb <? Z.of_nat (length lo)); [discriminate|reflexivity]. }
  rewrite (read_success h rb output lo Hne Hlo Hav) in Hread.
  injection Hread as <-. simpl.
  split; [reflexivity|].
  split; [apply lookup_insert_ne; exact Hne|].
  split; [intros a Ha; apply lookup_insert_ne; congruence|].
  intros output2 lo2 Hne2 Hlo2 Hlen.
  eexists. split.
  - apply (read_success _ rb output2 lo2 Hne2 Hlo2). rewrite Hlen. exact Hav.
  - simpl. rewrite !lookup_insert_eq. split; [|split].
    + rewrite Hlen. f_equal. apply read_data_ext.
      apply lookup_insert_ne. exact Hne.
    + reflexivity.
    + rewrite !lookup_insert_ne by done. reflexivity.
Qed.

End RingBufferFacts.

(** A ring of three places receives [1; 2] and then [3; 4]: a read of two
    samples gives [3; 4], a read of five is refused. *)
Lemma read_most_recent_samples_witness :
  let s := writes_from (RingBuffer_new 0 {[0%nat := [0; 0]]} 3)
                       [[1; 2]; [3; 4]] in
  read (-1) s 0%nat = (true, (<[0%nat := [3; 4]]> (fst s), snd s)).
Proof.
  apply (read_most_recent_samples 0 (-1) {[0%nat := [0; 0]]} 3
           [[1; 2]; [3; 4]] 0%nat [0; 0]).
  - lia.
  - vm_compute. reflexivity.
  - vm_compute. lia.
  - simpl. lia.
Defined.

Lemma read_non_destructive_witness :
  let h : gmap loc (list Z) := {[0%nat := [0; 0]; 1%nat := [7; 8; 9]]} in
  let rb := {| buffer := 1%nat; writeIndex := 0; available := 3 |} in
  let s1 := (<[0%nat := [8; 9]]> h, rb) in
  read (-1) (h, rb) 0%nat = (true, s1)
  /\ snd s1 = rb
  /\ fst s1 !! buffer rb = h !! buffer rb.
Proof.
  split; [vm_compute; reflexivity|].
  pose proof (read_non_destructive (-1)
                {[0%nat := [0; 0]; 1%nat := [7; 8; 9]]}
                {| buffer := 1%nat; writeIndex := 0; available := 3 |}
                0%nat [0; 0]
                (<[0%nat := [8; 9]]> {[0%nat := [0; 0]; 1%nat := [7; 8; 9]]},
                 {| buffer := 1%nat; writeIndex := 0; available := 3 |})
                ltac:(simpl; lia) ltac:(vm_compute; reflexivity)
                ltac:(vm_compute; reflexivity)) as (H1 & H2 & _).
  split; assumption.
Defined.

(** Why the output must not be the ring's own array: read into it, the
    ring [7; 8; 9] with the cursor at 1 is left holding [8; 9; 8]. *)
Lemma read_into_own_array :
  let h : gmap loc (list Z) := {[1%nat := [7; 8; 9]]} in
  let rb := {| buffer := 1%nat; writeIndex := 1; available := 3 |} in
  read (-1) (h, rb) 1%nat = (true, ({[1%nat := [8; 9; 8]]}, rb)).
Proof. vm_compute. reflexivity. Qed.

(** ** Comparisons and [Math] on real numbers *)

Lemma rlt_true a b : (a < b)%R -> rlt a b = true.
Proof. intros H. unfold rlt. destruct (Rlt_dec a b); [reflexivity|contradiction]. Qed.

Lemma rlt_false a b : (b <= a)%R -> rlt a b = false.
Proof. intros H. unfold rlt. destruct (Rlt_dec a b); [lra|reflexivity]. Qed.

Lemma rlt_spec a b : rlt a b = true <-> (a < b)%R.
Proof. unfold rlt. destruct (Rlt_dec a b); split; (done || lra). Qed.

Lemma rle_true a b : (a <= b)%R -> rle a b = true.
Proof. intros H. unfold rle. destruct (Rle_dec a b); [reflexivity|contradiction]. Qed.

Lemma rle_false a b : (b < a)%R -> rle a b = false.
Proof. intros H. unfold rle. destruct (Rle_dec a b); [lra|reflexivity]. Qed.

Lemma req_true a b : a = b -> req a b = true.
Proof. intros H. unfold req. destruct (Req_dec_T a b); [reflexivity|contradiction]. Qed.

Lemma req_false a b : a <> b -> req a b = false.
Proof. intros H. unfold req. destruct (Req_dec_T a b); [contradiction|reflexivity]. Qed.

Lemma ln_2_pos : (0 < ln 2)%R.
Proof. pose proof ln_lt_2. lra. Qed.

Lemma Math_log2_pow2 y : Math_log2 (Math_pow2 y) = y.
Proof.
  unfold Math_log2, Math_pow2. rewrite ln_Rpower.
  pose proof ln_2_pos. field. lra.
Qed.


Lemma Math_pow2_pos y : (0 < Math_pow2 y)%R.
Proof. unfold Math_pow2, Rpower. apply exp_pos. Qed.

Lemma Math_log2_inv x : (0 < x)%R -> Math_log2 (/ x) = (- Math_log2 x)%R.
Proof.
  intros Hx. unfold Math_log2. rewrite ln_Rinv by exact Hx.
  pose proof ln_2_pos. field. lra.
Qed.

Lemma Math_round_IZR z : Math_round (IZR z) = z.
Proof. unfold Math_round. apply Zfloor_eq. lra. Qed.

(** ** The conversions of pitch-utils.ts *)

(** On real numbers the note number comes back exactly. *)
Lemma frequencyToMidi_midiToFrequency m a :
  (0 < a)%R ->
  PitchUtils.frequencyToMidi (PitchUtils.midiToFrequency m a) a = m.
Proof.
  intros Ha. unfold PitchUtils.frequencyToMidi, PitchUtils.midiToFrequency.
  replace (a * Math_pow2 ((m - 69) / 12) / a)%R
    with (Math_pow2 ((m - 69) / 12)) by (field; lra).
  rewrite Math_log2_pow2. field.
Qed.









(** ** The oscillators and the Nyquist frequency *)

Lemma range_elem from to n : n ∈ range from to <-> from <= n < to.
Proof.
  unfold range. rewrite list_elem_of_fmap. split.
  - intros (i & -> & Hi). apply elem_of_seq in Hi. lia.
  - intros Hn. exists (Z.to_nat (n - from)). split; [lia|].
    apply elem_of_seq. lia.
Qed.

(** Property X24.
    The sawtooth of the first processor stays under the Nyquist
    frequency: its harmonic numbers stop at
    [floor(sampleRate / (2 * frequency))]. *)
Lemma yin_sawtooth_below_nyquist (o : Osc.Oscillator) n :
  (0 < Osc.frequency o)%R ->
  n ∈ YinOsc.sawtoothTerms o ->
  (Osc.harmonicFrequency o n <= Osc.nyquist o)%R.
Proof.
  intros Hf Hn. unfold YinOsc.sawtoothTerms in Hn.
  apply range_elem in Hn.
  assert (Hle : n <= YinOsc.maxHarmonic o) by lia.
  unfold YinOsc.maxHarmonic in Hle.
  pose proof (Zfloor_bound (Osc.oscSampleRate o / (2 * Osc.frequency o)))
    as [Hb _].
  apply IZR_le in Hle.
  unfold Osc.harmonicFrequency, Osc.nyquist.
  assert (Hn2 : (IZR n <= Osc.oscSampleRate o / (2 * Osc.frequency o))%R)
    by lra.
  apply (Rmult_le_compat_r (Osc.frequency o)) in Hn2; [|lra].
  replace (Osc.oscSampleRate o / (2 * Osc.frequency o) * Osc.frequency o)%R
    with (Osc.oscSampleRate o / 2)%R in Hn2 by (field; lra).
  exact Hn2.
Qed.

Lemma settledTriangle_smooth :
  Osc.frequency (Osc.smooth settledTriangle) = 2000%R
  /\ Osc.amplitude (Osc.smooth settledTriangle) = 0.5%R
  /\ Osc.oscSampleRate (Osc.smooth settledTriangle) = 48000%R
  /\ Osc.waveform (Osc.smooth settledTriangle) = Osc.triangle.
Proof. simpl. repeat split; lra. Qed.

(** Claim C3 fails on the triangle of the first processor.  For an
    oscillator settled on 2000 Hz at a sample rate of 48 kHz, [process]
    returns the sum computed by the triangle loop; the loop runs for
    [k = 0 .. 9], so the harmonic numbers [2k + 1] go up to 19, and the
    harmonic 19 has frequency 38000 Hz, above the Nyquist frequency
    24000 Hz. *)
Theorem triangle_harmonic_above_nyquist :
  let o := Osc.smooth settledTriangle in
  fst (YinOsc.process settledTriangle)
    = (YinOsc.triangleSample o * Osc.amplitude o)%R
  /\ YinOsc.maxHarmonic o = 12
  /\ YinOsc.harmonics o = [1; 3; 5; 7; 9; 11; 13; 15; 17; 19]
  /\ Osc.harmonicFrequency o 19 = 38000%R
  /\ Osc.nyquist o = 24000%R.
Proof.
  intros o.
  destruct settledTriangle_smooth as (Hf & Ha & Hsr & Hw). fold o in Hf, Ha, Hsr, Hw.
  assert (Hmax : YinOsc.maxHarmonic o = 12).
  { unfold YinOsc.maxHarmonic. rewrite Hf, Hsr. apply Zfloor_eq. lra. }
  split.
  { unfold YinOsc.process. fold o.
    rewrite Hf, Ha, Hw.
    rewrite rle_false, rlt_false by lra. reflexivity. }
  split; [exact Hmax|].
  split.
  { unfold YinOsc.harmonics, YinOsc.triangleTerms. rewrite Hw, Hmax.
    reflexivity. }
  unfold Osc.harmonicFrequency, Osc.nyquist. rewrite Hf, Hsr. split; lra.
Qed.

(** The sawtooth of the second processor always sums the harmonics 1 to
    8: at 4000 Hz and 48 kHz the eighth is at 32000 Hz, above the Nyquist
    frequency. *)
Lemma fft_sawtooth_above_nyquist :
  let o := Osc.smooth settledSawtoothFft in
  fst (FftOsc.process settledSawtoothFft)
    = (FftOsc.sawtoothSample o * Osc.amplitude o)%R
  /\ FftOsc.sawtoothTerms = [1; 2; 3; 4; 5; 6; 7; 8]
  /\ Osc.harmonicFrequency o 8 = 32000%R
  /\ Osc.nyquist o = 24000%R.
Proof.
  intros o.
  assert (Hf : Osc.frequency o = 4000%R) by (simpl; lra).
  assert (Ha : Osc.amplitude o = 0.5%R) by (simpl; lra).
  split.
  { unfold FftOsc.process. fold o. rewrite Hf, Ha.
    rewrite rle_false, rlt_false by lra. reflexivity. }
  split; [reflexivity|].
  unfold Osc.harmonicFrequency, Osc.nyquist. rewrite Hf. simpl. split; lra.
Qed.

(** ** Parabolic interpolation *)

(** Claim C5 fails on [parabolicInterpolation] of pitch-utils.ts.  On the
    magnitudes [3, 2, 0] and the bin 1 the denominator is -1, the offset
    is -1.5, of magnitude above one bin, and the function returns the bin
    moved by it, -0.5, not the bin 1. *)
Theorem pitch_utils_parabolic_unguarded :
  PitchUtils.parabolicInterpolation slopeMagnitudes 1 = Fin (-0.5)
  /\ PitchUtils.parabolicInterpolation slopeMagnitudes 1 <> Js.of_Z 1.
Proof.
  assert (H : PitchUtils.parabolicInterpolation slopeMagnitudes 1 = Fin (-0.5)).
  { unfold PitchUtils.parabolicInterpolation, slopeMagnitudes. simpl.
    replace (3 + - (2 * 2) + 0)%R with (-1)%R by lra.
    rewrite rlt_false by (unfold Rabs; destruct (Rcase_abs _); lra).
    rewrite req_false by lra. f_equal. lra. }
  split; [exact H|].
  rewrite H. unfold Js.of_Z. intros Heq. injection Heq as Heq. lra.
Qed.

Lemma signed_inf_2 : Js.signed_inf 2 true = PInf.
Proof.
  unfold Js.signed_inf. rewrite req_false, rlt_true by lra. reflexivity.
Qed.

Lemma Rabs_0_lt_1 : rlt (Rabs 0) 1 = true.
Proof. rewrite Rabs_R0. apply rlt_true. lra. Qed.

(** Property X23.
    [parabolicInterpolation] of the YIN detector does what claim C5 says:
    the lag is moved only when it is inside the array, the denominator
    is a number of magnitude at least [1e-10] and the adjustment has
    magnitude below 1; otherwise the lag comes back as it was. *)
Lemma yin_parabolic_guarded d yin tau :
  Yin.parabolicInterpolation d yin tau = Js.of_Z tau
  \/ exists denom adj : R,
       1 <= tau < Yin.halfBuffer d - 1
       /\ Js.sub (Js.sub (Js.mul (Fin 2) (Js.get yin tau))
                         (Js.get yin (tau + 1)))
                 (Js.get yin (tau - 1)) = Fin denom
       /\ (1e-10 <= Rabs denom)%R
       /\ Js.div (Js.sub (Js.get yin (tau + 1)) (Js.get yin (tau - 1)))
                 (Fin (2 * denom)) = Fin adj
       /\ (Rabs adj < 1)%R
       /\ Yin.parabolicInterpolation d yin tau = Fin (IZR tau + adj).
Proof.
  unfold Yin.parabolicInterpolation.
  destruct ((tau <? 1) || (Yin.halfBuffer d - 1 <=? tau)) eqn:Hg;
    [left; reflexivity|].
  apply orb_false_iff in Hg. destruct Hg as [Hg1 Hg2].
  apply Z.ltb_ge in Hg1. apply Z.leb_gt in Hg2.
  generalize (Js.get yin (tau - 1)) (Js.get yin tau) (Js.get yin (tau + 1)).
  intros s0 s1 s2.
  destruct (Js.sub (Js.sub (Js.mul (Fin 2) s1) s2) s0) as [dn| | |] eqn:Hd.
  - cbn [Js.abs Js.lt].
    destruct (rlt (Rabs dn) 1e-10) eqn:Hlt; [left; reflexivity|].
    assert (Hdn : (1e-10 <= Rabs dn)%R).
    { destruct (Rlt_le_dec (Rabs dn) 1e-10) as [H|H]; [|exact H].
      apply rlt_true in H. congruence. }
    assert (Hnz : (2 * dn)%R <> 0%R).
    { intros H0. assert (dn = 0%R) by lra. subst dn.
      rewrite Rabs_R0 in Hdn. lra. }
    cbn [Js.mul].
    destruct (Js.sub s2 s0) as [n| | |] eqn:Hn; cbn [Js.div].
    + rewrite (req_false _ _ Hnz). cbn [Js.abs Js.lt].
      destruct (rlt (Rabs (n / (2 * dn))) 1) eqn:Ha; [|left; reflexivity].
      right. exists dn, (n / (2 * dn))%R.
      apply rlt_spec in Ha.
      repeat split; try (lia || assumption || reflexivity).
      cbn [Js.div]. rewrite (req_false _ _ Hnz). reflexivity.
    + destruct (rlt (2 * dn) 0); left; reflexivity.
    + destruct (rlt (2 * dn) 0); left; reflexivity.
    + left; reflexivity.
  - cbn [Js.abs Js.lt Js.mul]. rewrite signed_inf_2.
    destruct (Js.sub s2 s0); cbn [Js.div Js.abs Js.lt]; try (left; reflexivity).
    rewrite Rabs_0_lt_1. left. unfold Js.of_Z. cbn [Js.add]. f_equal. ring.
  - cbn [Js.abs Js.lt Js.mul].
    assert (Hs : Js.signed_inf 2 false = NInf).
    { unfold Js.signed_inf. rewrite req_false, rlt_true by lra. reflexivity. }
    rewrite Hs.
    destruct (Js.sub s2 s0); cbn [Js.div Js.abs Js.lt]; try (left; reflexivity).
    rewrite Rabs_0_lt_1. left. unfold Js.of_Z. cbn [Js.add]. f_equal. ring.
  - cbn [Js.abs Js.lt Js.mul].
    destruct (Js.sub s2 s0); cbn [Js.div Js.abs Js.lt]; left; reflexivity.
Qed.

(** ** The YIN detector *)







(** ** Smoothing and decay *)

Section Decay.
Import Processor.

Lemma accepted_zero_frequency cfg conf : accepted cfg (Fin 0) conf = false.
Proof.
  unfold accepted, Js.gt. cbn [Js.lt]. rewrite rlt_false by lra. reflexivity.
Qed.

Lemma accepted_low_confidence cfg freq c :
  (c <= confidenceThreshold cfg * 0.5)%R -> accepted cfg freq (Fin c) = false.
Proof.
  intros Hc. unfold accepted, Js.gt. cbn [Js.lt].
  rewrite (rlt_false _ _ Hc). apply andb_false_r.
Qed.

Lemma accepted_nan_confidence cfg freq : accepted cfg freq NaN = false.
Proof. unfold accepted, Js.gt. cbn [Js.lt]. apply andb_false_r. Qed.

(** A rejected estimate takes either processor to the decay branch. *)
Lemma smoothing_rejected cfg v freq conf :
  accepted cfg freq conf = false ->
  smoothingYin cfg v freq conf = decay v
  /\ smoothingFft cfg v freq conf = decay v.
Proof.
  intros H. unfold smoothingYin, smoothingFft. rewrite H. split; reflexivity.
Qed.

Lemma decay_confidence v c :
  smoothedConfidences v !! 0%nat = Some (Fin c) ->
  smoothedConfidences (decay v) !! 0%nat = Some (Fin (c * 0.9)).
Proof.
  intros Hc. unfold decay, confidence0, setSmoothed. simpl.
  rewrite Hc. simpl.
  apply list_lookup_insert_eq. apply lookup_lt_Some in Hc. exact Hc.
Qed.

Lemma decay_pitch v c p :
  smoothedConfidences v !! 0%nat = Some (Fin c) ->
  smoothedPitches v !! 0%nat = Some p ->
  smoothedPitches (decay v) !! 0%nat
  = Some (if rlt (c * 0.9) 0.05 then Fin 0 else p).
Proof.
  intros Hc Hp. unfold decay, confidence0, pitch0, setSmoothed. simpl.
  rewrite Hc, Hp. simpl.
  apply list_lookup_insert_eq. apply lookup_lt_Some in Hp. exact Hp.
Qed.

Lemma rejectedHops_S n v : rejectedHops (S n) v = decay (rejectedHops n v).
Proof.
  revert v. induction n as [|n IH]; intros v; [reflexivity|].
  change (rejectedHops (S (S n)) v) with (rejectedHops (S n) (decay v)).
  rewrite IH. reflexivity.
Qed.

Lemma rejectedHops_confidence n v c :
  smoothedConfidences v !! 0%nat = Some (Fin c) ->
  smoothedConfidences (rejectedHops n v) !! 0%nat = Some (Fin (c * 0.9 ^ n)).
Proof.
  intros Hc. induction n as [|n IH].
  - simpl. rewrite Hc. do 2 f_equal. ring.
  - rewrite rejectedHops_S. rewrite (decay_confidence _ _ IH).
    do 2 f_equal. simpl. ring.
Qed.

Lemma rejectedHops_pitch_some n v p :
  smoothedPitches v !! 0%nat = Some p ->
  is_Some (smoothedPitches (rejectedHops n v) !! 0%nat).
Proof.
  intros Hp. apply lookup_lt_is_Some.
  assert (Hlen : length (smoothedPitches (rejectedHops n v))
                 = length (smoothedPitches v)).
  { induction n as [|n IH]; [reflexivity|].
    rewrite rejectedHops_S. unfold decay, setSmoothed. simpl.
    rewrite length_insert. exact IH. }
  rewrite Hlen. apply lookup_lt_Some in Hp. exact Hp.
Qed.

(** After [n >= 1] rejected hops the pitch is 0 as soon as the decayed
    confidence [c * 0.9^n] is under 0.05. *)
Lemma rejectedHops_silent n v c p :
  smoothedConfidences v !! 0%nat = Some (Fin c) ->
  smoothedPitches v !! 0%nat = Some p ->
  (c * 0.9 ^ S n < 0.05)%R ->
  pitch0 (rejectedHops (S n) v) = Fin 0.
Proof.
  intros Hc Hp Hlt.
  rewrite rejectedHops_S. unfold pitch0.
  destruct (rejectedHops_pitch_some n v p Hp) as [q Hq].
  rewrite (decay_pitch _ _ q (rejectedHops_confidence n v c Hc) Hq).
  simpl. rewrite rlt_true; [reflexivity|].
  simpl in Hlt. lra.
Qed.

(** The decayed confidence falls under 0.05 for good. *)
Lemma decayed_confidence_small c :
  exists N : nat, forall n : nat, (N <= n)%nat -> (c * 0.9 ^ n < 0.05)%R.
Proof.
  destruct (pow_lt_1_zero 0.9 ltac:(rewrite Rabs_pos_eq; lra)
              (0.05 / (Rabs c + 1))%R) as [N HN].
  { pose proof (Rabs_pos c). apply Rdiv_lt_0_compat; lra. }
  exists N. intros n Hn.
  pose proof (HN n Hn) as H.
  pose proof (Rabs_pos c) as Hc0.
  assert (Hpow : (0 <= 0.9 ^ n)%R) by (apply pow_le; lra).
  rewrite Rabs_pos_eq in H by exact Hpow.
  assert (Hc : (c <= Rabs c)%R) by apply Rle_abs.
  assert (H1 : (c * 0.9 ^ n <= Rabs c * 0.9 ^ n)%R)
    by (apply Rmult_le_compat_r; assumption).
  assert (H2 : (Rabs c * 0.9 ^ n <= Rabs c * (0.05 / (Rabs c + 1)))%R)
    by (apply Rmult_le_compat_l; lra).
  assert (H3 : (Rabs c * (0.05 / (Rabs c + 1)) < 0.05)%R).
  { unfold Rdiv. rewrite <- Rmult_assoc.
    apply (Rmult_lt_reg_r (Rabs c + 1)); [lra|].
    rewrite Rmult_assoc, Rinv_l by lra. lra. }
  lra.
Qed.

Lemma hops_rejected cfg v ests :
  Forall (fun e => accepted cfg (fst e) (snd e) = false) ests ->
  hops cfg v ests = rejectedHops (length ests) v.
Proof.
  intros H. revert v. induction H as [|e ests He _ IH]; intros v;
    [reflexivity|].
  unfold hops in *. simpl.
  destruct (smoothing_rejected cfg v (fst e) (snd e) He) as [-> _].
  apply IH.
Qed.

(** Claim C7.  The voice 0 holds a smoothed confidence [c] (a number) and
    a smoothed pitch [p].  A hop whose estimate is rejected (the test
    [frequency > 0 && confidence > confidenceThreshold * 0.5] fails)
    leaves the confidence [c * 0.9], and the pitch 0 when [c * 0.9 < 0.05],
    [p] otherwise.  There is a number [N] of hops such that after any run
    of at least [N] rejected hops in a row the smoothed pitch is 0: the
    voice becomes silent and stays silent while the run lasts. *)
Theorem rejected_hops_reach_silence cfg v c p :
  smoothedConfidences v !! 0%nat = Some (Fin c) ->
  smoothedPitches v !! 0%nat = Some p ->
  (forall freq conf,
      accepted cfg freq conf = false ->
      confidence0 (smoothingYin cfg v freq conf) = Fin (c * 0.9)
      /\ pitch0 (smoothingYin cfg v freq conf)
         = if rlt (c * 0.9) 0.05 then Fin 0 else p)
  /\ exists N : nat,
       forall ests : list (jsnum * jsnum),
         Forall (fun e => accepted cfg (fst e) (snd e) = false) ests ->
         (N <= length ests)%nat ->
         pitch0 (hops cfg v ests) = Fin 0.
Proof.
  intros Hc Hp. split.
  - intros freq conf Hrej.
    destruct (smoothing_rejected cfg v freq conf Hrej) as [-> _].
    unfold confidence0, pitch0.
    rewrite (decay_confidence v c Hc), (decay_pitch v c p Hc Hp).
    split; reflexivity.
  - destruct (decayed_confidence_small c) as [N HN].
    exists (S N). intros ests Hrej Hlen.
    rewrite (hops_rejected cfg v ests Hrej).
    destruct (length ests) as [|n]; [lia|].
    apply (rejectedHops_silent n v c p Hc Hp).
    apply HN. lia.
Qed.

End Decay.

Lemma rejected_hops_reach_silence_witness :
  Processor.confidence0
    (Processor.smoothingYin defaultConfig fadingVoice (Fin 0) (Fin 0))
  = Fin (0.05 * 0.9)
  /\ Processor.pitch0
       (Processor.smoothingYin defaultConfig fadingVoice (Fin 0) (Fin 0))
     = Fin 0.
Proof.
  destruct (rejected_hops_reach_silence defaultConfig fadingVoice 0.05
              (Fin 440) eq_refl eq_refl) as [H _].
  destruct (H (Fin 0) (Fin 0) (accepted_zero_frequency _ _)) as [H1 H2].
  split; [exact H1|].
  rewrite H2. rewrite rlt_true by lra. reflexivity.
Defined.

(** ** Quantize mode: the hysteresis on the committed note *)

Section Quantize.
Import Processor.

Lemma quantizeStep_note v t index :
  voiceIn v index ->
  (committed (quantizeStep v t index) index,
   hysteresis (quantizeStep v t index) index)
  = quantizeNote (committed v index, hysteresis v index) t
  /\ voiceIn (quantizeStep v t index) index.
Proof.
  intros [Hh Hl]. unfold quantizeStep, quantizeNote, committed, hysteresis,
    voiceIn.
  destruct (negb (t =? default 0 (lastQuantizedMidi v !! index))).
  - destruct (3 <=? default 0 (noteHysteresis v !! index) + 1); simpl;
      rewrite ?list_lookup_insert_eq, ?length_insert by assumption;
      simpl; (split; [reflexivity|split; assumption]).
  - simpl. rewrite ?list_lookup_insert_eq, ?length_insert by assumption.
    simpl. split; [reflexivity|split; assumption].
Qed.

Lemma runQuantize_noteRun targets v index :
  voiceIn v index ->
  runQuantize v index targets
  = noteRun (committed v index, hysteresis v index) targets.
Proof.
  revert v. induction targets as [|t rest IH]; intros v Hv; [reflexivity|].
  destruct (quantizeStep_note v t index Hv) as [Heq Hv'].
  change (runQuantize v index (t :: rest))
    with (committed (quantizeStep v t index) index
          :: runQuantize (quantizeStep v t index) index rest).
  change (noteRun (committed v index, hysteresis v index) (t :: rest))
    with (fst (quantizeNote (committed v index, hysteresis v index) t)
          :: noteRun (quantizeNote (committed v index, hysteresis v index) t)
                     rest).
  rewrite (IH _ Hv'), <- Heq. reflexivity.
Qed.

(** In quantize mode, on a pitch of positive frequency,
    [getSynthFrequency] runs the hysteresis step on the rounded note and
    returns the tempered frequency of the note committed after it. *)
Lemma getSynthFrequency_quantize cfg v pitch index :
  referenceMode cfg = quantize ->
  (0 < frequency pitch)%R ->
  getSynthFrequency cfg v pitch index
  = (tempered (a4Tuning cfg)
       (committed (quantizeStep v (proposal pitch) index) index),
     quantizeStep v (proposal pitch) index).
Proof.
  intros Hm Hf. unfold getSynthFrequency.
  rewrite rle_false by exact Hf. rewrite Hm. reflexivity.
Qed.

Lemma runSynth_quantize cfg pitches v index :
  referenceMode cfg = quantize ->
  Forall (fun p => (0 < frequency p)%R) pitches ->
  fst (runSynth cfg v index pitches)
  = map (fun n => (tempered (a4Tuning cfg) n, n))
        (runQuantize v index (map proposal pitches)).
Proof.
  intros Hm Hpos. revert v.
  induction Hpos as [|p rest Hp _ IH]; intros v; [reflexivity|].
  simpl. rewrite (getSynthFrequency_quantize cfg v p index Hm Hp).
  specialize (IH (quantizeStep v (proposal p) index)).
  destruct (runSynth cfg (quantizeStep v (proposal p) index) index rest)
    as [out v2].
  simpl in *. rewrite IH. reflexivity.
Qed.

Lemma noteAfter_snoc st targets t :
  noteAfter st (targets ++ [t]) = quantizeNote (noteAfter st targets) t.
Proof. unfold noteAfter. rewrite fold_left_app. reflexivity. Qed.

Lemma take_S_lookup (targets : list Z) k t :
  targets !! k = Some t -> take (S k) targets = take k targets ++ [t].
Proof. intros H. apply take_S_r. exact H. Qed.

(** The counter stays between 0 and 2 and counts hops just passed whose
    proposals differ from the committed note. *)
Lemma counter_invariant st targets n :
  snd st = 0 ->
  (n <= length targets)%nat ->
  0 <= snd (noteAfter st (take n targets)) <= 2
  /\ forall i : nat,
       Z.of_nat i < snd (noteAfter st (take n targets)) ->
       (i < n)%nat
       /\ exists t, targets !! (n - 1 - i)%nat = Some t
                    /\ t <> fst (noteAfter st (take n targets)).
Proof.
  intros H0. induction n as [|n IH]; intros Hn.
  - simpl. rewrite H0. split; [lia|]. intros i Hi. lia.
  - destruct (lookup_lt_is_Some_2 targets n ltac:(lia)) as [t Ht].
    rewrite (take_S_lookup targets n t Ht), noteAfter_snoc.
    destruct IH as [Hb Hi]; [lia|].
    destruct (noteAfter st (take n targets)) as [c h] eqn:Hst.
    cbn [fst snd] in *. unfold quantizeNote.
    destruct (Z.eqb_spec t c) as [->|Hne]; cbn [negb].
    + cbn [fst snd]. split; [lia|]. intros i Hlt. lia.
    + destruct (Z.leb_spec 3 (h + 1)); cbn [fst snd].
      * split; [lia|]. intros i Hlt. lia.
      * split; [lia|]. intros i Hlt.
        destruct i as [|i].
        -- split; [lia|]. exists t.
           replace (S n - 1 - 0)%nat with n by lia. split; [exact Ht|exact Hne].
        -- destruct (Hi i ltac:(lia)) as [Hin (t' & Ht' & Hne')].
           split; [lia|]. exists t'.
           replace (S n - 1 - S i)%nat with (n - 1 - i)%nat by lia.
           split; assumption.
Qed.

(** From a counter at 0, the committed note changes only at the third
    hop in a row whose proposal differs from it, and becomes the proposal
    of that hop. *)
Lemma commits_after_three_disagreements st targets :
  snd st = 0 -> commitsAfterThreeDisagreements st targets.
Proof.
  intros H0 k Hk Hchg.
  destruct (lookup_lt_is_Some_2 targets k Hk) as [t Ht].
  destruct (counter_invariant st targets k H0 ltac:(lia)) as [Hb Hi].
  rewrite (take_S_lookup targets k t Ht), noteAfter_snoc in Hchg |- *.
  destruct (noteAfter st (take k targets)) as [c h] eqn:Hst.
  cbn [fst snd] in *. unfold quantizeNote in Hchg |- *.
  destruct (Z.eqb_spec t c) as [->|Hne]; cbn [negb] in Hchg |- *;
    [cbn [fst] in Hchg; congruence|].
  destruct (Z.leb_spec 3 (h + 1)); cbn [fst] in Hchg |- *; [|congruence].
  destruct (Hi 1%nat ltac:(lia)) as [H1 (t1 & Ht1 & Hne1)].
  destruct (Hi 0%nat ltac:(lia)) as [_ (t0 & Ht0 & Hne0)].
  split; [lia|]. split; [exact Ht|].
  intros j Hj.
  destruct (decide (j = k)) as [->|Hjk]; [exists t; split; assumption|].
  destruct (decide (j = (k - 1)%nat)) as [->|Hjk1].
  - exists t0. replace (k - 1 - 0)%nat with (k - 1)%nat in Ht0 by lia.
    split; assumption.
  - exists t1. replace (k - 1 - 1)%nat with j in Ht1 by lia.
    split; assumption.
Qed.

End Quantize.

Lemma notePitch_proposal cfg n :
  (0 < Processor.a4Tuning cfg)%R ->
  Processor.proposal (notePitch cfg n) = n
  /\ (0 < Processor.frequency (notePitch cfg n))%R.
Proof.
  intros Ha. unfold Processor.proposal, notePitch, Processor.frequencyToPitchInfo,
    Processor.tempered. cbn [Processor.midiNote Processor.frequency].
  split.
  - replace (Processor.a4Tuning cfg * Math_pow2 ((IZR n - 69) / 12)
             / Processor.a4Tuning cfg)%R
      with (Math_pow2 ((IZR n - 69) / 12)) by (field; lra).
    rewrite Math_log2_pow2.
    replace (69 + 12 * ((IZR n - 69) / 12))%R with (IZR n) by field.
    apply Math_round_IZR.
  - apply Rmult_lt_0_compat; [exact Ha|apply Math_pow2_pos].
Qed.

(** One call in quantize mode: agreement resets the counter; a proposal
    that differs is counted, and commits when it is the third in a row. *)
Lemma quantize_step_cases cfg v pitch index :
  Processor.referenceMode cfg = Processor.quantize ->
  Processor.voiceIn v index ->
  (0 < Processor.frequency pitch)%R ->
  (Processor.committed
     (snd (Processor.getSynthFrequency cfg v pitch index)) index,
   Processor.hysteresis
     (snd (Processor.getSynthFrequency cfg v pitch index)) index)
  = if Processor.proposal pitch =? Processor.committed v index
    then (Processor.committed v index, 0)
    else if 3 <=? Processor.hysteresis v index + 1
         then (Processor.proposal pitch, 0)
         else (Processor.committed v index, Processor.hysteresis v index + 1).
Proof.
  intros Hm Hv Hf.
  rewrite (getSynthFrequency_quantize cfg v pitch index Hm Hf).
  cbn [snd].
  destruct (quantizeStep_note v (Processor.proposal pitch) index Hv) as [-> _].
  unfold Processor.quantizeNote.
  destruct (Processor.proposal pitch =? Processor.committed v index);
    reflexivity.
Qed.

(** Claim C1, as amended.  In quantize mode, for a voice with its entries
    in the arrays: on pitches of positive frequency [getSynthFrequency]
    returns at each hop [a4Tuning * 2^((n - 69) / 12)] for the note [n]
    committed after the hop, and the committed notes follow the
    hysteresis step on the rounded proposals; a proposal equal to the
    committed note resets the counter to 0, a different one is counted
    and, when it is the third counted in a row, is committed with the
    counter back at 0; starting with the counter
    at 0, the committed note changes only at a hop that is the third in
    a row whose proposal differs from the committed note, and becomes the
    proposal of that hop (the three proposals need not be the same
    note); from the committed note 60 the proposals 60, 61, 60, 61, 60
    never change it, and 60, 61, 61, 61, 60 change it to 61 at the third
    61 and not before. *)
Theorem quantize_hysteresis cfg v index :
  Processor.referenceMode cfg = Processor.quantize ->
  Processor.voiceIn v index ->
  (forall pitches,
      Forall (fun p => (0 < Processor.frequency p)%R) pitches ->
      fst (Processor.runSynth cfg v index pitches)
      = map (fun n =>
               ((Processor.a4Tuning cfg * Math_pow2 ((IZR n - 69) / 12))%R, n))
            (Processor.noteRun
               (Processor.committed v index, Processor.hysteresis v index)
               (map Processor.proposal pitches)))
  /\ (forall pitch,
        (0 < Processor.frequency pitch)%R ->
        (Processor.committed
           (snd (Processor.getSynthFrequency cfg v pitch index)) index,
         Processor.hysteresis
           (snd (Processor.getSynthFrequency cfg v pitch index)) index)
        = if Processor.proposal pitch =? Processor.committed v index
          then (Processor.committed v index, 0)
          else if 3 <=? Processor.hysteresis v index + 1
               then (Processor.proposal pitch, 0)
               else (Processor.committed v index,
                     Processor.hysteresis v index + 1))
  /\ (forall targets,
        Processor.hysteresis v index = 0 ->
        Processor.commitsAfterThreeDisagreements
          (Processor.committed v index, Processor.hysteresis v index) targets)
  /\ (Processor.committed v index = 60 ->
      Processor.noteRun
        (Processor.committed v index, Processor.hysteresis v index)
        [60; 61; 60; 61; 60] = [60; 60; 60; 60; 60]
      /\ Processor.noteRun
           (Processor.committed v index, Processor.hysteresis v index)
           [60; 61; 61; 61; 60] = [60; 60; 60; 61; 61]).
Proof.
  intros Hm Hv. split; [|split; [|split]].
  - intros pitches Hpos.
    rewrite (runSynth_quantize cfg pitches v index Hm Hpos).
    rewrite (runQuantize_noteRun _ v index Hv). reflexivity.
  - intros pitch Hf. apply quantize_step_cases; assumption.
  - intros targets H0. apply commits_after_three_disagreements. exact H0.
  - intros ->. split; reflexivity.
Qed.

Lemma quantize_hysteresis_witness :
  map snd (fst (Processor.runSynth defaultConfig committed60 0
                  (map (notePitch defaultConfig) [60; 61; 60; 61; 60])))
  = [60; 60; 60; 60; 60]
  /\ map snd (fst (Processor.runSynth defaultConfig committed60 0
                     (map (notePitch defaultConfig) [60; 61; 61; 61; 60])))
     = [60; 60; 60; 61; 61].
Proof.
  assert (Ha : (0 < Processor.a4Tuning defaultConfig)%R) by (simpl; lra).
  assert (Hv : Processor.voiceIn committed60 0)
    by (unfold Processor.voiceIn; simpl; lia).
  destruct (quantize_hysteresis defaultConfig committed60 0 eq_refl Hv)
    as (Hrun & _ & _ & Hseq).
  destruct (Hseq eq_refl) as [H1 H2].
  assert (Hpos : forall l,
    Forall (fun p => (0 < Processor.frequency p)%R)
           (map (notePitch defaultConfig) l)).
  { intros l. apply Forall_fmap. apply Forall_forall. intros n _.
    apply (notePitch_proposal defaultConfig n Ha). }
  assert (Hprop : forall l,
    map Processor.proposal (map (notePitch defaultConfig) l) = l).
  { induction l as [|n l IH]; [reflexivity|]. simpl.
    rewrite IH. f_equal. apply (notePitch_proposal defaultConfig n Ha). }
  rewrite !Hrun by apply Hpos. rewrite !Hprop, H1, H2.
  split; reflexivity.
Defined.

(** Claim C1 as stated fails: from the committed note 60 the proposals
    61, 62, 63 commit the note 63 at the third hop, where it is proposed
    for the first time. *)
Lemma quantize_commit_counterexample :
  Processor.runQuantize committed60 0 [61; 62; 63] = [60; 60; 63]
  /\ ~ Processor.commitsOnlyRepeatedNote
         (Processor.committed committed60 0,
          Processor.hysteresis committed60 0) [61; 62; 63].
Proof.
  split; [reflexivity|].
  intros H. destruct (H 2%nat) as [_ Hj].
  - simpl. lia.
  - vm_compute. discriminate.
  - specialize (Hj 1%nat ltac:(lia)). vm_compute in Hj. discriminate.
Qed.

(** ** Scale mode *)

Lemma includes_spec l x : PitchUtils.includes l x = true <-> x ∈ l.
Proof.
  unfold PitchUtils.includes. rewrite existsb_exists. split.
  - intros (y & Hy & Heq). apply Z.eqb_eq in Heq. subst y.
    apply list_elem_of_In. exact Hy.
  - intros Hx. exists x. split; [apply list_elem_of_In; exact Hx|].
    apply Z.eqb_refl.
Qed.

(** A note of the scale is kept. *)
Lemma snap_in_scale midi scaleRoot scaleIntervals :
  PitchUtils.noteClassOf midi scaleRoot ∈ scaleIntervals ->
  PitchUtils.snapMidi midi scaleRoot scaleIntervals = midi
  /\ Processor.scaleMidi
       {| Processor.root := scaleRoot; Processor.intervals := scaleIntervals |}
       midi = midi.
Proof.
  intros Hin. apply includes_spec in Hin.
  unfold PitchUtils.snapMidi, Processor.scaleMidi. simpl.
  rewrite Hin. split; reflexivity.
Qed.

(** The search of the processors: among intervals at distance below 12,
    the result is the first one at the least circular distance. *)
Lemma nearest_first_minimum noteClass l :
  l <> [] ->
  (forall i, i ∈ l -> PitchUtils.circularDistance noteClass i < 12) ->
  exists pre post,
    l = pre ++ Processor.nearestScaleInterval noteClass l :: post
    /\ (forall i, i ∈ pre ->
          PitchUtils.circularDistance noteClass
            (Processor.nearestScaleInterval noteClass l)
          < PitchUtils.circularDistance noteClass i)
    /\ (forall i, i ∈ post ->
          PitchUtils.circularDistance noteClass
            (Processor.nearestScaleInterval noteClass l)
          <= PitchUtils.circularDistance noteClass i).
Proof.
  unfold Processor.nearestScaleInterval.
  induction l as [|x l IH] using rev_ind; [congruence|].
  intros _ Hlt. rewrite fold_left_app. simpl.
  destruct l as [|y l'].
  - simpl.
    rewrite (proj2 (Z.ltb_lt _ _) (Hlt x ltac:(apply list_elem_of_here))).
    simpl.
    exists [], []. split; [reflexivity|].
    split; intros i Hi; inversion Hi.
  - destruct IH as (pre & post & Heq & Hpre & Hpost);
      [congruence
      |intros i Hi; apply Hlt; apply elem_of_app; left; exact Hi|].
    set (st := fold_left (Processor.nearestStep noteClass) (y :: l') (12, 0))
      in *.
    assert (Hmin : fst st = PitchUtils.circularDistance noteClass (snd st)).
    { clear -Hlt. unfold st.
      assert (Hgen : forall l0 st0,
        (fst st0 = PitchUtils.circularDistance noteClass (snd st0)
         \/ (st0 = (12, 0) /\ l0 <> [] /\
             forall i, i ∈ l0 -> PitchUtils.circularDistance noteClass i < 12)) ->
        fst (fold_left (Processor.nearestStep noteClass) l0 st0)
        = PitchUtils.circularDistance noteClass
            (snd (fold_left (Processor.nearestStep noteClass) l0 st0))).
      { induction l0 as [|z l0 IH0]; intros [m r] Hst.
        - destruct Hst as [H|(_ & H & _)]; [exact H|congruence].
        - simpl. apply IH0. left.
          destruct Hst as [H|(Hinit & _ & Hall)].
          + simpl in H. destruct (Z.ltb_spec
              (PitchUtils.circularDistance noteClass z) m); simpl; congruence.
          + injection Hinit as -> ->.
            rewrite (proj2 (Z.ltb_lt _ _)
                       (Hall z ltac:(apply list_elem_of_here))).
            reflexivity. }
      apply Hgen. right. split; [reflexivity|]. split; [congruence|].
      intros i Hi. apply Hlt. apply elem_of_app. left. exact Hi. }
    destruct st as [m r] eqn:Hst.
    cbn [fst snd] in *. subst m.
    assert (Hstep :
      Processor.nearestStep noteClass
        (PitchUtils.circularDistance noteClass r, r) x
      = if PitchUtils.circularDistance noteClass x
           <? PitchUtils.circularDistance noteClass r
        then (PitchUtils.circularDistance noteClass x, x)
        else (PitchUtils.circularDistance noteClass r, r)) by reflexivity.
    rewrite Hstep. clear Hstep.
    destruct (Z.ltb_spec (PitchUtils.circularDistance noteClass x)
                         (PitchUtils.circularDistance noteClass r)).
    + cbn [snd]. exists (y :: l'), []. split; [reflexivity|].
      split; [|intros i Hi; inversion Hi].
      intros i Hi. rewrite Heq in Hi.
      apply elem_of_app in Hi. destruct Hi as [Hi|Hi].
      * specialize (Hpre i Hi). lia.
      * apply elem_of_cons in Hi. destruct Hi as [->|Hi]; [lia|].
        specialize (Hpost i Hi). lia.
    + cbn [snd]. exists pre, (post ++ [x]). split.
      * rewrite Heq. rewrite <- app_assoc. reflexivity.
      * split; [exact Hpre|].
        intros i Hi. apply elem_of_app in Hi. destruct Hi as [Hi|Hi].
        -- apply Hpost. exact Hi.
        -- apply list_elem_of_singleton in Hi. subst i. lia.
Qed.

Lemma circularDistance_bound noteClass interval :
  0 <= noteClass < 12 -> 0 <= interval < 12 ->
  0 <= PitchUtils.circularDistance noteClass interval <= 6.
Proof. unfold PitchUtils.circularDistance. lia. Qed.

Lemma noteClassOf_range midi scaleRoot :
  0 <= midi -> 0 <= scaleRoot < 12 ->
  0 <= PitchUtils.noteClassOf midi scaleRoot < 12
  /\ PitchUtils.noteClassOf midi scaleRoot = (midi - scaleRoot) mod 12.
Proof.
  intros Hm Hr. unfold PitchUtils.noteClassOf.
  rewrite (Z.rem_mod_nonneg midi 12) by lia.
  pose proof (Z.mod_pos_bound midi 12 ltac:(lia)) as Hb.
  rewrite Z.rem_mod_nonneg by lia.
  split; [apply Z.mod_pos_bound; lia|].
  replace (midi mod 12 - scaleRoot + 12) with (midi mod 12 + (12 - scaleRoot))
    by lia.
  rewrite Zplus_mod_idemp_l.
  replace (midi + (12 - scaleRoot)) with (midi - scaleRoot + 1 * 12) by lia.
  apply Z_mod_plus_full.
Qed.

(** The search of pitch-utils.ts, which starts from [Infinity], and that
    of the processors, which starts from 12, agree when the distances
    are below 12. *)
Lemma nearest_searches_agree noteClass l :
  (forall i, i ∈ l -> PitchUtils.circularDistance noteClass i < 12) ->
  l <> [] ->
  PitchUtils.nearestScaleInterval noteClass l
  = Processor.nearestScaleInterval noteClass l.
Proof.
  intros Hlt Hne.
  unfold PitchUtils.nearestScaleInterval, Processor.nearestScaleInterval.
  destruct l as [|x l]; [congruence|]. simpl.
  rewrite (proj2 (Z.ltb_lt _ _) (Hlt x ltac:(apply list_elem_of_here))).
  generalize (PitchUtils.circularDistance noteClass x) as m.
  generalize x as r. clear.
  induction l as [|y l IH]; intros r m; [reflexivity|].
  simpl. destruct (PitchUtils.circularDistance noteClass y <? m); apply IH.
Qed.

(** In C major a note of class 1 (C sharp) goes to the C below it, class
    0, and not to the D above, both at distance 1: 0 comes first among
    the intervals. *)
Lemma c_sharp_snaps_to_c midi :
  Z.rem midi 12 = 1 ->
  PitchUtils.noteClassOf midi 0 = 1
  /\ PitchUtils.circularDistance 1 0 = 1
  /\ PitchUtils.circularDistance 1 2 = 1
  /\ Processor.scaleMidi cMajor midi = midi - 1
  /\ PitchUtils.snapMidi midi 0 majorIntervals = midi - 1
  /\ PitchUtils.noteClassOf (midi - 1) 0 = 0.
Proof.
  intros Hrem.
  assert (Hm : midi = 12 * (midi / 12) + 1).
  { assert (H0 : 0 <= midi).
    { pose proof (Z.rem_sign_mul midi 12 ltac:(lia)) as Hs.
      rewrite Hrem in Hs. lia. }
    rewrite Z.rem_mod_nonneg in Hrem by lia.
    pose proof (Z.div_mod midi 12 ltac:(lia)). lia. }
  assert (Hc : PitchUtils.noteClassOf midi 0 = 1).
  { unfold PitchUtils.noteClassOf. rewrite Hrem. reflexivity. }
  split; [exact Hc|]. split; [reflexivity|]. split; [reflexivity|].
  assert (Hs : Processor.scaleMidi cMajor midi = midi - 1).
  { unfold Processor.scaleMidi. simpl. rewrite Hc. simpl.
    change (Processor.nearestScaleInterval 1 majorIntervals) with 0. lia. }
  split; [exact Hs|]. split.
  - unfold PitchUtils.snapMidi. rewrite Hc. simpl.
    change (PitchUtils.nearestScaleInterval 1 majorIntervals) with 0. lia.
  - unfold PitchUtils.noteClassOf.
    replace (midi - 1) with (12 * (midi / 12)) by lia.
    rewrite Z.mul_comm, Z.rem_mul by lia. reflexivity.
Qed.

(** The rebuilt note stays in the octave of the detected note when the
    root plus the interval is below 12. *)
Lemma scale_same_octave_small_root sc midi :
  0 <= Processor.root sc
       + Processor.nearestScaleInterval
           (PitchUtils.noteClassOf midi (Processor.root sc))
           (Processor.intervals sc) < 12 ->
  Processor.scaleMidi sc midi / 12 = midi / 12.
Proof.
  intros Hb. unfold Processor.scaleMidi.
  destruct (PitchUtils.includes _ _); [reflexivity|].
  rewrite <- Z.add_assoc, Z.add_comm, Z.div_add by lia.
  rewrite Z.div_small by lia. reflexivity.
Qed.

(** Claim C2 fails on the octave.  In G major (root 7) the note 61, a C
    sharp of class 6 above the root, is not in the scale; the nearest
    intervals are 5 and 7, both at distance 1, and 5 comes first; the
    note rebuilt is [5 * 12 + 7 + 5 = 72], in the octave above that of 61
    and 11 semitones away from it.  [snapToScale] and the scale case of
    [getSynthFrequency] both return the frequency of the note 72. *)
Theorem scale_snap_leaves_octave :
  PitchUtils.noteClassOf 61 7 = 6
  /\ Processor.nearestScaleInterval 6 majorIntervals = 5
  /\ PitchUtils.snapMidi 61 7 majorIntervals = 72
  /\ Processor.scaleMidi gMajor 61 = 72
  /\ 72 / 12 <> 61 / 12
  /\ PitchUtils.snapToScale (PitchUtils.midiToFrequency 61 440) 7
       majorIntervals 440
     = PitchUtils.midiToFrequency 72 440.
Proof.
  split; [reflexivity|]. split; [reflexivity|]. split; [reflexivity|].
  split; [reflexivity|]. split; [vm_compute; discriminate|].
  unfold PitchUtils.snapToScale.
  rewrite frequencyToMidi_midiToFrequency by lra.
  rewrite Math_round_IZR. reflexivity.
Qed.

(** The scale case of [getSynthFrequency]: no hysteresis, the arrays are
    left as they were. *)
Lemma getSynthFrequency_scale cfg sc v pitch index :
  Processor.referenceMode cfg = Processor.scale ->
  Processor.scaleConfig cfg = Some sc ->
  (0 < Processor.frequency pitch)%R ->
  Processor.getSynthFrequency cfg v pitch index
  = (Processor.tempered (Processor.a4Tuning cfg)
       (Processor.scaleMidi sc (Processor.proposal pitch)), v).
Proof.
  intros Hm Hs Hf. unfold Processor.getSynthFrequency.
  rewrite rle_false by exact Hf. rewrite Hm, Hs. reflexivity.
Qed.

(** ** The YIN detector on a silent window

    On digital silence every difference is 0, the running sum is 0, and
    the normalized values are [0 * (tau / 0)], that is [NaN]: no lag is
    under the threshold, the fallback keeps [minPeriod], and the
    confidence is [NaN]. *)

Lemma get_replicate_zero n i :
  0 <= i < Z.of_nat n -> Js.get (replicate n (Fin 0)) i = Fin 0.
Proof.
  intros Hi. unfold Js.get.
  destruct (Z.leb_spec 0 i); [|lia].
  rewrite lookup_replicate_2 by lia. reflexivity.
Qed.

Lemma difference_silent d n tau :
  0 <= tau < Yin.halfBuffer d ->
  2 * Yin.halfBuffer d <= Z.of_nat n ->
  Yin.difference d (replicate n (Fin 0)) tau = Fin 0.
Proof.
  intros Htau Hn. unfold Yin.difference.
  assert (Hgen : forall l a,
    (forall i, i ∈ l -> 0 <= i < Yin.halfBuffer d) ->
    fold_left
      (fun acc i =>
         let delta := Js.sub (Js.get (replicate n (Fin 0)) i)
                             (Js.get (replicate n (Fin 0)) (i + tau)) in
         Js.add acc (Js.mul delta delta)) l (Fin a) = Fin a).
  { induction l as [|i l IH]; intros a Hl; [reflexivity|].
    simpl. pose proof (Hl i ltac:(apply list_elem_of_here)) as Hi.
    rewrite !get_replicate_zero by lia. simpl.
    replace (a + (0 + - 0) * (0 + - 0))%R with a by ring.
    apply IH. intros j Hj. apply Hl. apply list_elem_of_further. exact Hj. }
  apply Hgen. intros i Hi. apply range_elem in Hi. lia.
Qed.

Lemma normalize_silent diffs tau s :
  1 <= tau -> s = 0%R ->
  Forall (fun y => y = Fin 0) diffs ->
  Forall (fun y => y = NaN) (Yin.normalize diffs tau (Fin s)).
Proof.
  intros Htau Hs Hall. revert tau s Htau Hs.
  induction Hall as [|y diffs Hy _ IH]; intros tau s Htau Hs; simpl;
    [constructor|].
  subst y s. simpl. constructor.
  - rewrite req_true by lra. unfold Js.signed_inf, Js.of_Z.
    assert (Hpos : (0 < IZR tau)%R) by (apply IZR_lt; lia).
    rewrite req_false, rlt_true by lra. simpl.
    rewrite req_true by reflexivity. reflexivity.
  - apply IH; [lia|lra].
Qed.

Lemma get_all_nan l i : Forall (fun y => y = NaN) l -> Js.get l i = NaN.
Proof.
  intros Hall. unfold Js.get. destruct (0 <=? i); [|reflexivity].
  destruct (l !! Z.to_nat i) as [y|] eqn:Hy; [|reflexivity].
  simpl. eapply Forall_lookup_1 in Hall; [|exact Hy]. exact Hall.
Qed.

(** On silence [yinBuffer] is [NaN] from the lag 1 on. *)
Lemma computeDifference_silent d n tau :
  2 * Yin.halfBuffer d <= Z.of_nat n ->
  1 <= tau ->
  Js.get (Yin.computeDifference d (replicate n (Fin 0))) tau = NaN.
Proof.
  intros Hn Htau. unfold Yin.computeDifference.
  assert (Hall : Forall (fun y => y = Fin 0)
            (map (Yin.difference d (replicate n (Fin 0)))
                 (range 0 (Yin.halfBuffer d)))).
  { apply Forall_fmap, Forall_forall. intros t Ht. simpl.
    apply range_elem in Ht. apply difference_silent; lia. }
  destruct (map _ _) as [|y rest]; [unfold Js.get; destruct (0 <=? tau); reflexivity|].
  apply Forall_cons in Hall. destruct Hall as [_ Hrest].
  pose proof (normalize_silent rest 1 0 ltac:(lia) eq_refl Hrest) as Hnan.
  unfold Js.get. destruct (Z.leb_spec 0 tau); [|lia].
  replace (Z.to_nat tau) with (S (Z.to_nat (tau - 1))) by lia. simpl.
  pose proof (get_all_nan (Yin.normalize rest 1 (Fin 0)) (tau - 1) Hnan) as Hg.
  unfold Js.get in Hg. destruct (Z.leb_spec 0 (tau - 1)); [exact Hg|lia].
Qed.

Lemma lt_nan_r x : Js.lt x NaN = false.
Proof. destruct x; reflexivity. Qed.

Lemma firstBelow_nan d yin fuel tau :
  (forall t, tau <= t -> Js.get yin t = NaN) ->
  Yin.firstBelow d yin fuel tau = None.
Proof.
  revert tau. induction fuel as [|fuel IH]; intros tau Hnan; [reflexivity|].
  simpl. rewrite (Hnan tau) by lia. simpl.
  apply IH. intros t Ht. apply Hnan. lia.
Qed.

Lemma globalMinimum_nan d yin :
  Js.get yin (Yin.minPeriod d) = NaN ->
  Yin.globalMinimum d yin = (Yin.minPeriod d, NaN).
Proof.
  intros Hnan. unfold Yin.globalMinimum. rewrite Hnan.
  generalize (range (Yin.minPeriod d + 1) (Yin.maxPeriod d)).
  induction l as [|t l IH]; [reflexivity|].
  simpl. rewrite lt_nan_r. exact IH.
Qed.

(** [detect] on a silent window, for a detector whose shortest lag is at
    least 1: the lag is [minPeriod], unrefined, and the confidence is
    [NaN], not a number of [0, 1]. *)
Lemma detect_silent d n :
  2 * Yin.halfBuffer d <= Z.of_nat n ->
  1 <= Yin.minPeriod d ->
  Yin.detect d (replicate n (Fin 0))
  = if Yin.outOfBand (Fin (Yin.sampleRate d / IZR (Yin.minPeriod d)))
    then Yin.noDetection
    else {| Yin.frequency := Fin (Yin.sampleRate d / IZR (Yin.minPeriod d));
            Yin.confidence := NaN |}.
Proof.
  intros Hn Hmin. unfold Yin.detect.
  set (yin := Yin.computeDifference d (replicate n (Fin 0))).
  assert (Hnan : forall t, 1 <= t -> Js.get yin t = NaN)
    by (intros t Ht; apply computeDifference_silent; assumption).
  unfold Yin.absoluteThreshold.
  rewrite firstBelow_nan by (intros t Ht; apply Hnan; lia).
  rewrite globalMinimum_nan by (apply Hnan; lia).
  cbn [Js.sub Js.neg Js.add].
  assert (Hpar : Yin.parabolicInterpolation d yin (Yin.minPeriod d)
                 = Js.of_Z (Yin.minPeriod d)).
  { unfold Yin.parabolicInterpolation.
    destruct (_ || _); [reflexivity|].
    rewrite !Hnan by lia. reflexivity. }
  rewrite Hpar. unfold Js.of_Z. cbn [Js.div].
  assert (Hnz : IZR (Yin.minPeriod d) <> 0%R).
  { apply not_0_IZR. lia. }
  rewrite (req_false _ _ Hnz). reflexivity.
Qed.

Lemma detector48k_fields :
  Yin.halfBuffer detector48k = 512
  /\ Yin.minPeriod detector48k = 24
  /\ Yin.maxPeriod detector48k = 320
  /\ Yin.sampleRate detector48k = 48000%R.
Proof.
  unfold detector48k, Yin.YINDetector_new, Yin.BUFFER_SIZE,
    Yin.MAX_FREQUENCY, Yin.MIN_FREQUENCY. simpl.
  assert (H1 : Zfloor (48000 / 2000) = 24) by (apply Zfloor_eq; lra).
  assert (H2 : Zfloor (48000 / 150) = 320) by (apply Zfloor_eq; lra).
  rewrite H1, H2. repeat split.
Qed.

(** The first processor's detector on a window of silence at 48 kHz
    reports 2000 Hz with confidence [NaN]. *)
Lemma detect_silence_48k :
  Yin.detect detector48k silentWindow
  = {| Yin.frequency := Fin 2000; Yin.confidence := NaN |}.
Proof.
  destruct detector48k_fields as (Hh & Hm & _ & Hsr).
  unfold silentWindow. rewrite detect_silent.
  - rewrite Hm, Hsr.
    replace (48000 / 24)%R with 2000%R by lra.
    unfold Yin.outOfBand, Js.gt, Yin.MIN_FREQUENCY, Yin.MAX_FREQUENCY.
    cbn [Js.lt Js.isFinite]. rewrite !rlt_false by lra. reflexivity.
  - rewrite Hh. unfold Yin.BUFFER_SIZE. lia.
  - rewrite Hm. lia.
Qed.

(** ** The smoothed confidence stays a number

    The estimates of [detect] carry a confidence that is a number or
    [NaN]; with such estimates a smoothed confidence that is a number
    stays one, which is what the decay needs to reach its threshold. *)
Lemma smoothing_confidence_finite cfg v c freq conf :
  Processor.smoothedConfidences v !! 0%nat = Some (Fin c) ->
  conf = NaN \/ (exists q, conf = Fin q) ->
  exists c',
    Processor.smoothedConfidences (Processor.smoothingYin cfg v freq conf)
      !! 0%nat = Some (Fin c').
Proof.
  intros Hc Hconf.
  assert (Hlen : (0 < length (Processor.smoothedConfidences v))%nat)
    by (apply lookup_lt_Some in Hc; exact Hc).
  unfold Processor.smoothingYin.
  destruct (Processor.accepted cfg freq conf) eqn:Hacc.
  - destruct Hconf as [->|[q ->]].
    + rewrite accepted_nan_confidence in Hacc. discriminate.
    + destruct (Processor.nearPrevious freq (Processor.pitch0 v)).
      * unfold Processor.setSmoothed, Processor.blend, Processor.confidence0.
        simpl. rewrite Hc. simpl. eexists.
        apply list_lookup_insert_eq. exact Hlen.
      * unfold Processor.setSmoothed. simpl. eexists.
        apply list_lookup_insert_eq. exact Hlen.
  - exists (c * 0.9)%R. apply decay_confidence. exact Hc.
Qed.

(** * Further properties of the code *)

(** ** Envelope *)

Lemma exp_pow_nat x n : (exp x ^ n = exp (INR n * x))%R.
Proof.
  induction n as [|n IH].
  - simpl. rewrite Rmult_0_l, exp_0. reflexivity.
  - rewrite S_INR. simpl. rewrite IH, <- exp_plus. f_equal. ring.
Qed.



Lemma envelope_process_unit e g :
  (0 <= Envelope.value e <= 1)%R ->
  (0 <= Envelope.attackCoef e <= 1)%R ->
  (0 <= Envelope.releaseCoef e <= 1)%R ->
  (0 <= Envelope.value (snd (Envelope.process e g)) <= 1)%R
  /\ (if g then Envelope.value e <= Envelope.value (snd (Envelope.process e g))
      else Envelope.value (snd (Envelope.process e g)) <= Envelope.value e)%R.
Proof.
  intros Hv Ha Hr. unfold Envelope.process. cbn. destruct g; nra.
Qed.

(** Property X2.
    With coefficients in [0, 1] the envelope never leaves [0, 1], however
    the gate opens and closes. *)
Theorem envelope_value_in_unit (gates : list bool) e :
  (0 <= Envelope.value e <= 1)%R ->
  (0 <= Envelope.attackCoef e <= 1)%R ->
  (0 <= Envelope.releaseCoef e <= 1)%R ->
  (0 <= Envelope.value (Runs.envelope gates e) <= 1)%R.
Proof.
  revert e. induction gates as [|g gates IH]; intros e Hv Ha Hr;
    [exact Hv|].
  unfold Runs.envelope in *. simpl. apply IH.
  - apply (envelope_process_unit e g Hv Ha Hr).
  - exact Ha.
  - exact Hr.
Qed.

Lemma envelope_value_in_unit_witness :
  (0 <= Envelope.value
          (Runs.envelope [true; true; false] (Envelope.Envelope_new 48000))
   <= 1)%R.
Proof.
  apply (envelope_value_in_unit [true; true; false]
           (Envelope.Envelope_new 48000)); simpl; lra.
Defined.

Lemma hold_open e n :
  Envelope.value (Envelope.hold n true e)
  = (1 - (1 - Envelope.value e) * (1 - Envelope.attackCoef e) ^ n)%R.
Proof.
  revert e. induction n as [|n IH]; intros e.
  - simpl. ring.
  - change (Envelope.hold (S n) true e)
      with (Envelope.hold n true (snd (Envelope.process e true))).
    rewrite IH. unfold Envelope.process. cbn. ring.
Qed.

Lemma hold_closed e n :
  Envelope.value (Envelope.hold n false e)
  = (Envelope.value e * (1 - Envelope.releaseCoef e) ^ n)%R.
Proof.
  revert e. induction n as [|n IH]; intros e.
  - simpl. ring.
  - change (Envelope.hold (S n) false e)
      with (Envelope.hold n false (snd (Envelope.process e false))).
    rewrite IH. unfold Envelope.process. cbn. ring.
Qed.

Lemma coefficient_time_constant e ms (N : nat) :
  (0 < N)%nat ->
  (ms / 1000 * Envelope.envSampleRate e)%R = INR N ->
  ((1 - Envelope.coefficient e ms) ^ N)%R = exp (-1).
Proof.
  intros HN Hs. unfold Envelope.coefficient. rewrite Hs.
  assert (Hpos : (0 < INR N)%R) by (apply lt_0_INR; exact HN).
  rewrite rlt_true by exact Hpos.
  replace (1 - (1 - exp (-1 / INR N)))%R with (exp (-1 / INR N)) by ring.
  rewrite exp_pow_nat. f_equal. field. lra.
Qed.

(** Property X3.
    The time constant.  When the attack time makes a whole number [N] of
    samples, [N] samples with the gate open take the envelope from [v] to
    [1 - (1 - v) / e] (from 0 to [1 - 1/e]); with the release time, [N]
    samples with the gate closed take it from [v] to [v / e]. *)
Theorem envelope_time_constant e ms (N : nat) :
  (0 < N)%nat ->
  (ms / 1000 * Envelope.envSampleRate e)%R = INR N ->
  Envelope.value (Envelope.hold N true (Envelope.setAttack e ms))
  = (1 - (1 - Envelope.value e) * exp (-1))%R
  /\ Envelope.value (Envelope.hold N false (Envelope.setRelease e ms))
     = (Envelope.value e * exp (-1))%R.
Proof.
  intros HN Hs. rewrite hold_open, hold_closed.
  cbn [Envelope.setAttack Envelope.setRelease Envelope.value
       Envelope.attackCoef Envelope.releaseCoef].
  rewrite (coefficient_time_constant e ms N HN Hs). split; reflexivity.
Qed.

Lemma envelope_time_constant_witness :
  Envelope.value
    (Envelope.hold 480 true
       (Envelope.setAttack (Envelope.Envelope_new 48000) 10))
  = (1 - (1 - 0) * exp (-1))%R.
Proof.
  apply (envelope_time_constant (Envelope.Envelope_new 48000) 10 480).
  - lia.
  - simpl Envelope.envSampleRate.
    replace (INR 480) with 480%R by (rewrite INR_IZR_INZ; reflexivity).
    lra.
Defined.

(** ** Oscillator *)

(** The smoothing step of [process] moves the frequency and the
    amplitude to a point between the current value and the target, when
    the coefficients are in [0, 1]; a frequency set on an oscillator at
    rest (frequency 0) is reached at once, without a glide. *)
Theorem oscillator_smoothing_between o freq :
  (0 <= Osc.freqSmoothCoef o <= 1)%R ->
  (0 <= Osc.ampSmoothCoef o <= 1)%R ->
  (Rmin (Osc.frequency o) (Osc.targetFrequency o)
     <= Osc.frequency (Osc.smooth o)
     <= Rmax (Osc.frequency o) (Osc.targetFrequency o))%R
  /\ (Rmin (Osc.amplitude o) (Osc.targetAmplitude o)
        <= Osc.amplitude (Osc.smooth o)
        <= Rmax (Osc.amplitude o) (Osc.targetAmplitude o))%R
  /\ (Osc.frequency o = 0%R ->
      Osc.frequency (Osc.smooth (Osc.setFrequency o freq)) = freq).
Proof.
  intros Hf Ha. cbn [Osc.smooth Osc.frequency Osc.amplitude].
  split; [|split].
  - unfold Rmin, Rmax.
    destruct (Rle_dec (Osc.frequency o) (Osc.targetFrequency o)); nra.
  - unfold Rmin, Rmax.
    destruct (Rle_dec (Osc.amplitude o) (Osc.targetAmplitude o)); nra.
  - intros H0. cbn. rewrite H0, req_true by reflexivity. ring.
Qed.

Lemma oscillator_smoothing_between_witness :
  Osc.frequency (Osc.smooth (Osc.setFrequency (YinOsc.Oscillator_new 48000) 440))
  = 440%R.
Proof.
  destruct (oscillator_smoothing_between (YinOsc.Oscillator_new 48000) 440
              ltac:(simpl; lra) ltac:(simpl; lra)) as (_ & _ & H).
  apply H. reflexivity.
Defined.

Lemma advance_phase_unit o :
  (0 <= Osc.phase o < 1)%R ->
  (0 < Osc.oscSampleRate o)%R ->
  (0 <= Osc.frequency o <= Osc.oscSampleRate o)%R ->
  (0 <= Osc.phase (Osc.advance o) < 1)%R.
Proof.
  intros Hp Hsr Hf. cbn [Osc.advance Osc.phase].
  assert (Hq : (0 <= Osc.frequency o / Osc.oscSampleRate o <= 1)%R).
  { split.
    - apply Rmult_le_pos; [lra|]. left. apply Rinv_0_lt_compat. exact Hsr.
    - apply (Rmult_le_reg_r (Osc.oscSampleRate o)); [exact Hsr|].
      unfold Rdiv. rewrite Rmult_assoc, Rinv_l by lra. lra. }
  unfold rle. destruct (Rle_dec 1 _); lra.
Qed.

(** Property X4.
    The phase stays in [0, 1) as long as the smoothed frequency does not
    exceed the sample rate: [process] wraps it once, by an [if]. *)
Theorem oscillator_phase_in_unit o :
  (0 <= Osc.phase o < 1)%R ->
  (0 < Osc.oscSampleRate o)%R ->
  (Osc.frequency (Osc.smooth o) <= Osc.oscSampleRate o)%R ->
  (0 <= Osc.phase (snd (YinOsc.process o)) < 1)%R
  /\ (0 <= Osc.phase (snd (FftOsc.process o)) < 1)%R.
Proof.
  intros Hp Hsr Hf.
  assert (Hcase : forall sample : R,
    (0 <= Osc.phase
            (snd (if rle (Osc.frequency (Osc.smooth o)) 0
                     || rlt (Osc.amplitude (Osc.smooth o)) 0.0001
                  then (0%R, Osc.smooth o)
                  else (sample, Osc.advance (Osc.smooth o)))) < 1)%R).
  { intros sample.
    destruct (rle (Osc.frequency (Osc.smooth o)) 0) eqn:H0; [exact Hp|].
    destruct (rlt (Osc.amplitude (Osc.smooth o)) 0.0001); [exact Hp|].
    cbn [orb snd]. apply advance_phase_unit; [exact Hp|exact Hsr|].
    unfold rle in H0. destruct (Rle_dec _ 0); [discriminate|].
    split; [lra|exact Hf]. }
  split; [unfold YinOsc.process|unfold FftOsc.process]; apply Hcase.
Qed.

Lemma oscillator_phase_in_unit_witness :
  (0 <= Osc.phase (snd (YinOsc.process settledTriangle)) < 1)%R.
Proof.
  apply (oscillator_phase_in_unit settledTriangle); simpl; lra.
Defined.

(** Property X5.
    A sine (or a waveform the code does not know, which it plays as a
    sine) never exceeds the amplitude of the oscillator, in either
    processor; nor does the triangle of the second processor when the
    phase is in [0, 1]. *)
Theorem oscillator_output_bounded o :
  (Osc.waveform o = Osc.sine \/ Osc.waveform o = Osc.unknown ->
   (Rabs (fst (YinOsc.process o)) <= Rabs (Osc.amplitude (Osc.smooth o)))%R
   /\ (Rabs (fst (FftOsc.process o))
       <= Rabs (Osc.amplitude (Osc.smooth o)))%R)
  /\ (Osc.waveform o = Osc.triangle ->
      (0 <= Osc.phase o <= 1)%R ->
      (Rabs (fst (FftOsc.process o))
       <= Rabs (Osc.amplitude (Osc.smooth o)))%R).
Proof.
  assert (Hsin : forall n,
    (Rabs (Osc.partial (Osc.smooth o) n * Osc.amplitude (Osc.smooth o))
     <= Rabs (Osc.amplitude (Osc.smooth o)))%R).
  { intros n. rewrite Rabs_mult.
    pose proof (SIN_bound (2 * PI * IZR n * Osc.phase (Osc.smooth o))) as Hs.
    assert (Hb : (Rabs (Osc.partial (Osc.smooth o) n) <= 1)%R).
    { unfold Osc.partial. apply Rabs_le. exact Hs. }
    pose proof (Rabs_pos (Osc.amplitude (Osc.smooth o))). nra. }
  assert (H0 : (Rabs 0 <= Rabs (Osc.amplitude (Osc.smooth o)))%R).
  { rewrite Rabs_R0. apply Rabs_pos. }
  split.
  - intros Hw. split.
    + unfold YinOsc.process.
      destruct (_ || _); cbn [fst]; [exact H0|].
      change (Osc.waveform (Osc.smooth o)) with (Osc.waveform o).
      destruct Hw as [->| ->]; apply Hsin.
    + unfold FftOsc.process.
      destruct (_ || _); cbn [fst]; [exact H0|].
      change (Osc.waveform (Osc.smooth o)) with (Osc.waveform o).
      destruct Hw as [->| ->]; apply Hsin.
  - intros Hw Hp. unfold FftOsc.process.
    destruct (_ || _); cbn [fst]; [exact H0|].
    change (Osc.waveform (Osc.smooth o)) with (Osc.waveform o).
    rewrite Hw, Rabs_mult.
    assert (Hb : (Rabs (FftOsc.triangleSample (Osc.smooth o)) <= 1)%R).
    { unfold FftOsc.triangleSample.
      change (Osc.phase (Osc.smooth o)) with (Osc.phase o).
      apply Rabs_le. unfold Rabs.
      destruct (Rcase_abs (Osc.phase o - 0.5)); lra. }
    pose proof (Rabs_pos (Osc.amplitude (Osc.smooth o))). nra.
Qed.

Lemma oscillator_output_bounded_witness :
  (Rabs (fst (FftOsc.process (FftOsc.Oscillator_new 48000)))
   <= Rabs (Osc.amplitude (Osc.smooth (FftOsc.Oscillator_new 48000))))%R.
Proof.
  destruct (oscillator_output_bounded (FftOsc.Oscillator_new 48000))
    as [H _].
  apply H. left. reflexivity.
Defined.

Lemma run_S n o : OscRun.run (S n) o = snd (YinOsc.process (OscRun.run n o)).
Proof.
  revert o. induction n as [|n IH]; intros o; [reflexivity|].
  change (OscRun.run (S (S n)) o)
    with (OscRun.run (S n) (snd (YinOsc.process o))).
  rewrite IH. reflexivity.
Qed.

Lemma process_amplitude o :
  Osc.amplitude (snd (YinOsc.process o)) = Osc.amplitude (Osc.smooth o)
  /\ Osc.targetAmplitude (snd (YinOsc.process o)) = Osc.targetAmplitude o
  /\ Osc.ampSmoothCoef (snd (YinOsc.process o)) = Osc.ampSmoothCoef o.
Proof.
  unfold YinOsc.process. destruct (_ || _); repeat split.
Qed.

Lemma run_amplitude n o :
  Osc.targetAmplitude o = 0%R ->
  Osc.amplitude (OscRun.run n o)
  = (Osc.amplitude o * Osc.ampSmoothCoef o ^ n)%R
  /\ Osc.targetAmplitude (OscRun.run n o) = 0%R
  /\ Osc.ampSmoothCoef (OscRun.run n o) = Osc.ampSmoothCoef o.
Proof.
  intros Ht. induction n as [|n (IHa & IHt & IHc)].
  - simpl. repeat split; [ring|exact Ht].
  - rewrite run_S.
    destruct (process_amplitude (OscRun.run n o)) as (-> & -> & ->).
    cbn [Osc.smooth Osc.amplitude]. rewrite IHa, IHt, IHc.
    repeat split. simpl. ring.
Qed.

(** Property X6.
    Once the target amplitude is 0 the output becomes exactly 0 after
    finitely many samples and stays 0: the amplitude shrinks by the
    smoothing coefficient at each sample and [process] returns 0 under
    0.0001. *)
Theorem oscillator_fades_to_silence o :
  Osc.targetAmplitude o = 0%R ->
  (0 <= Osc.ampSmoothCoef o < 1)%R ->
  exists N : nat, forall n : nat,
    (N <= n)%nat -> fst (YinOsc.process (OscRun.run n o)) = 0%R.
Proof.
  intros Ht Hc.
  destruct (pow_lt_1_zero (Osc.ampSmoothCoef o)
              ltac:(rewrite Rabs_pos_eq; lra)
              (0.0001 / (Rabs (Osc.amplitude o) + 1))%R) as [N HN].
  { pose proof (Rabs_pos (Osc.amplitude o)). apply Rdiv_lt_0_compat; lra. }
  exists N. intros n Hn.
  destruct (run_amplitude n o Ht) as (Ha & Hta & Hco).
  unfold YinOsc.process.
  assert (Hsmall : (Osc.amplitude (Osc.smooth (OscRun.run n o)) < 0.0001)%R).
  { cbn [Osc.smooth Osc.amplitude]. rewrite Ha, Hta, Hco.
    pose proof (HN n Hn) as H.
    assert (Hpow : (0 <= Osc.ampSmoothCoef o ^ n)%R) by (apply pow_le; lra).
    rewrite Rabs_pos_eq in H by exact Hpow.
    pose proof (Rabs_pos (Osc.amplitude o)) as Hab.
    pose proof (Rle_abs (Osc.amplitude o)) as Hle.
    assert (H1 : (Osc.amplitude o * Osc.ampSmoothCoef o ^ n
                  <= Rabs (Osc.amplitude o) * Osc.ampSmoothCoef o ^ n)%R)
      by (apply Rmult_le_compat_r; assumption).
    assert (H2 : (Rabs (Osc.amplitude o) * Osc.ampSmoothCoef o ^ n
                  <= Rabs (Osc.amplitude o)
                     * (0.0001 / (Rabs (Osc.amplitude o) + 1)))%R)
      by (apply Rmult_le_compat_l; lra).
    assert (H3 : (Rabs (Osc.amplitude o)
                  * (0.0001 / (Rabs (Osc.amplitude o) + 1)) < 0.0001)%R).
    { unfold Rdiv. rewrite <- Rmult_assoc.
      apply (Rmult_lt_reg_r (Rabs (Osc.amplitude o) + 1)); [lra|].
      rewrite Rmult_assoc, Rinv_l by lra. lra. }
    assert (H4 : (0 <= Osc.amplitude o * Osc.ampSmoothCoef o ^ n
                       * Osc.ampSmoothCoef o)%R
                 \/ (Osc.amplitude o * Osc.ampSmoothCoef o ^ n
                       * Osc.ampSmoothCoef o < 0)%R) by lra.
    nra. }
  rewrite (rlt_true _ _ Hsmall), orb_true_r. reflexivity.
Qed.

Lemma oscillator_fades_to_silence_witness :
  exists N : nat, forall n : nat,
    (N <= n)%nat ->
    fst (YinOsc.process
           (OscRun.run n (Osc.setAmplitude settledTriangle 0))) = 0%R.
Proof.
  apply (oscillator_fades_to_silence (Osc.setAmplitude settledTriangle 0)).
  - reflexivity.
  - simpl. lra.
Defined.

(** ** Levels *)

Lemma ln_10_pos : (0 < ln 10)%R.
Proof.
  rewrite <- ln_1. apply ln_increasing; lra.
Qed.

Lemma Math_log10_pow10 y : Math_log10 (Math_pow10 y) = y.
Proof.
  unfold Math_log10, Math_pow10. rewrite ln_Rpower.
  pose proof ln_10_pos. field. lra.
Qed.

Lemma Math_pow10_log10 x : (0 < x)%R -> Math_pow10 (Math_log10 x) = x.
Proof.
  intros Hx. unfold Math_log10, Math_pow10, Rpower.
  pose proof ln_10_pos.
  replace (ln x / ln 10 * ln 10)%R with (ln x) by (field; lra).
  apply exp_ln. exact Hx.
Qed.

Lemma Math_log10_floor : Math_log10 1e-10 = (-10)%R.
Proof.
  unfold Math_log10.
  replace 1e-10%R with (/ (10 ^ 10))%R by lra.
  rewrite ln_Rinv by (apply pow_lt; lra).
  rewrite ln_pow by lra.
  pose proof ln_10_pos. simpl INR. field. lra.
Qed.

Lemma Math_log10_le x y :
  (0 < x)%R -> (x <= y)%R -> (Math_log10 x <= Math_log10 y)%R.
Proof.
  intros Hx Hxy. unfold Math_log10. pose proof ln_10_pos as H10.
  assert (Hln : (ln x <= ln y)%R).
  { destruct Hxy as [Hlt| ->]; [left; apply ln_increasing; assumption|lra]. }
  apply Rmult_le_compat_r; [|exact Hln].
  left. apply Rinv_0_lt_compat. exact H10.
Qed.

(** [linearToDb] never goes under -200 dB, is exactly -200 on every
    level up to [1e-10] (zero and negative levels included), and grows
    with the level. *)
Theorem linearToDb_floor x y :
  (-200 <= Levels.linearToDb x)%R
  /\ ((x <= 1e-10)%R -> Levels.linearToDb x = (-200)%R)
  /\ ((x <= y)%R -> (Levels.linearToDb x <= Levels.linearToDb y)%R).
Proof.
  unfold Levels.linearToDb.
  assert (Hfloor : forall z, (20 * Math_log10 1e-10
                              <= 20 * Math_log10 (Rmax z 1e-10))%R).
  { intros z. apply Rmult_le_compat_l; [lra|].
    apply Math_log10_le; [lra|apply Rmax_r]. }
  split; [|split].
  - specialize (Hfloor x). rewrite Math_log10_floor in Hfloor. lra.
  - intros Hx. rewrite Rmax_right by exact Hx. rewrite Math_log10_floor. lra.
  - intros Hxy. apply Rmult_le_compat_l; [lra|].
    apply Math_log10_le.
    + pose proof (Rmax_r x 1e-10). lra.
    + apply Rle_max_compat_r. exact Hxy.
Qed.

Lemma linearToDb_dbToLinear db :
  (-200 <= db)%R -> Levels.linearToDb (Levels.dbToLinear db) = db.
Proof.
  intros Hdb. unfold Levels.dbToLinear, Levels.linearToDb.
  assert (Hle : (1e-10 <= Math_pow10 (db / 20))%R).
  { replace 1e-10%R with (Math_pow10 (-10)).
    - unfold Math_pow10. apply Rle_Rpower; lra.
    - rewrite <- (Math_pow10_log10 1e-10) by lra.
      rewrite Math_log10_floor. reflexivity. }
  rewrite Rmax_left by exact Hle. rewrite Math_log10_pow10. field.
Qed.



Lemma sum_squares_acc (buffer : list R) a :
  fold_left (fun (s x : R) => (s + x * x)%R) buffer a
  = (a + fold_left (fun (s x : R) => (s + x * x)%R) buffer 0)%R.
Proof.
  revert a. induction buffer as [|x l IH]; intros a; simpl; [ring|].
  rewrite (IH (a + x * x)%R), (IH (0 + x * x)%R). ring.
Qed.

Lemma sum_squares_bound (buffer : list R) M :
  (forall x, x ∈ buffer -> (Rabs x <= M)%R) ->
  (0 <= fold_left (fun (s x : R) => (s + x * x)%R) buffer 0
     <= INR (length buffer) * (M * M))%R.
Proof.
  induction buffer as [|x l IH]; intros Hall.
  - simpl. lra.
  - simpl fold_left. rewrite sum_squares_acc.
    change (length (x :: l)) with (S (length l)). rewrite S_INR.
    destruct IH as [IH0 IH1];
      [intros y Hy; apply Hall; apply list_elem_of_further; exact Hy|].
    pose proof (Hall x ltac:(apply list_elem_of_here)) as Hx.
    assert (Hsq : (0 <= x * x <= M * M)%R).
    { pose proof (Rabs_pos x). split; [nra|].
      replace (x * x)%R with (Rabs x * Rabs x)%R.
      - nra.
      - unfold Rabs. destruct (Rcase_abs x); ring. }
    lra.
Qed.

(** Property X8.
    The RMS of a block that is not empty is a number between 0 and the
    largest magnitude in the block; of an empty block it is [NaN]. *)
Theorem calculateRms_bounds (buffer : list R) M :
  buffer <> [] ->
  (forall x, x ∈ buffer -> (Rabs x <= M)%R) ->
  Levels.calculateRms [] = NaN
  /\ exists r, Levels.calculateRms buffer = Fin r /\ (0 <= r <= M)%R.
Proof.
  intros Hne Hall. split; [reflexivity|].
  destruct buffer as [|x l]; [congruence|].
  eexists. split; [reflexivity|].
  pose proof (sum_squares_bound (x :: l) M Hall) as [H0 H1].
  set (sum := fold_left (fun (s y : R) => (s + y * y)%R) (x :: l) 0%R) in *.
  assert (Hn : (0 < INR (length (x :: l)))%R) by (apply lt_0_INR; simpl; lia).
  assert (HM : (0 <= M)%R).
  { pose proof (Hall x ltac:(apply list_elem_of_here)).
    pose proof (Rabs_pos x). lra. }
  split; [apply sqrt_pos|].
  rewrite <- (sqrt_square M HM).
  apply sqrt_le_1_alt.
  apply (Rmult_le_reg_r (INR (length (x :: l)))); [exact Hn|].
  unfold Rdiv. rewrite Rmult_assoc, Rinv_l by lra. lra.
Qed.

Lemma calculateRms_bounds_witness :
  exists r, Levels.calculateRms [0.5; -0.25]%R = Fin r /\ (0 <= r <= 0.5)%R.
Proof.
  apply (calculateRms_bounds [0.5; -0.25]%R 0.5).
  - discriminate.
  - intros x Hx. apply elem_of_cons in Hx. destruct Hx as [->|Hx].
    + rewrite Rabs_pos_eq; lra.
    + apply list_elem_of_singleton in Hx. subst x.
      unfold Rabs. destruct (Rcase_abs (-0.25)); lra.
Defined.

Lemma linearToDb_floor_witness : Levels.linearToDb 0 = (-200)%R.
Proof.
  destruct (linearToDb_floor 0 0) as (_ & H & _). apply H. lra.
Defined.

(** ** The level, the gate and the hop counter *)

Lemma geometric_small c q eps :
  (0 <= q < 1)%R -> (0 < eps)%R ->
  exists N : nat, forall n : nat, (N <= n)%nat -> (c * q ^ n < eps)%R.
Proof.
  intros Hq Heps.
  destruct (pow_lt_1_zero q ltac:(rewrite Rabs_pos_eq; lra)
              (eps / (Rabs c + 1))%R) as [N HN].
  { pose proof (Rabs_pos c). apply Rdiv_lt_0_compat; lra. }
  exists N. intros n Hn. pose proof (HN n Hn) as H.
  assert (Hpow : (0 <= q ^ n)%R) by (apply pow_le; lra).
  rewrite Rabs_pos_eq in H by exact Hpow.
  pose proof (Rabs_pos c) as Hc0. pose proof (Rle_abs c) as Hc.
  assert (H1 : (c * q ^ n <= Rabs c * q ^ n)%R)
    by (apply Rmult_le_compat_r; assumption).
  assert (H2 : (Rabs c * q ^ n <= Rabs c * (eps / (Rabs c + 1)))%R)
    by (apply Rmult_le_compat_l; lra).
  assert (H3 : (Rabs c * (eps / (Rabs c + 1)) < eps)%R).
  { unfold Rdiv. rewrite <- Rmult_assoc.
    apply (Rmult_lt_reg_r (Rabs c + 1)); [lra|].
    rewrite Rmult_assoc, Rinv_l by lra. nra. }
  lra.
Qed.

Lemma calculateRms_silent block :
  silentBlock block -> Levels.calculateRms block = Fin 0.
Proof.
  intros [Hne Hall]. unfold Levels.calculateRms.
  assert (Hsum : fold_left (fun (s x : R) => (s + x * x)%R) block 0%R = 0%R).
  { clear Hne. induction Hall as [|x l Hx _ IH]; [reflexivity|].
    simpl. subst x. replace (0 + 0 * 0)%R with 0%R by ring. exact IH. }
  rewrite Hsum. destruct block; [congruence|].
  f_equal. unfold Rdiv. rewrite Rmult_0_l. apply sqrt_0.
Qed.

Lemma levelAfter_silent r blocks :
  Forall silentBlock blocks ->
  Orchestrator.levelAfter (Fin r) blocks = Fin (r * 0.9 ^ length blocks).
Proof.
  intros Hall. revert r. induction Hall as [|b blocks Hb _ IH]; intros r.
  - simpl. f_equal. ring.
  - unfold Orchestrator.levelAfter in *. simpl.
    unfold Orchestrator.updateRms. rewrite (calculateRms_silent b Hb).
    cbn [Js.mul Js.add].
    replace (r * 0.9 + 0 * 0.1)%R with (r * 0.9)%R by ring.
    rewrite IH. f_equal. ring.
Qed.

(** The level in dB that [process] computes is [linearToDb] of the
    smoothed RMS. *)
Lemma rmsDb_finite r :
  Orchestrator.rmsDb (Fin r) = Fin (Levels.linearToDb r).
Proof.
  unfold Orchestrator.rmsDb, Levels.linearToDb, Math_log10.
  cbn [Js.max Js.lt].
  assert (Hmax : (if rlt r 1e-10 then Fin 1e-10 else Fin r)
                 = Fin (Rmax r 1e-10)).
  { unfold rlt, Rmax. destruct (Rlt_dec r 1e-10);
      destruct (Rle_dec r 1e-10); (reflexivity || f_equal; lra). }
  rewrite Hmax. cbn [Orchestrator.log10].
  rewrite rlt_true by (pose proof (Rmax_r r 1e-10); lra).
  reflexivity.
Qed.

Lemma gate_closed_low_level cfg v r :
  (-200 <= Processor.inputThreshold cfg)%R ->
  (r <= Levels.dbToLinear (Processor.inputThreshold cfg))%R ->
  Orchestrator.gateOpen cfg (Fin r) v = false.
Proof.
  intros Hthr Hr. unfold Orchestrator.gateOpen.
  rewrite rmsDb_finite. unfold Js.gt at 1. cbn [Js.lt].
  pose proof (linearToDb_dbToLinear (Processor.inputThreshold cfg) Hthr)
    as Hrt.
  destruct (linearToDb_floor r (Levels.dbToLinear (Processor.inputThreshold cfg)))
    as (_ & _ & Hmono).
  specialize (Hmono Hr). rewrite Hrt in Hmono.
  rewrite (rlt_false _ _ Hmono). reflexivity.
Qed.

(** Property X9.
    Silence closes the gate.  With an input threshold of -200 dB or more,
    from any smoothed level there is a number of silent blocks after
    which the gate is closed, whatever the confidence, and stays closed
    while the silence lasts; from the level 0 the processor starts with,
    silence never opens it. *)
Theorem gate_closes_in_silence cfg v r :
  (-200 <= Processor.inputThreshold cfg)%R ->
  (exists N : nat, forall blocks,
      Forall silentBlock blocks -> (N <= length blocks)%nat ->
      Orchestrator.gateOpen cfg (Orchestrator.levelAfter (Fin r) blocks) v
      = false)
  /\ (forall blocks,
        Forall silentBlock blocks ->
        Orchestrator.gateOpen cfg (Orchestrator.levelAfter (Fin 0) blocks) v
        = false).
Proof.
  intros Hthr.
  assert (Hpos : (0 < Levels.dbToLinear (Processor.inputThreshold cfg))%R)
    by (unfold Levels.dbToLinear, Math_pow10, Rpower; apply exp_pos).
  split.
  - destruct (geometric_small r 0.9 _ ltac:(lra) Hpos) as [N HN].
    exists N. intros blocks Hall Hlen.
    rewrite (levelAfter_silent r blocks Hall).
    apply gate_closed_low_level; [exact Hthr|].
    left. apply HN. exact Hlen.
  - intros blocks Hall. rewrite (levelAfter_silent 0 blocks Hall).
    apply gate_closed_low_level; [exact Hthr|].
    rewrite Rmult_0_l. lra.
Qed.

Lemma gate_closes_in_silence_witness :
  Orchestrator.gateOpen defaultConfig
    (Orchestrator.levelAfter (Fin 0) [[0; 0]%R; [0]%R]) fadingVoice = false.
Proof.
  destruct (gate_closes_in_silence defaultConfig fadingVoice 0
              ltac:(simpl; lra)) as [_ H].
  apply H. repeat constructor; discriminate.
Defined.

Lemma countBlock_invariant hop c n :
  0 < hop ->
  0 <= Orchestrator.samplesSinceLastAnalysis c < hop ->
  0 <= n <= hop ->
  0 <= Orchestrator.samplesSinceLastAnalysis
         (fst (Orchestrator.countBlock hop c n)) < hop
  /\ Orchestrator.samplesSinceLastAnalysis
       (fst (Orchestrator.countBlock hop c n))
     + hop * Orchestrator.hopCount (fst (Orchestrator.countBlock hop c n))
     = Orchestrator.samplesSinceLastAnalysis c
       + hop * Orchestrator.hopCount c + n.
Proof.
  intros Hh Hc Hn. unfold Orchestrator.countBlock.
  destruct (Z.leb_spec hop (Orchestrator.samplesSinceLastAnalysis c + n));
    cbn; lia.
Qed.

(** Property X10.
    The hop counter loses no sample.  When no block is longer than the
    hop size, the number of samples waiting stays under the hop size,
    and after any run of blocks the number of hops taken is the quotient
    of the samples received (with those that were waiting) by the hop
    size, the number waiting being the remainder. *)
Theorem hop_counter_exact hop c blockLengths :
  0 < hop ->
  0 <= Orchestrator.samplesSinceLastAnalysis c < hop ->
  Forall (fun n => 0 <= n <= hop) blockLengths ->
  Orchestrator.hopCount (Orchestrator.countBlocks hop c blockLengths)
  = Orchestrator.hopCount c
    + (Orchestrator.samplesSinceLastAnalysis c
       + Orchestrator.totalLength blockLengths) / hop
  /\ Orchestrator.samplesSinceLastAnalysis
       (Orchestrator.countBlocks hop c blockLengths)
     = (Orchestrator.samplesSinceLastAnalysis c
        + Orchestrator.totalLength blockLengths) mod hop.
Proof.
  intros Hh Hc Hall.
  assert (Hinv :
    0 <= Orchestrator.samplesSinceLastAnalysis
           (Orchestrator.countBlocks hop c blockLengths) < hop
    /\ Orchestrator.samplesSinceLastAnalysis
         (Orchestrator.countBlocks hop c blockLengths)
       + hop * Orchestrator.hopCount
                 (Orchestrator.countBlocks hop c blockLengths)
       = Orchestrator.samplesSinceLastAnalysis c
         + hop * Orchestrator.hopCount c
         + Orchestrator.totalLength blockLengths).
  { revert c Hc. induction Hall as [|n l Hn _ IH]; intros c Hc.
    - simpl. lia.
    - unfold Orchestrator.countBlocks in *. simpl.
      destruct (countBlock_invariant hop c n Hh Hc Hn) as [Hb Heq].
      destruct (IH _ Hb) as [Hb' Heq']. split; [exact Hb'|]. lia. }
  destruct Hinv as [Hb Heq].
  set (s' := Orchestrator.samplesSinceLastAnalysis
               (Orchestrator.countBlocks hop c blockLengths)) in *.
  set (h' := Orchestrator.hopCount
               (Orchestrator.countBlocks hop c blockLengths)) in *.
  assert (Hsum : Orchestrator.samplesSinceLastAnalysis c
                 + Orchestrator.totalLength blockLengths
                 = hop * (h' - Orchestrator.hopCount c) + s') by lia.
  rewrite Hsum. split.
  - rewrite Z.mul_comm, Z.div_add_l by lia. rewrite Z.div_small by lia. lia.
  - rewrite Z.add_comm, Z.mul_comm, Z_mod_plus_full.
    symmetry. apply Z.mod_small. lia.
Qed.

Lemma hop_counter_exact_witness :
  Orchestrator.hopCount
    (Orchestrator.countBlocks 512 {| Orchestrator.samplesSinceLastAnalysis := 0;
                                     Orchestrator.hopCount := 0 |}
       [128; 128; 128; 128; 128])
  = 0 + (0 + Orchestrator.totalLength [128; 128; 128; 128; 128]) / 512.
Proof.
  apply (hop_counter_exact 512 {| Orchestrator.samplesSinceLastAnalysis := 0;
                                  Orchestrator.hopCount := 0 |}
           [128; 128; 128; 128; 128]).
  - lia.
  - simpl. lia.
  - repeat constructor; lia.
Defined.

(** ** Note names *)

Lemma nameAt_defined i :
  0 <= i < 12 ->
  exists name, NoteNames.NOTE_NAMES !! Z.to_nat i = Some name
               /\ NoteNames.nameAt i = name.
Proof.
  intros Hi. unfold NoteNames.nameAt.
  destruct (Z.ltb_spec i 0); [lia|].
  destruct (lookup_lt_is_Some_2 NoteNames.NOTE_NAMES (Z.to_nat i))
    as [name Hname]; [simpl; lia|].
  exists name. rewrite Hname. split; reflexivity.
Qed.

(** Property X11.
    The two ways of naming a note agree, and always find a name.  For
    every note number, negative ones included, [midiToNoteName] of
    pitch-utils.ts and the [noteName] of the processors are the same
    string: the entry of [NOTE_NAMES] at the rounded note modulo 12,
    followed by the octave [floor(note / 12) - 1]; the pitch class and
    the octave give the note back. *)
Theorem note_names_agree (midi : R) :
  NoteNames.midiToNoteName midi = NoteNames.noteName (Math_round midi)
  /\ exists name,
       NoteNames.NOTE_NAMES !! Z.to_nat (Math_round midi mod 12) = Some name
       /\ NoteNames.noteName (Math_round midi)
          = String.append name (pretty (Math_round midi / 12 - 1))
       /\ 12 * (Math_round midi / 12 - 1 + 1) + Math_round midi mod 12
          = Math_round midi.
Proof.
  unfold NoteNames.midiToNoteName, NoteNames.noteName. cbv zeta.
  generalize (Math_round midi) as r. clear midi. intros r.
  assert (Hidx : Z.rem (Z.rem r 12 + 12) 12 = r mod 12)
    by (Z.to_euclidean_division_equations; lia).
  assert (Hidx' : (if Z.rem r 12 <? 0 then Z.rem r 12 + 12 else Z.rem r 12)
                  = r mod 12).
  { destruct (Z.ltb_spec (Z.rem r 12) 0);
      Z.to_euclidean_division_equations; lia. }
  rewrite Hidx, Hidx'. split; [reflexivity|].
  destruct (nameAt_defined (r mod 12)) as (name & Hname & Hat);
    [apply Z.mod_pos_bound; lia|].
  exists name. rewrite Hat. split; [exact Hname|]. split; [reflexivity|].
  pose proof (Z.div_mod r 12 ltac:(lia)). lia.
Qed.

(** ** The Hann window *)

Lemma hann_multiplier_unit N i :
  (2 <= N)%nat ->
  exists w, Hann.multiplier N i = Fin w /\ (0 <= w <= 1)%R.
Proof.
  intros HN. unfold Hann.multiplier.
  destruct (Nat.eqb_spec N 1); [lia|].
  eexists. split; [reflexivity|].
  pose proof (COS_bound (2 * PI * INR i / (INR N - 1))). lra.
Qed.

Lemma hann_multiplier_ends N :
  (2 <= N)%nat ->
  Hann.multiplier N 0 = Fin 0 /\ Hann.multiplier N (N - 1) = Fin 0.
Proof.
  intros HN. unfold Hann.multiplier.
  destruct (Nat.eqb_spec N 1); [lia|].
  split; f_equal.
  - simpl INR. unfold Rdiv. rewrite Rmult_0_r, Rmult_0_l, cos_0. ring.
  - rewrite minus_INR by lia. simpl INR.
    assert (Hpos : (1 < INR N)%R).
    { apply (lt_INR 1 N). lia. }
    replace (2 * PI * (INR N - 1) / (INR N - 1))%R with (2 * PI)%R
      by (field; lra).
    rewrite cos_2PI. ring.
Qed.

(** Property X12.
    [applyHannWindow] keeps the length; on a buffer of at least two
    samples every output is a number no larger in magnitude than its
    input, and the first and the last are 0.  A buffer of one sample
    gives [NaN]: the window divides by [N - 1]. *)
Theorem hann_window_tapers (buffer : list R) :
  length (Hann.applyHannWindow buffer) = length buffer
  /\ ((2 <= length buffer)%nat ->
      forall i x, buffer !! i = Some x ->
        exists y, Hann.applyHannWindow buffer !! i = Some (Fin y)
                  /\ (Rabs y <= Rabs x)%R
                  /\ (i = 0%nat \/ i = (length buffer - 1)%nat -> y = 0%R))
  /\ (forall x, Hann.applyHannWindow [x] = [NaN]).
Proof.
  unfold Hann.applyHannWindow. split; [apply length_imap|]. split.
  - intros HN i x Hx. rewrite list_lookup_imap, Hx. simpl.
    destruct (hann_multiplier_unit (length buffer) i HN) as (w & Hw & Hb).
    rewrite Hw. cbn [Js.mul]. eexists. split; [reflexivity|]. split.
    + rewrite Rabs_mult, (Rabs_pos_eq w) by lra.
      pose proof (Rabs_pos x). nra.
    + destruct (hann_multiplier_ends (length buffer) HN) as [H0 Hl].
      intros [->| ->].
      * rewrite H0 in Hw. injection Hw as <-. ring.
      * rewrite Hl in Hw. injection Hw as <-. ring.
  - intros x. reflexivity.
Qed.

Lemma hann_window_tapers_witness :
  exists y, Hann.applyHannWindow [1; 1; 1]%R !! 2%nat = Some (Fin y)
            /\ (Rabs y <= Rabs 1)%R
            /\ (2%nat = 0%nat \/ 2%nat = (3 - 1)%nat -> y = 0%R).
Proof.
  destruct (hann_window_tapers [1; 1; 1]%R) as (_ & H & _).
  apply (H ltac:(simpl; lia) 2%nat 1%R). reflexivity.
Defined.

(** ** The pitch report and the nearest tempered note *)

Lemma Math_log2_mult x y :
  (0 < x)%R -> (0 < y)%R ->
  Math_log2 (x * y) = (Math_log2 x + Math_log2 y)%R.
Proof.
  intros Hx Hy. unfold Math_log2. rewrite ln_mult by assumption.
  pose proof ln_2_pos. field. lra.
Qed.

Lemma Math_round_bounds x :
  (-0.5 <= x - IZR (Math_round x) < 0.5)%R.
Proof.
  unfold Math_round. pose proof (Zfloor_bound (x + 0.5)). lra.
Qed.

(** The cents of a frequency against the tempered frequency of the note
    [n]: a hundred times the distance of its note number to [n]. *)
Lemma cents_against_tempered freq a4 n :
  (0 < freq)%R -> (0 < a4)%R ->
  (1200 * Math_log2 (freq / (a4 * Math_pow2 ((IZR n - 69) / 12))))%R
  = (100 * (69 + 12 * Math_log2 (freq / a4) - IZR n))%R.
Proof.
  intros Hf Ha.
  pose proof (Math_pow2_pos ((IZR n - 69) / 12)) as Hp.
  replace (freq / (a4 * Math_pow2 ((IZR n - 69) / 12)))%R
    with (freq / a4 * / Math_pow2 ((IZR n - 69) / 12))%R by (field; lra).
  rewrite Math_log2_mult.
  - rewrite Math_log2_inv by exact Hp. rewrite Math_log2_pow2. field.
  - apply Rdiv_lt_0_compat; assumption.
  - apply Rinv_0_lt_compat. exact Hp.
Qed.

(** Property X13.
    The report [frequencyToPitchInfo] builds for a positive frequency:
    its cents are a hundred times the distance from the note number to
    the rounded note, so they lie in [-50, 50); its reference is the
    nearest tempered frequency of pitch-utils.ts, and is positive. *)
Theorem pitch_info_cents cfg freq conf :
  (0 < freq)%R ->
  (0 < Processor.a4Tuning cfg)%R ->
  Processor.cents (Processor.frequencyToPitchInfo cfg freq conf)
  = (100 * (Processor.midiNote (Processor.frequencyToPitchInfo cfg freq conf)
            - IZR (Processor.proposal
                     (Processor.frequencyToPitchInfo cfg freq conf))))%R
  /\ (-50 <= Processor.cents (Processor.frequencyToPitchInfo cfg freq conf)
      < 50)%R
  /\ Processor.referenceFrequency (Processor.frequencyToPitchInfo cfg freq conf)
     = PitchUtils.nearestTemperedFrequency freq (Processor.a4Tuning cfg)
  /\ (0 < Processor.referenceFrequency
            (Processor.frequencyToPitchInfo cfg freq conf))%R
  /\ Processor.midiNote (Processor.frequencyToPitchInfo cfg freq conf)
     = PitchUtils.frequencyToMidi freq (Processor.a4Tuning cfg).
Proof.
  intros Hf Ha.
  unfold Processor.frequencyToPitchInfo, Processor.proposal.
  cbn [Processor.cents Processor.midiNote Processor.referenceFrequency].
  rewrite (cents_against_tempered freq (Processor.a4Tuning cfg) _ Hf Ha).
  pose proof (Math_round_bounds
    (69 + 12 * Math_log2 (freq / Processor.a4Tuning cfg))) as Hb.
  split; [reflexivity|]. split; [lra|]. split; [reflexivity|].
  split; [|reflexivity].
  apply Rmult_lt_0_compat; [exact Ha|apply Math_pow2_pos].
Qed.

Lemma pitch_info_cents_witness :
  (-50 <= Processor.cents (Processor.frequencyToPitchInfo defaultConfig 445 1)
   < 50)%R.
Proof.
  apply (pitch_info_cents defaultConfig 445 1); simpl; lra.
Defined.

(** Property X14.
    [nearestTemperedFrequency] is idempotent, and never moves a
    frequency by more than 50 cents. *)
Theorem nearest_tempered_idempotent frequency a4 :
  (0 < frequency)%R -> (0 < a4)%R ->
  PitchUtils.nearestTemperedFrequency
    (PitchUtils.nearestTemperedFrequency frequency a4) a4
  = PitchUtils.nearestTemperedFrequency frequency a4
  /\ (Rabs (PitchUtils.frequencyToCents frequency
              (PitchUtils.nearestTemperedFrequency frequency a4)) <= 50)%R.
Proof.
  intros Hf Ha. split.
  - set (n := Math_round (PitchUtils.frequencyToMidi frequency a4)).
    change (PitchUtils.nearestTemperedFrequency frequency a4)
      with (PitchUtils.midiToFrequency (IZR n) a4).
    unfold PitchUtils.nearestTemperedFrequency.
    rewrite frequencyToMidi_midiToFrequency by exact Ha.
    rewrite Math_round_IZR. reflexivity.
  - unfold PitchUtils.frequencyToCents, PitchUtils.nearestTemperedFrequency,
      PitchUtils.midiToFrequency, PitchUtils.frequencyToMidi.
    rewrite (cents_against_tempered frequency a4 _ Hf Ha).
    pose proof (Math_round_bounds (69 + 12 * Math_log2 (frequency / a4))) as Hb.
    apply Rabs_le. lra.
Qed.

Lemma nearest_tempered_idempotent_witness :
  PitchUtils.nearestTemperedFrequency
    (PitchUtils.nearestTemperedFrequency 445 440) 440
  = PitchUtils.nearestTemperedFrequency 445 440.
Proof. apply (nearest_tempered_idempotent 445 440); lra. Defined.

(** ** Snapping to a scale *)

Lemma intervals_distance_bound noteClass (l : list Z) :
  0 <= noteClass < 12 ->
  (forall i, i ∈ l -> 0 <= i < 12) ->
  forall i, i ∈ l -> PitchUtils.circularDistance noteClass i < 12.
Proof.
  intros Hc Hl i Hi.
  pose proof (circularDistance_bound noteClass i Hc (Hl i Hi)). lia.
Qed.

Lemma nearest_in_intervals noteClass (l : list Z) :
  0 <= noteClass < 12 ->
  l <> [] ->
  (forall i, i ∈ l -> 0 <= i < 12) ->
  Processor.nearestScaleInterval noteClass l ∈ l.
Proof.
  intros Hc Hne Hl.
  destruct (nearest_first_minimum noteClass l Hne
              (intervals_distance_bound noteClass l Hc Hl))
    as (pre & post & Heq & _).
  rewrite Heq at 2. apply elem_of_app. right. apply list_elem_of_here.
Qed.

Lemma snapMidi_scaleMidi midi scaleRoot (scaleIntervals : list Z) :
  0 <= midi -> 0 <= scaleRoot < 12 ->
  scaleIntervals <> [] ->
  (forall i, i ∈ scaleIntervals -> 0 <= i < 12) ->
  PitchUtils.snapMidi midi scaleRoot scaleIntervals
  = Processor.scaleMidi
      {| Processor.root := scaleRoot; Processor.intervals := scaleIntervals |}
      midi.
Proof.
  intros Hm Hr Hne Hl. unfold PitchUtils.snapMidi, Processor.scaleMidi.
  cbn [Processor.root Processor.intervals].
  destruct (PitchUtils.includes _ _); [reflexivity|].
  rewrite nearest_searches_agree; [reflexivity| |exact Hne].
  apply intervals_distance_bound;
    [apply (noteClassOf_range midi scaleRoot Hm Hr)|exact Hl].
Qed.

(** Property X15.
    Snapping lands on the scale.  For a note number that is not negative,
    a root in 0..11 and intervals in 0..11 (at least one), the note
    [snapToScale] and the scale case of [getSynthFrequency] compute is
    the same, is not negative, has its pitch class above the root among
    the intervals, and is left where it is by a second snap. *)
Theorem snap_lands_on_scale midi scaleRoot (scaleIntervals : list Z) :
  0 <= midi -> 0 <= scaleRoot < 12 ->
  scaleIntervals <> [] ->
  (forall i, i ∈ scaleIntervals -> 0 <= i < 12) ->
  PitchUtils.snapMidi midi scaleRoot scaleIntervals
  = Processor.scaleMidi
      {| Processor.root := scaleRoot; Processor.intervals := scaleIntervals |}
      midi
  /\ 0 <= PitchUtils.snapMidi midi scaleRoot scaleIntervals
  /\ PitchUtils.noteClassOf
       (PitchUtils.snapMidi midi scaleRoot scaleIntervals) scaleRoot
     ∈ scaleIntervals
  /\ PitchUtils.snapMidi
       (PitchUtils.snapMidi midi scaleRoot scaleIntervals)
       scaleRoot scaleIntervals
     = PitchUtils.snapMidi midi scaleRoot scaleIntervals.
Proof.
  intros Hm Hr Hne Hl.
  split; [apply snapMidi_scaleMidi; assumption|].
  rewrite (snapMidi_scaleMidi midi scaleRoot scaleIntervals Hm Hr Hne Hl).
  assert (Hpos_class :
    0 <= Processor.scaleMidi
           {| Processor.root := scaleRoot;
              Processor.intervals := scaleIntervals |} midi
    /\ PitchUtils.noteClassOf
         (Processor.scaleMidi
            {| Processor.root := scaleRoot;
               Processor.intervals := scaleIntervals |} midi) scaleRoot
       ∈ scaleIntervals).
  { unfold Processor.scaleMidi. cbn [Processor.root Processor.intervals].
    destruct (PitchUtils.includes scaleIntervals
                (PitchUtils.noteClassOf midi scaleRoot)) eqn:Hin.
    - split; [exact Hm|]. apply includes_spec. exact Hin.
    - destruct (noteClassOf_range midi scaleRoot Hm Hr) as [Hc _].
      pose proof (nearest_in_intervals _ scaleIntervals Hc Hne Hl) as Hnear.
      set (r := Processor.nearestScaleInterval
                  (PitchUtils.noteClassOf midi scaleRoot) scaleIntervals) in *.
      pose proof (Hl r Hnear) as Hrb.
      assert (Hq : 0 <= midi / 12) by (apply Z.div_pos; lia).
      assert (Ht : 0 <= midi / 12 * 12 + scaleRoot + r) by lia.
      split; [exact Ht|].
      destruct (noteClassOf_range (midi / 12 * 12 + scaleRoot + r) scaleRoot
                  Ht Hr) as [_ ->].
      replace (midi / 12 * 12 + scaleRoot + r - scaleRoot)
        with (r + midi / 12 * 12) by lia.
      rewrite Z_mod_plus_full, Z.mod_small by lia. exact Hnear. }
  destruct Hpos_class as [Hpos Hclass].
  split; [exact Hpos|]. split; [exact Hclass|].
  apply (snap_in_scale _ scaleRoot scaleIntervals Hclass).
Qed.

Lemma snap_lands_on_scale_witness :
  PitchUtils.noteClassOf (PitchUtils.snapMidi 61 7 majorIntervals) 7
  ∈ majorIntervals.
Proof.
  apply (snap_lands_on_scale 61 7 majorIntervals).
  - lia.
  - lia.
  - discriminate.
  - intros i Hi. unfold majorIntervals in Hi.
    repeat (apply elem_of_cons in Hi; destruct Hi as [->|Hi]; [lia|]).
    inversion Hi.
Defined.

(** Property X16.
    How a note outside the scale is snapped.  The scale case rebuilds the
    note from the octave of the detected note, the root and one of the
    intervals; that interval is at the least circular distance from the
    pitch class, and every interval before it in the configured order is
    strictly farther (the first of the nearest wins). *)
Theorem snap_takes_first_nearest sc midi :
  0 <= midi -> 0 <= Processor.root sc < 12 ->
  (forall i, i ∈ Processor.intervals sc -> 0 <= i < 12) ->
  PitchUtils.noteClassOf midi (Processor.root sc) ∉ Processor.intervals sc ->
  Processor.intervals sc <> [] ->
  exists pre r post,
    Processor.intervals sc = pre ++ r :: post
    /\ Processor.scaleMidi sc midi = midi / 12 * 12 + Processor.root sc + r
    /\ (forall i, i ∈ pre ->
          PitchUtils.circularDistance
            (PitchUtils.noteClassOf midi (Processor.root sc)) r
          < PitchUtils.circularDistance
              (PitchUtils.noteClassOf midi (Processor.root sc)) i)
    /\ (forall i, i ∈ post ->
          PitchUtils.circularDistance
            (PitchUtils.noteClassOf midi (Processor.root sc)) r
          <= PitchUtils.circularDistance
               (PitchUtils.noteClassOf midi (Processor.root sc)) i).
Proof.
  intros Hm Hr Hl Hout Hne.
  destruct (noteClassOf_range midi (Processor.root sc) Hm Hr) as [Hc _].
  destruct (nearest_first_minimum _ (Processor.intervals sc) Hne
              (intervals_distance_bound _ _ Hc Hl))
    as (pre & post & Heq & Hpre & Hpost).
  exists pre, (Processor.nearestScaleInterval
                 (PitchUtils.noteClassOf midi (Processor.root sc))
                 (Processor.intervals sc)), post.
  split; [exact Heq|]. split; [|split; assumption].
  unfold Processor.scaleMidi.
  destruct (PitchUtils.includes _ _) eqn:Hin; [|reflexivity].
  apply includes_spec in Hin. contradiction.
Qed.

Lemma snap_takes_first_nearest_witness :
  exists pre r post,
    Processor.intervals gMajor = pre ++ r :: post
    /\ Processor.scaleMidi gMajor 61 = 61 / 12 * 12 + Processor.root gMajor + r
    /\ (forall i, i ∈ pre ->
          PitchUtils.circularDistance
            (PitchUtils.noteClassOf 61 (Processor.root gMajor)) r
          < PitchUtils.circularDistance
              (PitchUtils.noteClassOf 61 (Processor.root gMajor)) i)
    /\ (forall i, i ∈ post ->
          PitchUtils.circularDistance
            (PitchUtils.noteClassOf 61 (Processor.root gMajor)) r
          <= PitchUtils.circularDistance
               (PitchUtils.noteClassOf 61 (Processor.root gMajor)) i).
Proof.
  apply (snap_takes_first_nearest gMajor 61).
  - lia.
  - simpl. lia.
  - intros i Hi. simpl in Hi. unfold majorIntervals in Hi.
    repeat (apply elem_of_cons in Hi; destruct Hi as [->|Hi]; [lia|]).
    inversion Hi.
  - intros Hin. apply includes_spec in Hin. vm_compute in Hin. discriminate.
  - discriminate.
Defined.

(** ** The counters of the ring buffer *)

Section RingBufferCounters.
Context {A : Type}.
Variable zero : A.

(** Property X18.
    The bookkeeping of [write].  After any sequence of calls of [write]
    on a new ring buffer of [size] samples, [getAvailable] is the number
    of samples written, capped at [size]; the cursor is that number
    modulo [size]; the ring still uses the array the constructor
    allocated, of [size] samples; and every other array of the heap is
    as it was before the ring buffer was made. *)
Theorem write_bookkeeping h0 (size : Z) (writes : list (list A)) :
  0 < size ->
  let s0 := RingBuffer_new zero h0 size in
  let s := writes_from s0 writes in
  let total := Z.of_nat (length (concat writes)) in
  getAvailable s = Z.min total size
  /\ writeIndex (snd s) = total mod size
  /\ buffer (snd s) = buffer (snd s0)
  /\ capacity s = Z.to_nat size
  /\ forall a, fst s !! a = if decide (a = buffer (snd s0))
                           then Some (arr_contents (fst s) a)
                           else h0 !! a.
Proof.
  intros Hsize s0 s total.
  pose proof (writes_repr s0 [] writes (RingBuffer_new_repr zero h0 size Hsize))
    as (l & Hl & Hpos & Hwi & Hav & _).
  pose proof (writes_capacity s0 writes) as Hcap.
  unfold s0 in Hcap at 2. rewrite RingBuffer_new_capacity in Hcap.
  fold s in Hl, Hwi, Hav, Hcap. simpl in Hwi, Hav.
  assert (Hlen : Z.of_nat (length l) = size).
  { unfold capacity, arr_contents in Hcap. rewrite Hl in Hcap. simpl in Hcap.
    lia. }
  assert (Hframe : buffer (snd s) = buffer (snd s0)
                   /\ forall a, a <> buffer (snd s0) ->
                        fst s !! a = fst s0 !! a).
  { unfold s. generalize s0. clear.
    induction writes as [|d ws IH]; intros s0; [split; reflexivity|].
    change (writes_from s0 (d :: ws)) with (writes_from (write s0 d) ws).
    destruct (IH (write s0 d)) as [Hb Hf].
    destruct (write_frame s0 d) as [Hb1 Hf1].
    split; [congruence|].
    intros a Ha. rewrite Hf by congruence. apply Hf1. exact Ha. }
  destruct Hframe as [Hbuf Hframe].
  unfold getAvailable. rewrite Hav, Hwi, Hlen.
  repeat split; try assumption.
  intros a. destruct (decide (a = buffer (snd s0))) as [->|Hne].
  - rewrite <- Hbuf. unfold arr_contents. rewrite Hl. reflexivity.
  - rewrite Hframe by exact Hne.
    unfold s0, RingBuffer_new, arr_new. simpl.
    apply lookup_insert_ne. intros Heq. apply Hne.
    unfold s0, RingBuffer_new, arr_new. simpl. congruence.
Qed.

End RingBufferCounters.

Lemma write_bookkeeping_witness :
  getAvailable
    (writes_from (RingBuffer_new 0 (∅ : gmap loc (list Z)) 4)
                 [[1; 2; 3]; [4; 5; 6]]) = 4
  /\ writeIndex
       (snd (writes_from (RingBuffer_new 0 (∅ : gmap loc (list Z)) 4)
                         [[1; 2; 3]; [4; 5; 6]])) = 2.
Proof.
  destruct (write_bookkeeping 0 (∅ : gmap loc (list Z)) 4
              [[1; 2; 3]; [4; 5; 6]] ltac:(lia)) as (H1 & H2 & _).
  split; [exact H1|exact H2].
Defined.

(** ** The smoothing block as a tracker *)

Lemma pitch0_setSmoothed v pitch conf :
  (0 < length (Processor.smoothedPitches v))%nat ->
  Processor.pitch0 (Processor.setSmoothed v pitch conf) = pitch.
Proof.
  intros Hlen. unfold Processor.pitch0, Processor.setSmoothed. simpl.
  rewrite list_lookup_insert_eq by exact Hlen. reflexivity.
Qed.

Lemma confidence0_setSmoothed v pitch conf :
  (0 < length (Processor.smoothedConfidences v))%nat ->
  Processor.confidence0 (Processor.setSmoothed v pitch conf) = conf.
Proof.
  intros Hlen. unfold Processor.confidence0, Processor.setSmoothed. simpl.
  rewrite list_lookup_insert_eq by exact Hlen. reflexivity.
Qed.

Lemma accepted_positive cfg freq conf :
  Processor.accepted cfg freq conf = true ->
  (freq = PInf \/ exists f, freq = Fin f /\ (0 < f)%R)
  /\ (conf = PInf
      \/ exists q, conf = Fin q
                   /\ (Processor.confidenceThreshold cfg * 0.5 < q)%R).
Proof.
  unfold Processor.accepted, Js.gt. intros H.
  apply andb_true_iff in H. destruct H as [Hf Hc]. split.
  - destruct freq as [f| | |]; cbn [Js.lt] in Hf; try discriminate.
    + right. exists f. split; [reflexivity|]. apply rlt_spec. exact Hf.
    + left. reflexivity.
  - destruct conf as [q| | |]; cbn [Js.lt] in Hc; try discriminate.
    + right. exists q. split; [reflexivity|]. apply rlt_spec. exact Hc.
    + left. reflexivity.
Qed.

Lemma convex_between (a b alpha lo hi : R) :
  (0 <= alpha <= 1)%R -> (lo <= a <= hi)%R -> (lo <= b <= hi)%R ->
  (lo <= a * alpha + b * (1 - alpha) <= hi)%R.
Proof. intros Ha Hx Hy. split; nra. Qed.

(** Property X19.
    The smoothed confidence is a confidence.  With a smoothing factor in
    [0, 1], a smoothed confidence in [0, 1] and an estimate whose
    confidence is in [0, 1] or [NaN] (what [detect] returns), one hop of
    the smoothing block leaves a smoothed confidence in [0, 1], the same
    in the two processors, whatever the frequencies are. *)
Theorem smoothed_confidence_unit cfg v c freq conf :
  (0 <= Processor.stabilitySmoothing cfg <= 1)%R ->
  Processor.smoothedConfidences v !! 0%nat = Some (Fin c) ->
  (0 <= c <= 1)%R ->
  Yin.unitOrNaN conf ->
  exists c',
    Processor.confidence0 (Processor.smoothingYin cfg v freq conf) = Fin c'
    /\ Processor.confidence0 (Processor.smoothingFft cfg v freq conf) = Fin c'
    /\ (0 <= c' <= 1)%R.
Proof.
  intros Ha Hc Hcu Hconf.
  assert (Hlen : (0 < length (Processor.smoothedConfidences v))%nat)
    by (apply lookup_lt_Some in Hc; exact Hc).
  assert (Hc0 : Processor.confidence0 v = Fin c)
    by (unfold Processor.confidence0; rewrite Hc; reflexivity).
  unfold Processor.smoothingYin, Processor.smoothingFft.
  destruct (Processor.accepted cfg freq conf) eqn:Hacc.
  - destruct Hconf as [->|(q & -> & Hq)];
      [rewrite accepted_nan_confidence in Hacc; discriminate|].
    destruct (Processor.nearPrevious freq (Processor.pitch0 v)).
    + rewrite !confidence0_setSmoothed by exact Hlen.
      rewrite Hc0. unfold Processor.blend. cbn [Js.mul Js.add].
      eexists. split; [reflexivity|]. split; [reflexivity|].
      apply convex_between; assumption.
    + rewrite !confidence0_setSmoothed by exact Hlen. cbn [Js.mul].
      eexists. split; [reflexivity|]. split; [reflexivity|]. lra.
  - unfold Processor.decay. rewrite confidence0_setSmoothed by exact Hlen.
    rewrite Hc0. cbn [Js.mul].
    eexists. split; [reflexivity|]. split; [reflexivity|]. lra.
Qed.

Lemma smoothed_confidence_unit_witness :
  exists c',
    Processor.confidence0
      (Processor.smoothingYin defaultConfig fadingVoice (Fin 440) (Fin 1))
    = Fin c'
    /\ Processor.confidence0
         (Processor.smoothingFft defaultConfig fadingVoice (Fin 440) (Fin 1))
       = Fin c'
    /\ (0 <= c' <= 1)%R.
Proof.
  apply (smoothed_confidence_unit defaultConfig fadingVoice 0.05
           (Fin 440) (Fin 1)).
  - simpl. lra.
  - reflexivity.
  - lra.
  - right. exists 1%R. split; [reflexivity|lra].
Defined.

(** Property X20.
    The tracked pitch of the first processor stays in the detector's
    band.  With a smoothing factor in [0, 1], a tracked pitch that is 0
    or in the band and an estimate whose frequency is 0 or in the band
    (what [detect] returns), the tracked pitch after one hop is again 0
    or in the band. *)
Theorem yin_tracked_pitch_in_band cfg v freq conf :
  (0 <= Processor.stabilitySmoothing cfg <= 1)%R ->
  (0 < length (Processor.smoothedPitches v))%nat ->
  Yin.zeroOrInBand (Processor.pitch0 v) ->
  Yin.zeroOrInBand freq ->
  Yin.zeroOrInBand
    (Processor.pitch0 (Processor.smoothingYin cfg v freq conf)).
Proof.
  intros Ha Hlen Hp Hf. unfold Processor.smoothingYin.
  destruct (Processor.accepted cfg freq conf) eqn:Hacc.
  - apply accepted_positive in Hacc. destruct Hacc as [Hpos _].
    assert (Hband : exists f, freq = Fin f
              /\ (Yin.MIN_FREQUENCY <= f <= Yin.MAX_FREQUENCY)%R).
    { destruct Hf as [->|Hf]; [|exact Hf].
      destruct Hpos as [Hinf|(f & Hf & Hlt)]; [discriminate|].
      injection Hf as <-. lra. }
    destruct (Processor.nearPrevious freq (Processor.pitch0 v));
      rewrite pitch0_setSmoothed by exact Hlen; [|right; exact Hband].
    destruct (Js.eq (Processor.pitch0 v) (Fin 0)) eqn:Hz;
      [right; exact Hband|].
    destruct Hp as [Hp|(p & Hp & Hpb)].
    + rewrite Hp in Hz. cbn [Js.eq] in Hz.
      rewrite req_true in Hz by reflexivity. discriminate.
    + destruct Hband as (f & -> & Hfb). rewrite Hp.
      unfold Processor.blend. cbn [Js.mul Js.add].
      right. eexists. split; [reflexivity|].
      apply convex_between; assumption.
  - unfold Processor.decay. rewrite pitch0_setSmoothed by exact Hlen.
    destruct (Js.lt _ _); [left; reflexivity|exact Hp].
Qed.

Lemma yin_tracked_pitch_in_band_witness :
  Yin.zeroOrInBand
    (Processor.pitch0
       (Processor.smoothingYin defaultConfig fadingVoice (Fin 450) (Fin 1))).
Proof.
  apply (yin_tracked_pitch_in_band defaultConfig fadingVoice
           (Fin 450) (Fin 1)).
  - simpl. lra.
  - simpl. lia.
  - right. exists 440%R. split; [reflexivity|].
    unfold Yin.MIN_FREQUENCY, Yin.MAX_FREQUENCY. lra.
  - right. exists 450%R. split; [reflexivity|].
    unfold Yin.MIN_FREQUENCY, Yin.MAX_FREQUENCY. lra.
Defined.

(** Property X21.
    The first detection in the two processors.  On a voice whose tracked
    pitch is 0, an accepted estimate of frequency [f] makes the first
    processor track [f] itself, while the second blends it with the 0:
    it tracks [f * (1 - stabilitySmoothing)]. *)
Theorem first_detection_differs cfg v f conf :
  Processor.pitch0 v = Fin 0 ->
  Processor.accepted cfg (Fin f) conf = true ->
  Processor.pitch0 (Processor.smoothingYin cfg v (Fin f) conf) = Fin f
  /\ Processor.pitch0 (Processor.smoothingFft cfg v (Fin f) conf)
     = Fin (f * (1 - Processor.stabilitySmoothing cfg)).
Proof.
  intros Hp Hacc.
  assert (Hlen : (0 < length (Processor.smoothedPitches v))%nat).
  { unfold Processor.pitch0 in Hp.
    destruct (Processor.smoothedPitches v) as [|x l]; [discriminate|].
    simpl. lia. }
  unfold Processor.smoothingYin, Processor.smoothingFft.
  rewrite Hacc, Hp. unfold Processor.nearPrevious. cbn [Js.eq].
  rewrite req_true by reflexivity. cbn [orb].
  rewrite !pitch0_setSmoothed by exact Hlen.
  split; [reflexivity|].
  unfold Processor.blend. cbn [Js.mul Js.add]. f_equal. lra.
Qed.

Lemma first_detection_differs_witness :
  Processor.pitch0
    (Processor.smoothingYin defaultConfig Processor.Voices_new
       (Fin 440) (Fin 1)) = Fin 440
  /\ Processor.pitch0
       (Processor.smoothingFft defaultConfig Processor.Voices_new
          (Fin 440) (Fin 1))
     = Fin (440 * (1 - Processor.stabilitySmoothing defaultConfig)).
Proof.
  apply (first_detection_differs defaultConfig Processor.Voices_new 440
           (Fin 1)).
  - reflexivity.
  - unfold Processor.accepted, Js.gt. cbn [Js.lt]. simpl.
    rewrite !rlt_true by lra. reflexivity.
Defined.

(** Property X22.
    Silence never feeds the tracker.  For a detector whose shortest lag
    is at least 1, the estimate [detect] returns on a window of zeros is
    rejected by the smoothing block whatever the configuration is, so the
    hop takes the decay branch in both processors' text of the block. *)
Theorem silence_is_rejected cfg d n v :
  2 * Yin.halfBuffer d <= Z.of_nat n ->
  1 <= Yin.minPeriod d ->
  Processor.accepted cfg
    (Yin.frequency (Yin.detect d (replicate n (Fin 0))))
    (Yin.confidence (Yin.detect d (replicate n (Fin 0)))) = false
  /\ Processor.smoothingYin cfg v
       (Yin.frequency (Yin.detect d (replicate n (Fin 0))))
       (Yin.confidence (Yin.detect d (replicate n (Fin 0))))
     = Processor.decay v.
Proof.
  intros Hn Hmin.
  assert (Hrej : Processor.accepted cfg
            (Yin.frequency (Yin.detect d (replicate n (Fin 0))))
            (Yin.confidence (Yin.detect d (replicate n (Fin 0)))) = false).
  { rewrite (detect_silent d n Hn Hmin).
    destruct (Yin.outOfBand _); cbn [Yin.frequency Yin.confidence
                                     Yin.noDetection].
    - apply accepted_zero_frequency.
    - apply accepted_nan_confidence. }
  split; [exact Hrej|].
  apply (smoothing_rejected cfg v _ _ Hrej).
Qed.

Lemma silence_is_rejected_witness :
  Processor.smoothingYin defaultConfig fadingVoice
    (Yin.frequency (Yin.detect detector48k silentWindow))
    (Yin.confidence (Yin.detect detector48k silentWindow))
  = Processor.decay fadingVoice.
Proof.
  destruct detector48k_fields as (Hh & Hm & _).
  apply (silence_is_rejected defaultConfig detector48k
           (Z.to_nat Yin.BUFFER_SIZE) fadingVoice).
  - rewrite Hh. unfold Yin.BUFFER_SIZE. lia.
  - rewrite Hm. lia.
Defined.

(** ** Pitch detection of the second processor *)

Lemma insertSorted_elem {A : Type} (compare : A -> A -> R) x y (l : list A) :
  y ∈ insertSorted compare x l <-> y = x \/ y ∈ l.
Proof.
  induction l as [|z l IH]; simpl.
  - rewrite list_elem_of_singleton. split; [intros ->; left; reflexivity|].
    intros [->|H]; [reflexivity|inversion H].
  - destruct (rlt 0 (compare x z)).
    + rewrite !elem_of_cons, IH. tauto.
    + rewrite !elem_of_cons. tauto.
Qed.

Lemma sort_elem {A : Type} (compare : A -> A -> R) y (l : list A) :
  y ∈ sort compare l <-> y ∈ l.
Proof.
  induction l as [|x l IH]; simpl; [reflexivity|].
  rewrite insertSorted_elem, elem_of_cons, IH. reflexivity.
Qed.

Lemma insertSorted_length {A : Type} (compare : A -> A -> R) x (l : list A) :
  length (insertSorted compare x l) = S (length l).
Proof.
  induction l as [|z s IH]; simpl; [reflexivity|].
  destruct (rlt 0 (compare x z)); simpl; [rewrite IH|]; reflexivity.
Qed.

Lemma sort_length {A : Type} (compare : A -> A -> R) (l : list A) :
  length (sort compare l) = length l.
Proof.
  induction l as [|x l IH]; simpl; [reflexivity|].
  rewrite insertSorted_length, IH. reflexivity.
Qed.

(** The first element after the sort of the peaks is one of the
    strongest. *)
Lemma strongestFirst_head peaks best rest :
  Fft.strongestFirst peaks = best :: rest ->
  best ∈ peaks /\ forall p, p ∈ peaks -> (Fft.mag p <= Fft.mag best)%R.
Proof.
  intros Hs. split.
  - apply (sort_elem (fun a b => (Fft.mag b - Fft.mag a)%R)).
    unfold Fft.strongestFirst in Hs. rewrite Hs. apply list_elem_of_here.
  - revert best rest Hs. unfold Fft.strongestFirst.
    induction peaks as [|x l IH]; intros best rest Hs p Hp;
      [inversion Hp|].
    simpl in Hs.
    destruct (sort (fun a b => (Fft.mag b - Fft.mag a)%R) l) as [|y s] eqn:Hl.
    + simpl in Hs. injection Hs as <- <-.
      assert (Hnil : l = []).
      { destruct l as [|z l']; [reflexivity|].
        apply (f_equal length) in Hl. rewrite sort_length in Hl.
        discriminate. }
      subst l. apply elem_of_cons in Hp. destruct Hp as [->|Hp];
        [lra|inversion Hp].
    + simpl in Hs.
      destruct (rlt 0 (Fft.mag y - Fft.mag x)) eqn:Hc.
      * injection Hs as <- <-. apply rlt_spec in Hc.
        apply elem_of_cons in Hp. destruct Hp as [->|Hp]; [lra|].
        apply (IH y s eq_refl p Hp).
      * injection Hs as <- <-.
        assert (Hyx : (Fft.mag y <= Fft.mag x)%R).
        { unfold rlt in Hc. destruct (Rlt_dec _ _); [discriminate|lra]. }
        apply elem_of_cons in Hp. destruct Hp as [->|Hp]; [lra|].
        pose proof (IH y s eq_refl p Hp). lra.
Qed.

Lemma findPeaks_elem magnitudes lo hi noise p :
  p ∈ Fft.findPeaks magnitudes lo hi noise ->
  lo < Fft.bin p < hi - 1
  /\ Fft.magAt magnitudes (Fft.bin p) = Some (Fft.mag p)
  /\ Fft.above (Some (Fft.mag p)) (Fft.magAt magnitudes (Fft.bin p - 1))
     = true
  /\ Fft.above (Some (Fft.mag p)) (Fft.magAt magnitudes (Fft.bin p + 1))
     = true
  /\ (noise * 3 < Fft.mag p)%R.
Proof.
  unfold Fft.findPeaks. intros Hp.
  apply list_elem_of_omap in Hp. destruct Hp as (i & Hi & Hpeak).
  apply range_elem in Hi. unfold Fft.peakAt in Hpeak.
  destruct (Fft.magAt magnitudes i) as [m|] eqn:Hm; [|discriminate].
  destruct (_ && _ && _) eqn:Hc; [|discriminate].
  injection Hpeak as <-. simpl.
  apply andb_true_iff in Hc. destruct Hc as [Hc H3].
  apply andb_true_iff in Hc. destruct Hc as [H1 H2].
  apply rlt_spec in H3.
  repeat split; (lia || assumption).
Qed.

Lemma refinedBin_near magnitudes bestBin :
  (Rabs (Fft.refinedBin magnitudes bestBin - IZR bestBin) < 0.5)%R.
Proof.
  assert (H0 : (Rabs (IZR bestBin - IZR bestBin) < 0.5)%R).
  { replace (IZR bestBin - IZR bestBin)%R with 0%R by lra.
    rewrite Rabs_R0. lra. }
  unfold Fft.refinedBin.
  destruct (_ && _); [|exact H0].
  destruct (Fft.magAt magnitudes (bestBin - 1)); [|exact H0].
  destruct (Fft.magAt magnitudes bestBin); [|exact H0].
  destruct (Fft.magAt magnitudes (bestBin + 1)); [|exact H0].
  cbv zeta. destruct (rlt 1e-10 _); [|exact H0].
  destruct (rlt (Rabs _) 0.5) eqn:Hp; [|exact H0].
  apply rlt_spec in Hp.
  match goal with |- (Rabs (?a + ?p - ?a) < _)%R =>
    replace (a + p - a)%R with p by lra end.
  exact Hp.
Qed.

Lemma confidenceOf_unit bestMag noise :
  (0 <= Fft.confidenceOf bestMag noise <= 1)%R.
Proof.
  unfold Fft.confidenceOf, Rmin, Rmax.
  repeat (destruct (Rle_dec _ _)); lra.
Qed.

Lemma slice_elem {A : Type} (l : list A) from to x :
  x ∈ slice l from to -> x ∈ l.
Proof.
  unfold slice. intros H.
  apply elem_of_take in H. destruct H as (i & H & _).
  rewrite lookup_drop in H. apply (list_elem_of_lookup_2 _ _ _ H).
Qed.

Lemma noiseFloor_positive magnitudes lo hi :
  Forall (fun x => (0 <= x)%R) magnitudes ->
  (0 < Fft.noiseFloor magnitudes lo hi)%R.
Proof.
  intros Hpos. unfold Fft.noiseFloor. cbv zeta.
  destruct (_ !! _) as [x|] eqn:Hx; [|lra].
  unfold req. destruct (Req_dec_T x 0); [lra|].
  apply list_elem_of_lookup_2 in Hx. apply sort_elem in Hx.
  apply slice_elem in Hx.
  rewrite Forall_forall in Hpos. pose proof (Hpos x Hx). lra.
Qed.

(** Property X25.
    [detectPitch] reports nothing or a pitch of its band.  At a positive
    sample rate and for any magnitudes, the result is the pair (0, 0) or
    a frequency between [MIN_FREQUENCY] and [MAX_FREQUENCY] with a
    confidence between 0 and 1. *)
Theorem detectPitch_band_or_nothing sampleRate magnitudes :
  (0 < sampleRate)%R ->
  Fft.detectPitch sampleRate magnitudes = (0%R, 0%R)
  \/ (Fft.MIN_FREQUENCY <= fst (Fft.detectPitch sampleRate magnitudes)
      <= Fft.MAX_FREQUENCY)%R
     /\ (0 <= snd (Fft.detectPitch sampleRate magnitudes) <= 1)%R.
Proof.
  intros _. unfold Fft.detectPitch. cbv zeta.
  destruct (_ <=? _); [left; reflexivity|].
  destruct (Fft.strongestFirst _) as [|best rest]; [left; reflexivity|].
  destruct (rlt _ Fft.MIN_FREQUENCY) eqn:H1; [left; reflexivity|].
  destruct (rlt Fft.MAX_FREQUENCY _) eqn:H2; [left; reflexivity|].
  right. cbn [orb fst snd]. split; [|apply confidenceOf_unit].
  unfold rlt in H1, H2.
  destruct (Rlt_dec _ Fft.MIN_FREQUENCY); [discriminate|].
  destruct (Rlt_dec Fft.MAX_FREQUENCY _); [discriminate|]. lra.
Qed.

Lemma detectPitch_band_or_nothing_witness :
  Fft.detectPitch 48000 [] = (0%R, 0%R)
  \/ (Fft.MIN_FREQUENCY <= fst (Fft.detectPitch 48000 [])
      <= Fft.MAX_FREQUENCY)%R
     /\ (0 <= snd (Fft.detectPitch 48000 []) <= 1)%R.
Proof. apply (detectPitch_band_or_nothing 48000 []). lra. Defined.

(** Property X26.
    What a detection of [detectPitch] is.  A reported frequency other
    than 0 comes from a bin strictly inside the band that holds a strict
    local maximum above three times the noise floor; no peak of the band
    is stronger; the frequency is less than half a bin away from that
    bin; and with magnitudes that are not negative, as [computeFFT]
    leaves them, the confidence is positive. *)
Theorem detectPitch_strongest_peak sampleRate magnitudes :
  (0 < sampleRate)%R ->
  fst (Fft.detectPitch sampleRate magnitudes) <> 0%R ->
  let lo := Fft.minBin sampleRate in
  let hi := Fft.maxBin sampleRate magnitudes in
  let noise := Fft.noiseFloor magnitudes lo hi in
  exists best,
    best ∈ Fft.findPeaks magnitudes lo hi noise
    /\ lo < Fft.bin best < hi - 1
    /\ Fft.magAt magnitudes (Fft.bin best) = Some (Fft.mag best)
    /\ Fft.above (Some (Fft.mag best))
         (Fft.magAt magnitudes (Fft.bin best - 1)) = true
    /\ Fft.above (Some (Fft.mag best))
         (Fft.magAt magnitudes (Fft.bin best + 1)) = true
    /\ (noise * 3 < Fft.mag best)%R
    /\ (forall p, p ∈ Fft.findPeaks magnitudes lo hi noise ->
          (Fft.mag p <= Fft.mag best)%R)
    /\ (Rabs (fst (Fft.detectPitch sampleRate magnitudes)
              - IZR (Fft.bin best) * Fft.binWidth sampleRate)
        < 0.5 * Fft.binWidth sampleRate)%R
    /\ snd (Fft.detectPitch sampleRate magnitudes)
       = Fft.confidenceOf (Fft.mag best) noise
    /\ (Forall (fun x => (0 <= x)%R) magnitudes ->
        (0 < snd (Fft.detectPitch sampleRate magnitudes))%R).
Proof.
  intros Hsr Hf lo hi noise. revert Hf.
  unfold Fft.detectPitch. cbv zeta. fold lo hi noise.
  destruct (hi <=? lo); [simpl; intros H; contradiction H; reflexivity|].
  destruct (Fft.strongestFirst _) as [|best rest] eqn:Hs;
    [simpl; intros H; contradiction H; reflexivity|].
  destruct (_ || _); [simpl; intros H; contradiction H; reflexivity|].
  cbn [fst snd]. intros _.
  destruct (strongestFirst_head _ _ _ Hs) as [Hin Hmax].
  destruct (findPeaks_elem _ _ _ _ _ Hin) as (Hb & Hm & Ha & Hg & Hn).
  exists best. repeat (split; [assumption|]).
  assert (Hbw : (0 < Fft.binWidth sampleRate)%R).
  { unfold Fft.binWidth, Fft.FFT_SIZE. apply Rdiv_lt_0_compat; lra. }
  split; [|split; [reflexivity|]].
  - rewrite <- Rmult_minus_distr_r, Rabs_mult.
    rewrite (Rabs_pos_eq (Fft.binWidth sampleRate)) by lra.
    apply Rmult_lt_compat_r; [exact Hbw|apply refinedBin_near].
  - intros Hpos.
    pose proof (noiseFloor_positive magnitudes lo hi Hpos) as Hnf.
    fold noise in Hnf.
    assert (Hsnr : (3 < Fft.mag best / noise)%R).
    { apply (Rmult_lt_reg_r noise); [exact Hnf|].
      replace (Fft.mag best / noise * noise)%R with (Fft.mag best)
        by (field; lra).
      lra. }
    unfold Fft.confidenceOf, Rmin, Rmax.
    repeat (destruct (Rle_dec _ _)); lra.
Qed.

(** Property X27.
    A flat spectrum has no pitch.  When all the bins hold the same
    magnitude (silence is the case of 0), [detectPitch] finds no peak and
    returns the pair (0, 0): a number for the confidence, where the
    detector of the first processor returns [NaN] on silence. *)
Theorem detectPitch_flat sampleRate (n : nat) (x : R) :
  (0 < sampleRate)%R ->
  Fft.detectPitch sampleRate (replicate n x) = (0%R, 0%R).
Proof.
  intros _. unfold Fft.detectPitch. cbv zeta.
  destruct (_ <=? _); [reflexivity|].
  destruct (Fft.strongestFirst _) as [|best rest] eqn:Hs; [reflexivity|].
  exfalso.
  destruct (strongestFirst_head _ _ _ Hs) as [Hin _].
  destruct (findPeaks_elem _ _ _ _ _ Hin) as (_ & Hm & Ha & _).
  unfold Fft.magAt in Hm, Ha.
  destruct (0 <=? Fft.bin best); [|discriminate].
  apply lookup_replicate in Hm. destruct Hm as [Hm _].
  destruct (0 <=? Fft.bin best - 1); [|discriminate].
  destruct (replicate n x !! _) as [y|] eqn:Hy; [|discriminate].
  apply lookup_replicate in Hy. destruct Hy as [-> _].
  simpl in Ha. rewrite Hm in Ha. rewrite rlt_false in Ha by lra.
  discriminate.
Qed.

Lemma detectPitch_flat_witness :
  Fft.detectPitch 48000 (replicate 2048 0%R) = (0%R, 0%R).
Proof. apply (detectPitch_flat 48000 2048 0). lra. Defined.

Lemma bins_48k :
  Fft.minBin 48000 = 7 /\ Fft.maxBin 48000 peakSpectrum = 11.
Proof.
  unfold Fft.minBin, Fft.maxBin, Fft.binWidth, Fft.MIN_FREQUENCY,
    Fft.MAX_FREQUENCY, Fft.FFT_SIZE. split.
  - apply Zceil_eq. lra.
  - assert (H : Zfloor (4000 / (48000 / 4096)) = 341)
      by (apply Zfloor_eq; lra).
    rewrite H. reflexivity.
Qed.

Lemma insertSorted_first {A : Type} (compare : A -> A -> R) x y (l : list A) :
  (compare x y <= 0)%R -> insertSorted compare x (y :: l) = x :: y :: l.
Proof. intros H. simpl. rewrite rlt_false by exact H. reflexivity. Qed.

Lemma insertSorted_later {A : Type} (compare : A -> A -> R) x y (l : list A) :
  (0 < compare x y)%R ->
  insertSorted compare x (y :: l) = y :: insertSorted compare x l.
Proof. intros H. simpl. rewrite rlt_true by exact H. reflexivity. Qed.

Lemma noiseFloor_peakSpectrum : Fft.noiseFloor peakSpectrum 7 11 = 1%R.
Proof.
  unfold Fft.noiseFloor.
  assert (Hs : slice peakSpectrum 7 11 = [1; 1; 100; 1]%R) by reflexivity.
  rewrite Hs.
  assert (Hsort : sort (fun a b : R => (a - b)%R) [1; 1; 100; 1]%R
                  = [1; 1; 1; 100]%R).
  { unfold sort. cbn [foldr]. change (insertSorted _ 1%R []) with [1%R].
    rewrite (insertSorted_later _ 100%R 1%R) by lra.
    change (insertSorted _ 100%R []) with [100%R].
    rewrite !insertSorted_first by lra. reflexivity. }
  cbv zeta. rewrite Hsort.
  match goal with
  | |- match ?t with _ => _ end = _ => change t with (Some 1%R)
  end.
  cbv beta iota. rewrite req_false by lra. reflexivity.
Qed.

Lemma findPeaks_peakSpectrum :
  Fft.findPeaks peakSpectrum 7 11 1
  = [{| Fft.bin := 9; Fft.mag := 100 |}].
Proof.
  unfold Fft.findPeaks.
  change (range (7 + 1) (11 - 1)) with [8; 9].
  cbn [omap list_omap]. unfold Fft.peakAt.
  change (Fft.magAt peakSpectrum 8) with (Some 1%R).
  change (Fft.magAt peakSpectrum (8 - 1)) with (Some 1%R).
  change (Fft.magAt peakSpectrum (8 + 1)) with (Some 100%R).
  change (Fft.magAt peakSpectrum 9) with (Some 100%R).
  change (Fft.magAt peakSpectrum (9 - 1)) with (Some 1%R).
  change (Fft.magAt peakSpectrum (9 + 1)) with (Some 1%R).
  cbn [Fft.above].
  rewrite (rlt_false 1 1) by lra. rewrite (rlt_true 1 100) by lra.
  rewrite (rlt_true (1 * 3) 100) by lra. reflexivity.
Qed.

Lemma detectPitch_peakSpectrum :
  Fft.detectPitch 48000 peakSpectrum = ((9 + 0) * Fft.binWidth 48000, 1)%R.
Proof.
  unfold Fft.detectPitch. cbv zeta.
  destruct bins_48k as [-> ->].
  change (11 <=? 7) with false. cbv iota.
  rewrite noiseFloor_peakSpectrum, findPeaks_peakSpectrum.
  change (Fft.strongestFirst [{| Fft.bin := 9; Fft.mag := 100 |}])
    with [{| Fft.bin := 9; Fft.mag := 100 |}].
  cbn [Fft.bin Fft.mag].
  assert (Hr : Fft.refinedBin peakSpectrum 9 = (9 + 0)%R).
  { unfold Fft.refinedBin.
    change ((0 <? 9) && (9 <? Z.of_nat (length peakSpectrum) - 1)) with true.
    cbv iota.
    change (Fft.magAt peakSpectrum 9) with (Some 100%R).
    change (Fft.magAt peakSpectrum (9 - 1)) with (Some 1%R).
    change (Fft.magAt peakSpectrum (9 + 1)) with (Some 1%R).
    cbv zeta iota beta.
    replace (1 - 2 * 100 + 1)%R with (-198)%R by lra.
    replace (0.5 * (1 - 1) / -198)%R with 0%R by lra.
    rewrite Rabs_R0.
    rewrite (rlt_true 1e-10)
      by (unfold Rabs; destruct (Rcase_abs _); lra).
    rewrite (rlt_true 0 0.5) by lra. reflexivity. }
  rewrite Hr.
  unfold Fft.binWidth, Fft.FFT_SIZE, Fft.MIN_FREQUENCY, Fft.MAX_FREQUENCY.
  rewrite !rlt_false by lra. cbn [orb]. f_equal.
  unfold Fft.confidenceOf, Rmin, Rmax.
  repeat (destruct (Rle_dec _ _)); lra.
Qed.

Lemma detectPitch_strongest_peak_witness :
  exists best,
    best ∈ Fft.findPeaks peakSpectrum (Fft.minBin 48000)
             (Fft.maxBin 48000 peakSpectrum)
             (Fft.noiseFloor peakSpectrum (Fft.minBin 48000)
                (Fft.maxBin 48000 peakSpectrum))
    /\ (Rabs (fst (Fft.detectPitch 48000 peakSpectrum)
              - IZR (Fft.bin best) * Fft.binWidth 48000)
        < 0.5 * Fft.binWidth 48000)%R.
Proof.
  destruct (detectPitch_strongest_peak 48000 peakSpectrum) as
    (best & H1 & _ & _ & _ & _ & _ & _ & H2 & _).
  - lra.
  - rewrite detectPitch_peakSpectrum. cbn [fst].
    unfold Fft.binWidth, Fft.FFT_SIZE. lra.
  - exists best. split; assumption.
Defined.

(** ** The user interface *)

Lemma appendPoint_lastn {A : Type} (maxLength : Z) (prev : list A) point :
  1 <= maxLength ->
  History.appendPoint maxLength prev point
  = lastn (Z.to_nat maxLength) (prev ++ [point]).
Proof.
  intros Hm. unfold History.appendPoint, lastn, sliceFrom, sliceIndex.
  cbv zeta.
  destruct (maxLength <? _) eqn:Hc.
  - apply Z.ltb_lt in Hc.
    destruct (- maxLength <? 0) eqn:Hneg; [|apply Z.ltb_ge in Hneg; lia].
    f_equal. lia.
  - apply Z.ltb_ge in Hc.
    replace (length (prev ++ [point]) - Z.to_nat maxLength)%nat with 0%nat
      by lia.
    reflexivity.
Qed.

Lemma lastn_snoc {A : Type} (n : nat) (hist : list A) point :
  lastn n (lastn n hist ++ [point]) = lastn n (hist ++ [point]).
Proof.
  unfold lastn.
  assert (Hk : (length hist - n <= length hist)%nat) by lia.
  rewrite <- (drop_app_le hist [point] _ Hk).
  rewrite drop_drop, length_drop, length_app. simpl length.
  f_equal. lia.
Qed.

Lemma collect_snoc {A : Type} (maxLength : Z) (points : list A) point :
  History.collect maxLength (points ++ [point])
  = History.appendPoint maxLength (History.collect maxLength points) point.
Proof. unfold History.collect. rewrite fold_left_app. reflexivity. Qed.

(** Property X29.
    The pitch history keeps the latest points.  With a [maxLength] of at
    least 1, after any run of points the history is the last [maxLength]
    of them, oldest first, so it never holds more than [maxLength]; with
    a [maxLength] of 0 the cut [slice(-0)] keeps the whole list, and the
    history holds every point ever received. *)
Theorem history_keeps_latest {A : Type} (maxLength : Z) (points : list A) :
  (1 <= maxLength ->
   History.collect maxLength points = lastn (Z.to_nat maxLength) points
   /\ Z.of_nat (length (History.collect maxLength points)) <= maxLength)
  /\ History.collect 0 points = points.
Proof.
  split.
  - intros Hm.
    assert (Heq : History.collect maxLength points
                  = lastn (Z.to_nat maxLength) points).
    { induction points as [|p points IH] using rev_ind; [reflexivity|].
      rewrite collect_snoc, IH, appendPoint_lastn by exact Hm.
      apply lastn_snoc. }
    split; [exact Heq|].
    rewrite Heq. unfold lastn. rewrite length_drop. lia.
  - induction points as [|p points IH] using rev_ind; [reflexivity|].
    rewrite collect_snoc, IH. unfold History.appendPoint. cbv zeta.
    destruct (0 <? _); [|reflexivity].
    unfold sliceFrom, sliceIndex. simpl (- 0 <? 0).
    rewrite Z.min_l by lia. reflexivity.
Qed.

Lemma history_keeps_latest_witness :
  History.collect 2 [10; 20; 30] = lastn (Z.to_nat 2) [10; 20; 30]
  /\ Z.of_nat (length (History.collect 2 [10; 20; 30])) <= 2.
Proof. apply (history_keeps_latest 2 [10; 20; 30]). lia. Defined.

Lemma cents_of_report_range cfg freq conf :
  (0 < freq)%R ->
  (0 < Processor.a4Tuning cfg)%R ->
  (-50 <= Processor.cents (Processor.frequencyToPitchInfo cfg freq conf)
   < 50)%R.
Proof.
  intros Hf Ha. unfold Processor.frequencyToPitchInfo. cbv zeta.
  cbn [Processor.cents].
  rewrite cents_against_tempered by assumption.
  pose proof (Math_round_bounds
                (69 + 12 * Math_log2 (freq / Processor.a4Tuning cfg))).
  lra.
Qed.

(** The needle of the cent meter.  For a positive [range] the needle
    stays on the track, between 0 and 100 percent, and moves linearly
    while the deviation is within the range.  With the default range of
    50 the deviation of a pitch report of the processor is never
    clamped: the needle stands at [50 + cents], on the track and short of
    its right end. *)
Theorem cent_meter_needle range cents cfg freq conf :
  (0 < range)%R ->
  (0 <= CentMeter.position range cents <= 100)%R
  /\ ((Rabs cents <= range)%R ->
      CentMeter.position range cents = (50 + cents / range * 50)%R)
  /\ ((0 < freq)%R -> (0 < Processor.a4Tuning cfg)%R ->
      CentMeter.position 50
        (Processor.cents (Processor.frequencyToPitchInfo cfg freq conf))
      = (50 + Processor.cents (Processor.frequencyToPitchInfo cfg freq conf))%R
      /\ (0 <= CentMeter.position 50
                 (Processor.cents
                    (Processor.frequencyToPitchInfo cfg freq conf))
          < 100)%R).
Proof.
  intros Hr.
  assert (Hclamp : forall r c, (0 < r)%R ->
            (- r <= Rmax (- r) (Rmin r c) <= r)%R
            /\ ((- r <= c <= r)%R -> Rmax (- r) (Rmin r c) = c)).
  { intros r c H. unfold Rmax, Rmin.
    destruct (Rle_dec r c); destruct (Rle_dec _ _); split; lra. }
  split; [|split].
  - unfold CentMeter.position. cbv zeta.
    destruct (Hclamp range cents Hr) as [[H1 H2] _].
    set (c := Rmax (- range) (Rmin range cents)) in *.
    assert (Hq : (-1 <= c / range <= 1)%R).
    { split.
      - apply (Rmult_le_reg_r range); [exact Hr|].
        replace (c / range * range)%R with c by (field; lra). lra.
      - apply (Rmult_le_reg_r range); [exact Hr|].
        replace (c / range * range)%R with c by (field; lra). lra. }
    lra.
  - intros Habs. unfold CentMeter.position. cbv zeta.
    destruct (Hclamp range cents Hr) as [_ Hid].
    rewrite Hid; [reflexivity|].
    unfold Rabs in Habs. destruct (Rcase_abs cents); lra.
  - intros Hf Ha.
    pose proof (cents_of_report_range cfg freq conf Hf Ha) as Hc.
    set (c := Processor.cents _) in *.
    unfold CentMeter.position. cbv zeta.
    destruct (Hclamp 50%R c ltac:(lra)) as [_ Hid].
    rewrite Hid by lra. split; lra.
Qed.

Lemma cent_meter_needle_witness :
  (0 <= CentMeter.position 50 70 <= 100)%R.
Proof.
  apply (cent_meter_needle 50 70 defaultConfig 445 1). lra.
Defined.

(** Property X30.
    The level meter and the gate.  The fill is between 0 and 100
    percent, empty at -60 dB and below, full at 0 dB and above.  The
    threshold marker is on the track exactly for thresholds between -60
    and 0 dB; for a threshold from -60 dB up to, but not at, 0 dB, the
    fill passes the marker exactly when the level is above the
    threshold, the first condition of the gate. *)
Theorem level_meter_marks_gate rmsDb threshold :
  (0 <= LevelMeter.percentage rmsDb <= 100)%R
  /\ ((rmsDb <= -60)%R -> LevelMeter.percentage rmsDb = 0%R)
  /\ ((0 <= rmsDb)%R -> LevelMeter.percentage rmsDb = 100%R)
  /\ ((0 <= LevelMeter.thresholdPosition threshold <= 100)%R
      <-> (-60 <= threshold <= 0)%R)
  /\ ((-60 <= threshold < 0)%R ->
      ((LevelMeter.thresholdPosition threshold
        < LevelMeter.percentage rmsDb)%R
       <-> (threshold < rmsDb)%R)).
Proof.
  assert (Hpos : forall x,
            ((x - LevelMeter.minDb)
             / (LevelMeter.maxDb - LevelMeter.minDb) * 100
             = (x + 60) / 60 * 100)%R).
  { intros x. unfold LevelMeter.minDb, LevelMeter.maxDb. field. }
  unfold LevelMeter.percentage, LevelMeter.thresholdPosition.
  rewrite !Hpos. unfold Rmax, Rmin.
  repeat split; repeat (destruct (Rle_dec _ _)); try lra.
Qed.

Lemma level_meter_marks_gate_witness :
  (LevelMeter.thresholdPosition (-60) < LevelMeter.percentage (-30))%R
  <-> (-60 < -30)%R.
Proof.
  destruct (level_meter_marks_gate (-30) (-60)) as (_ & _ & _ & _ & H).
  apply H. lra.
Defined.

(** ** Snapping a frequency *)

Lemma snapMidi_class midi scaleRoot (scaleIntervals : list Z) :
  0 <= midi -> 0 <= scaleRoot < 12 ->
  scaleIntervals <> [] ->
  (forall i, i ∈ scaleIntervals -> 0 <= i < 12) ->
  PitchUtils.noteClassOf
    (PitchUtils.snapMidi midi scaleRoot scaleIntervals) scaleRoot
  ∈ scaleIntervals.
Proof.
  intros Hm Hr Hne Hl.
  rewrite (snapMidi_scaleMidi midi scaleRoot scaleIntervals Hm Hr Hne Hl).
  unfold Processor.scaleMidi. cbn [Processor.root Processor.intervals].
  destruct (PitchUtils.includes scaleIntervals
              (PitchUtils.noteClassOf midi scaleRoot)) eqn:Hin.
  - apply includes_spec. exact Hin.
  - destruct (noteClassOf_range midi scaleRoot Hm Hr) as [Hc _].
    pose proof (nearest_in_intervals _ scaleIntervals Hc Hne Hl) as Hnear.
    set (r := Processor.nearestScaleInterval
                (PitchUtils.noteClassOf midi scaleRoot) scaleIntervals) in *.
    pose proof (Hl r Hnear) as Hrb.
    assert (Hq : 0 <= midi / 12) by (apply Z.div_pos; lia).
    assert (Ht : 0 <= midi / 12 * 12 + scaleRoot + r) by lia.
    destruct (noteClassOf_range (midi / 12 * 12 + scaleRoot + r) scaleRoot
                Ht Hr) as [_ ->].
    replace (midi / 12 * 12 + scaleRoot + r - scaleRoot)
      with (r + midi / 12 * 12) by lia.
    rewrite Z_mod_plus_full, Z.mod_small by lia. exact Hnear.
Qed.

Lemma round_of_note n a4 :
  (0 < a4)%R ->
  Math_round
    (PitchUtils.frequencyToMidi (PitchUtils.midiToFrequency (IZR n) a4) a4)
  = n.
Proof.
  intros Ha. rewrite frequencyToMidi_midiToFrequency by exact Ha.
  apply Math_round_IZR.
Qed.

(** Property X17.
    [snapToScale] and [isInScale] agree.  For a positive frequency whose
    nearest note number is not negative, a root in 0..11 and intervals in 0..11
    (at least one), the snapped frequency is in the scale for
    [isInScale], snapping it again returns it, and a frequency that is
    already in the scale is snapped to its nearest tempered
    frequency. *)
Theorem snapped_frequency_in_scale frequency scaleRoot
    (scaleIntervals : list Z) a4 :
  (0 < frequency)%R ->
  (0 < a4)%R ->
  0 <= Math_round (PitchUtils.frequencyToMidi frequency a4) ->
  0 <= scaleRoot < 12 ->
  scaleIntervals <> [] ->
  (forall i, i ∈ scaleIntervals -> 0 <= i < 12) ->
  PitchUtils.isInScale
    (PitchUtils.snapToScale frequency scaleRoot scaleIntervals a4)
    scaleRoot scaleIntervals a4 = true
  /\ PitchUtils.snapToScale
       (PitchUtils.snapToScale frequency scaleRoot scaleIntervals a4)
       scaleRoot scaleIntervals a4
     = PitchUtils.snapToScale frequency scaleRoot scaleIntervals a4
  /\ (PitchUtils.isInScale frequency scaleRoot scaleIntervals a4 = true ->
      PitchUtils.snapToScale frequency scaleRoot scaleIntervals a4
      = PitchUtils.nearestTemperedFrequency frequency a4).
Proof.
  intros _ Ha Hm Hr Hne Hl.
  set (n := Math_round (PitchUtils.frequencyToMidi frequency a4)) in *.
  pose proof (snapMidi_class n scaleRoot scaleIntervals Hm Hr Hne Hl)
    as Hclass.
  assert (Hsnap : PitchUtils.snapToScale frequency scaleRoot scaleIntervals a4
                  = PitchUtils.midiToFrequency
                      (IZR (PitchUtils.snapMidi n scaleRoot scaleIntervals))
                      a4) by reflexivity.
  rewrite Hsnap. split; [|split].
  - unfold PitchUtils.isInScale. cbv zeta.
    rewrite round_of_note by exact Ha.
    apply includes_spec. exact Hclass.
  - unfold PitchUtils.snapToScale at 1. cbv zeta.
    rewrite round_of_note by exact Ha.
    destruct (snap_in_scale _ scaleRoot scaleIntervals Hclass) as [-> _].
    reflexivity.
  - unfold PitchUtils.isInScale. cbv zeta. fold n. intros Hin.
    apply includes_spec in Hin.
    destruct (snap_in_scale n scaleRoot scaleIntervals Hin) as [-> _].
    reflexivity.
Qed.

Lemma snapped_frequency_in_scale_witness :
  PitchUtils.isInScale (PitchUtils.snapToScale 440 7 majorIntervals 440)
    7 majorIntervals 440 = true.
Proof.
  apply (snapped_frequency_in_scale 440 7 majorIntervals 440).
  - lra.
  - lra.
  - unfold PitchUtils.frequencyToMidi, Math_log2.
    replace (440 / 440)%R with 1%R by lra. rewrite ln_1.
    replace (69 + 12 * (0 / ln 2))%R with (IZR 69)
      by (unfold Rdiv; rewrite Rmult_0_l; lra).
    rewrite Math_round_IZR. lia.
  - lia.
  - discriminate.
  - intros i Hi. unfold majorIntervals in Hi.
    repeat (apply elem_of_cons in Hi; destruct Hi as [->|Hi]; [lia|]).
    inversion Hi.
Defined.

(** ** Instances of the facts above *)


Lemma yin_sawtooth_below_nyquist_witness :
  (Osc.harmonicFrequency settledTriangle 12 <= Osc.nyquist settledTriangle)%R.
Proof.
  apply (yin_sawtooth_below_nyquist settledTriangle 12).
  - simpl. lra.
  - unfold YinOsc.sawtoothTerms, YinOsc.maxHarmonic. simpl.
    assert (H : Zfloor (48000 / (2 * 2000)) = 12) by (apply Zfloor_eq; lra).
    rewrite H. apply range_elem. lia.
Defined.

(** ** The noise floor of the second processor *)

Lemma insertSorted_perm {A : Type} (compare : A -> A -> R) x (l : list A) :
  insertSorted compare x l ≡ₚ x :: l.
Proof.
  induction l as [|y l IH]; simpl; [reflexivity|].
  destruct (rlt 0 (compare x y)); [|reflexivity].
  rewrite IH. apply Permutation_swap.
Qed.

Lemma sort_perm {A : Type} (compare : A -> A -> R) (l : list A) :
  sort compare l ≡ₚ l.
Proof.
  induction l as [|x l IH]; simpl; [reflexivity|].
  rewrite insertSorted_perm, IH. reflexivity.
Qed.

Lemma insertSorted_ascending x (l : list R) :
  StronglySorted Rle l ->
  StronglySorted Rle (insertSorted (fun a b : R => (a - b)%R) x l).
Proof.
  induction 1 as [|y l Hs IH Hy]; simpl.
  - repeat constructor.
  - destruct (rlt 0 (x - y)) eqn:Hc.
    + apply rlt_spec in Hc. constructor; [exact IH|].
      rewrite (insertSorted_perm _ x l). constructor; [lra|exact Hy].
    + assert (Hxy : (x <= y)%R).
      { unfold rlt in Hc. destruct (Rlt_dec _ _); [discriminate|lra]. }
      constructor; [constructor; assumption|].
      constructor; [exact Hxy|].
      eapply Forall_impl; [exact Hy|]. intros z Hz. simpl in Hz. lra.
Qed.

Lemma sort_ascending (l : list R) :
  StronglySorted Rle (sort (fun a b : R => (a - b)%R) l).
Proof.
  induction l as [|x l IH]; simpl; [constructor|].
  apply insertSorted_ascending. exact IH.
Qed.

(** Property X28.
    The noise floor is the median of the band.  [detectPitch] sorts the
    magnitudes of the band and takes the entry in the middle: half of the
    band (rounded down) can be set aside with nothing above that entry,
    and the rest holds nothing below it.  An entry of 0, or an empty
    band, gives [1e-10] instead. *)
Theorem noise_floor_is_median magnitudes lo hi :
  (slice magnitudes lo hi = [] ->
   Fft.noiseFloor magnitudes lo hi = 1e-10%R)
  /\ (slice magnitudes lo hi <> [] ->
      exists x lower upper,
        slice magnitudes lo hi ≡ₚ lower ++ x :: upper
        /\ Z.of_nat (length lower)
           = Z.of_nat (length (slice magnitudes lo hi)) / 2
        /\ Forall (fun y => (y <= x)%R) lower
        /\ Forall (fun y => (x <= y)%R) upper
        /\ Fft.noiseFloor magnitudes lo hi
           = if req x 0 then 1e-10%R else x).
Proof.
  unfold Fft.noiseFloor. cbv zeta.
  set (band := slice magnitudes lo hi).
  set (s := sort (fun a b : R => (a - b)%R) band).
  assert (Hlen : length s = length band) by apply sort_length.
  split.
  - intros Hnil. unfold s. rewrite Hnil. reflexivity.
  - intros Hne.
    assert (Hpos : (0 < length band)%nat)
      by (destruct band; [congruence|simpl; lia]).
    set (k := Z.to_nat (Z.of_nat (length s) / 2)).
    assert (Hk : (k < length s)%nat).
    { unfold k. rewrite Hlen.
      assert (Z.of_nat (length band) / 2 < Z.of_nat (length band))
        by (apply Z.div_lt; lia).
      assert (0 <= Z.of_nat (length band) / 2) by (apply Z.div_pos; lia).
      lia. }
    destruct (lookup_lt_is_Some_2 s k Hk) as [x Hx].
    rewrite Hx.
    exists x, (take k s), (drop (S k) s).
    pose proof (take_drop_middle s k x Hx) as Hmid.
    pose proof (sort_ascending band) as Hsorted. fold s in Hsorted.
    rewrite <- Hmid in Hsorted.
    split; [rewrite Hmid; symmetry; apply sort_perm|].
    split.
    { rewrite length_take, Nat.min_l by lia. unfold k. rewrite Hlen.
      apply Z2Nat.id. apply Z.div_pos; lia. }
    split.
    { apply Forall_forall. intros y Hy.
      apply (StronglySorted_app_1_elem_of Rle _ _ y x Hsorted Hy).
      apply list_elem_of_here. }
    split; [|reflexivity].
    apply StronglySorted_app_1_r in Hsorted.
    apply StronglySorted_inv in Hsorted. destruct Hsorted as [_ Hall].
    exact Hall.
Qed.

Lemma noise_floor_is_median_witness :
  exists x lower upper,
    slice peakSpectrum 7 11 ≡ₚ lower ++ x :: upper
    /\ Z.of_nat (length lower)
       = Z.of_nat (length (slice peakSpectrum 7 11)) / 2
    /\ Forall (fun y => (y <= x)%R) lower
    /\ Forall (fun y => (x <= y)%R) upper
    /\ Fft.noiseFloor peakSpectrum 7 11 = if req x 0 then 1e-10%R else x.
Proof.
  destruct (noise_floor_is_median peakSpectrum 7 11) as [_ H].
  apply H. discriminate.
Defined.
